(** * Ship routing: grid, frontier searches and the population optimizer

    A shallow embedding of [backend/grid.py], [backend/weather.py],
    [backend/algorithms.py], [backend/bidirectional_astar.py] and
    [backend/genetic_optimizer.py].

    Python [int] is [Z]; Python [float] and [np.float64] are the kernel's
    binary64 [float]; a [dict] keyed by cells is a [gmap] keyed by the
    coordinate pair (the source hashes and compares cells by [(x, y)]); a Python
    list is a [list].  Code that can raise returns an [outcome]; loops that
    are not bounded by their data take fuel and answer [NoFuel] when it runs
    out. *)

From Stdlib Require Import ZArith Floats Lia.
From stdpp Require Import gmap list strings.
Set Warnings "-inexact-float".

Local Open Scope Z_scope.

(** ** The Python runtime the sources rely on *)

Inductive exn := IndexError | KeyError | TypeError | ValueError | ZeroDivisionError.

Inductive outcome (A : Type) : Type :=
| Done (a : A)
| Raised (e : exn)
| NoFuel.
Arguments Done {A} a.
Arguments Raised {A} e.
Arguments NoFuel {A}.

#[global] Instance outcome_ret : MRet outcome := @Done.
#[global] Instance outcome_bind : MBind outcome := λ A B f m,
  match m with
  | Done a => f a
  | Raised e => Raised e
  | NoFuel => NoFuel
  end.

Module Py.

(** [range(a, b)] *)
Definition range (a b : Z) : list Z := seqZ a (b - a).

(** [l[i]] on a Python list: a negative index counts from the end, an index
    outside the list raises. *)
Definition getitem {A} (l : list A) (i : Z) : outcome A :=
  let n := Z.of_nat (length l) in
  let j := if bool_decide (i < 0) then n + i else i in
  if bool_decide (0 ≤ j < n) then
    match l !! Z.to_nat j with
    | Some a => Done a
    | None => Raised IndexError
    end
  else Raised IndexError.

(** [d[k]] on a dict *)
Definition lookup_key `{Countable K} {V} (d : gmap K V) (k : K) : outcome V :=
  match d !! k with
  | Some v => Done v
  | None => Raised KeyError
  end.

(** [l.pop()] *)
Definition pop {A} (l : list A) : outcome (A * list A) :=
  match last l with
  | Some a => Done (a, take (length l - 1) l)
  | None => Raised IndexError
  end.

(** The builtins [max(a, b)] and [min(a, b)] on floats: the first argument
    stays unless the second is greater (smaller). *)
Definition max (a b : float) : float := if PrimFloat.ltb a b then b else a.
Definition min (a b : float) : float := if PrimFloat.ltb b a then b else a.

(** Conversion of an [int] to a [float], rounding to nearest. *)
Definition float_of_int (z : Z) : float :=
  SF2Prim (binary_normalize prec emax z 0 false).

(** [int(f)]: truncation toward zero. *)
Definition int_of_float (f : float) : outcome Z :=
  match Prim2SF f with
  | S754_zero _ => Done 0
  | S754_finite s m e =>
      let a := if bool_decide (0 ≤ e) then Z.pos m * 2 ^ e else Z.pos m `div` 2 ^ (- e) in
      Done (if s then - a else a)
  | _ => Raised ValueError
  end.

End Py.

(** *** [heapq]: the binary heap on a list, with the comparison of the items
    as a parameter (a comparison of tuples can raise). *)
Module heapq.
Section heap.
Context {A : Type} (lt : A → A → outcome bool).

Definition item (heap : list A) (pos : nat) : outcome A :=
  match heap !! pos with
  | Some a => Done a
  | None => Raised IndexError
  end.

(** The [while pos > startpos] loop of [_siftdown]; [pos] halves at each
    turn, so [pos] turns are enough. *)
Fixpoint _siftdown_loop (n : nat) (heap : list A) (startpos pos : nat) (newitem : A)
  : outcome (list A * nat) :=
  match n with
  | O => Done (heap, pos)
  | S n' =>
      if bool_decide (startpos < pos)%nat then
        let parentpos := ((pos - 1) / 2)%nat in
        parent ← item heap parentpos;
        b ← lt newitem parent;
        if b : bool then _siftdown_loop n' (<[pos := parent]> heap) startpos parentpos newitem
        else Done (heap, pos)
      else Done (heap, pos)
  end.

Definition _siftdown (heap : list A) (startpos pos : nat) : outcome (list A) :=
  newitem ← item heap pos;
  '(heap, pos) ← _siftdown_loop pos heap startpos pos newitem;
  Done (<[pos := newitem]> heap).

(** The [while childpos < endpos] loop of [_siftup]; [pos] grows at each
    turn, so [endpos] turns are enough. *)
Fixpoint _siftup_loop (n : nat) (heap : list A) (endpos pos : nat) : outcome (list A * nat) :=
  match n with
  | O => Done (heap, pos)
  | S n' =>
      let childpos := (2 * pos + 1)%nat in
      if bool_decide (childpos < endpos)%nat then
        let rightpos := (childpos + 1)%nat in
        childpos ← (if bool_decide (rightpos < endpos)%nat then
                      l ← item heap childpos;
                      r ← item heap rightpos;
                      b ← lt l r;
                      Done (if b : bool then childpos else rightpos)
                    else Done childpos);
        c ← item heap childpos;
        _siftup_loop n' (<[pos := c]> heap) endpos childpos
      else Done (heap, pos)
  end.

Definition _siftup (heap : list A) (pos : nat) : outcome (list A) :=
  let endpos := length heap in
  let startpos := pos in
  newitem ← item heap pos;
  '(heap, pos) ← _siftup_loop endpos heap endpos pos;
  _siftdown (<[pos := newitem]> heap) startpos pos.

Definition heappush (heap : list A) (x : A) : outcome (list A) :=
  _siftdown (heap ++ [x]) 0 (length heap).

Definition heappop (heap : list A) : outcome (A * list A) :=
  '(lastelt, heap) ← Py.pop heap;
  match heap with
  | returnitem :: rest =>
      heap ← _siftup (lastelt :: rest) 0;
      Done (returnitem, heap)
  | [] => Done (lastelt, [])
  end.

End heap.
End heapq.

(** ** [grid.py] *)

Module Cell.

Record t := mk {
  x : Z;
  y : Z;
  is_land : bool;
  base_cost : float;
  weather_cost : float;
}.

(** [Cell(x, y)] with the defaults of the dataclass *)
Definition new (x y : Z) : t := mk x y false 1.0%float 0.0%float.

Definition total_cost (c : t) : float :=
  if is_land c then infinity else (base_cost c + weather_cost c)%float.

(** [__hash__] and [__eq__] look at the coordinates only. *)
Definition key (c : t) : Z * Z := (x c, y c).
Definition eqb (a b : t) : bool := bool_decide (key a = key b).

Definition with_is_land (b : bool) (c : t) : t :=
  mk (x c) (y c) b (base_cost c) (weather_cost c).
Definition with_weather_cost (w : float) (c : t) : t :=
  mk (x c) (y c) (is_land c) (base_cost c) w.

End Cell.

Module NavigationGrid.

Record t := mk {
  width : Z;
  height : Z;
  cell_size_km : float;
  grid : list (list Cell.t);
}.

Definition new (width height : Z) (cell_size_km : float) : t :=
  mk width height cell_size_km
     ((λ x, (λ y, Cell.new x y) <$> Py.range 0 height) <$> Py.range 0 width).

Definition get_cell (self : t) (x y : Z) : outcome (option Cell.t) :=
  if bool_decide (0 ≤ x < width self ∧ 0 ≤ y < height self) then
    col ← Py.getitem (grid self) x;
    c ← Py.getitem col y;
    Done (Some c)
  else Done None.

(** The assignment to a field of the cell object held at [grid[x][y]]. *)
Definition store (self : t) (x y : Z) (c : Cell.t) : t :=
  mk (width self) (height self) (cell_size_km self)
     (alter (λ col, <[Z.to_nat y := c]> col) (Z.to_nat x) (grid self)).

Definition set_land (self : t) (x y : Z) (is_land : bool) : outcome t :=
  cell ← get_cell self x y;
  match cell with
  | Some c => Done (store self x y (Cell.with_is_land is_land c))
  | None => Done self
  end.

(** [for v in vs: body], on the grid the body leaves, stopping at the first
    exception *)
Fixpoint for_ {V} (vs : list V) (body : t → V → outcome t) (self : t) : outcome t :=
  match vs with
  | [] => Done self
  | v :: vs => self ← body self v; for_ vs body self
  end.

Definition set_land_region (self : t) (x_start y_start x_end y_end : Z) : outcome t :=
  for_ (Py.range (Z.max 0 x_start) (Z.min (width self) (x_end + 1))) (λ self x,
    for_ (Py.range (Z.max 0 y_start) (Z.min (height self) (y_end + 1))) (λ self y,
      set_land self x y true) self) self.

Definition add_island (self : t) (center_x center_y radius : Z) : outcome t :=
  for_ (Py.range (Z.max 0 (center_x - radius)) (Z.min (width self) (center_x + radius + 1)))
    (λ self x,
      for_ (Py.range (Z.max 0 (center_y - radius)) (Z.min (height self) (center_y + radius + 1)))
        (λ self y,
          if bool_decide ((x - center_x) ^ 2 + (y - center_y) ^ 2 ≤ radius ^ 2)
          then set_land self x y true
          else Done self) self) self.

Definition set_weather_cost (self : t) (x y : Z) (cost : float) : outcome t :=
  cell ← get_cell self x y;
  match cell with
  | Some c => Done (store self x y (Cell.with_weather_cost cost c))
  | None => Done self
  end.

Definition directions (allow_diagonal : bool) : list (Z * Z) :=
  [(0, 1); (1, 0); (0, -1); (-1, 0)]
  ++ (if allow_diagonal then [(1, 1); (1, -1); (-1, 1); (-1, -1)] else []).

(** [for dx, dy in directions: ...] of [get_neighbors] *)
Fixpoint neighbors_from (self : t) (cell : Cell.t) (dirs : list (Z * Z))
  : outcome (list Cell.t) :=
  match dirs with
  | [] => Done []
  | (dx, dy) :: dirs =>
      neighbor ← get_cell self (Cell.x cell + dx) (Cell.y cell + dy);
      rest ← neighbors_from self cell dirs;
      match neighbor with
      | Some n => Done (if Cell.is_land n then rest else n :: rest)
      | None => Done rest
      end
  end.

Definition get_neighbors (self : t) (cell : Cell.t) (allow_diagonal : bool)
  : outcome (list Cell.t) :=
  neighbors_from self cell (directions allow_diagonal).

Definition get_distance (self : t) (cell1 cell2 : Cell.t) : float :=
  let dx := Z.abs (Cell.x cell1 - Cell.x cell2) in
  let dy := Z.abs (Cell.y cell1 - Cell.y cell2) in
  (PrimFloat.sqrt (Py.float_of_int (dx ^ 2 + dy ^ 2)) * cell_size_km self)%float.

Definition get_movement_cost (self : t) (from_cell to_cell : Cell.t) : float :=
  if Cell.is_land to_cell then infinity
  else (get_distance self from_cell to_cell * Cell.total_cost to_cell)%float.

Definition is_valid_path (path : list Cell.t) : bool :=
  forallb (λ cell, negb (Cell.is_land cell)) path.

(** [total += f(path[i], path[i + 1])] for [i] in [range(len(path) - 1)] *)
Fixpoint sum_legs (f : Cell.t → Cell.t → float) (total : float) (path : list Cell.t) : float :=
  match path with
  | a :: (b :: _) as rest => sum_legs f (total + f a b)%float rest
  | _ => total
  end.

Definition get_path_length (self : t) (path : list Cell.t) : float :=
  if bool_decide (length path < 2)%nat then 0.0%float
  else sum_legs (get_distance self) 0.0%float path.

Definition get_path_cost (self : t) (path : list Cell.t) : float :=
  if bool_decide (length path < 2)%nat then 0.0%float
  else sum_legs (get_movement_cost self) 0.0%float path.

(** What the constructor establishes and the methods keep: the storage has
    [width] columns of [height] cells, and the cell at [grid[x][y]] carries
    the coordinates [(x, y)]. *)
Definition wf (self : t) : Prop :=
  length (grid self) = Z.to_nat (width self) ∧
  ∀ (i : nat) col, grid self !! i = Some col →
    length col = Z.to_nat (height self) ∧
    ∀ (j : nat) c, col !! j = Some c → Cell.key c = (Z.of_nat i, Z.of_nat j).

(** The cell stored at [(x, y)], if the storage has one. *)
Definition at_ (self : t) (x y : Z) : option Cell.t :=
  if bool_decide (0 ≤ x < width self ∧ 0 ≤ y < height self) then
    grid self !! Z.to_nat x ≫= (.!! Z.to_nat y)
  else None.

End NavigationGrid.

(** ** [weather.py] *)

(** [numpy]'s [arctan2] and [cos] and Python's [%] on floats are not among the
    kernel's float operations; the development is parametric in them. *)
Class Libm := {
  arctan2 : Z → Z → float;
  cos : float → float;
  fmod : float → float → float;
}.

Module WeatherSystem.

Record t := mk {
  wind_speed : list (list float);
  wind_direction : list (list float);
  wave_height : list (list float);
  current_speed : list (list float);
  current_direction : list (list float);
}.

(** [np.zeros((width, height))] for each map *)
Definition new (grid : NavigationGrid.t) : t :=
  let zeros := (λ _, (λ _, 0.0%float) <$> Py.range 0 (NavigationGrid.height grid))
                 <$> Py.range 0 (NavigationGrid.width grid) in
  mk zeros zeros zeros zeros zeros.

(** [a[x, y]] *)
Definition index2 (a : list (list float)) (x y : Z) : outcome float :=
  row ← Py.getitem a x; Py.getitem row y.

Definition pi : float := 3.141592653589793%float.

Definition calculate_weather_cost `{Libm} (self : t) (cell : Cell.t) (heading : float)
  : outcome float :=
  let x := Cell.x cell in
  let y := Cell.y cell in
  if Cell.is_land cell then Done 0.0%float
  else
    wave ← index2 (wave_height self) x y;
    let wave_cost := (1.0 + wave / 10.0)%float in
    wind_dir ← index2 (wind_direction self) x y;
    wind_speed ← index2 (wind_speed self) x y;
    let wind_angle := abs (fmod (heading - wind_dir + pi) (2 * pi) - pi)%float in
    let wind_factor := cos wind_angle in
    let wind_cost := (1.0 - wind_factor * wind_speed / 100.0)%float in
    current_dir ← index2 (current_direction self) x y;
    current_speed ← index2 (current_speed self) x y;
    let current_angle := abs (fmod (heading - current_dir + pi) (2 * pi) - pi)%float in
    let current_factor := cos current_angle in
    let current_cost := (1.0 - current_factor * current_speed / 50.0)%float in
    let total_cost := (wave_cost * wind_cost * current_cost)%float in
    Done (Py.max 0.1%float total_cost).

Definition get_fuel_consumption (distance_km weather_cost ship_speed_knots : float) : float :=
  let distance_nm := (distance_km / 1.852)%float in
  let base_consumption := 0.15%float in
  (distance_nm * base_consumption * weather_cost)%float.

End WeatherSystem.

(** ** [algorithms.py] *)

Module RouteResult.

Record t := mk {
  path : list Cell.t;
  distance_km : float;
  cost : float;
  fuel_tons : float;
  time_hours : float;
  nodes_explored : Z;
  computation_time_ms : float;
  algorithm : string;
}.

End RouteResult.

Module ShipRouter.

Record t := mk {
  grid : NavigationGrid.t;
  weather : option WeatherSystem.t;
  ship_speed_knots : float;
}.

Definition new (grid : NavigationGrid.t) (weather : option WeatherSystem.t) : t :=
  mk grid weather 20.0%float.

(** A frontier entry [(priority, counter, cell)] *)
Definition entry : Type := float * Z * Cell.t.

(** [<] on two entries, as Python compares tuples: the first position where
    the two differ decides, and cells have no order. *)
Definition entry_lt (a b : entry) : outcome bool :=
  let '(p1, n1, c1) := a in
  let '(p2, n2, c2) := b in
  if negb (PrimFloat.eqb p1 p2) then Done (PrimFloat.ltb p1 p2)
  else if negb (bool_decide (n1 = n2)) then Done (bool_decide (n1 < n2))
  else if negb (Cell.eqb c1 c2) then Raised TypeError
  else Done false.

(** The state of the loop the four searches share: the frontier [pq], the
    predecessor dict, the dict of running scores ([cost_so_far], [g_score],
    [fuel_score]) and the two counters. *)
Record frontier := Frontier {
  pq : list entry;
  came_from : gmap (Z * Z) (option Cell.t);
  score : gmap (Z * Z) float;
  nodes_explored : Z;
  counter : Z;
}.

Definition start_frontier (start : Cell.t) : frontier :=
  Frontier [(0%float, 0, start)] {[ Cell.key start := None ]} {[ Cell.key start := 0%float ]} 0 0.

Section skeleton.
(** [tentative score current neighbor]: the running score of [neighbor]
    through [current]; [priority g neighbor]: the key it is pushed with. *)
Variable tentative : gmap (Z * Z) float → Cell.t → Cell.t → outcome float.
Variable priority : float → Cell.t → float.

(** The body of [for neighbor in self.grid.get_neighbors(current)] *)
Definition relax (current : Cell.t) (st : frontier) (neighbor : Cell.t) : outcome frontier :=
  new_cost ← tentative (score st) current neighbor;
  if match score st !! Cell.key neighbor with
     | None => true
     | Some old => PrimFloat.ltb new_cost old
     end
  then
    let score := <[Cell.key neighbor := new_cost]> (score st) in
    let counter := counter st + 1 in
    pq ← heapq.heappush entry_lt (pq st) (priority new_cost neighbor, counter, neighbor);
    Done (Frontier pq (<[Cell.key neighbor := Some current]> (came_from st)) score
                   (nodes_explored st) counter)
  else Done st.

Fixpoint relax_all (current : Cell.t) (st : frontier) (neighbors : list Cell.t)
  : outcome frontier :=
  match neighbors with
  | [] => Done st
  | n :: ns => st ← relax current st n; relax_all current st ns
  end.

(** [while pq: ...], one unit of fuel per turn *)
Fixpoint search_loop (fuel : nat) (grid : NavigationGrid.t) (goal : Cell.t) (st : frontier)
  : outcome frontier :=
  match pq st with
  | [] => Done st
  | _ =>
      match fuel with
      | O => NoFuel
      | S fuel =>
          '(_, _, current, pq) ← heapq.heappop entry_lt (pq st);
          let st := Frontier pq (came_from st) (score st) (nodes_explored st + 1) (counter st) in
          if Cell.eqb current goal then Done st
          else
            neighbors ← NavigationGrid.get_neighbors grid current true;
            st ← relax_all current st neighbors;
            search_loop fuel grid goal st
      end
  end.

End skeleton.

(** [while current is not None: path.append(current); current = came_from[current]] *)
Fixpoint follow (fuel : nat) (came_from : gmap (Z * Z) (option Cell.t))
  (current : option Cell.t) (path : list Cell.t) : outcome (list Cell.t) :=
  match current with
  | None => Done path
  | Some c =>
      match fuel with
      | O => NoFuel
      | S fuel =>
          next ← Py.lookup_key came_from (Cell.key c);
          follow fuel came_from next (path ++ [c])
      end
  end.

Definition _reconstruct_path (fuel : nat) (came_from : gmap (Z * Z) (option Cell.t))
  (start goal : Cell.t) : outcome (list Cell.t) :=
  match came_from !! Cell.key goal with
  | None => Done []
  | Some _ =>
      path ← follow fuel came_from (Some goal) [];
      Done (reverse path)
  end.

(** [np.arctan2(dy, dx)] of the step between two cells *)
Definition heading `{Libm} (from_cell to_cell : Cell.t) : float :=
  let dx := Cell.x to_cell - Cell.x from_cell in
  let dy := Cell.y to_cell - Cell.y from_cell in
  arctan2 dy dx.

Section methods.
Context {libm : Libm}.

(** [fuel += ...] for [i] in [range(len(path) - 1)], with a weather system *)
Fixpoint fuel_legs (self : t) (w : WeatherSystem.t) (fuel : float) (path : list Cell.t)
  : outcome float :=
  match path with
  | a :: (b :: _) as rest =>
      let segment_dist := NavigationGrid.get_distance (grid self) a b in
      weather_cost ← WeatherSystem.calculate_weather_cost w b (heading a b);
      fuel_legs self w
        (fuel + WeatherSystem.get_fuel_consumption segment_dist weather_cost
                  (ship_speed_knots self))%float rest
  | _ => Done fuel
  end.

Definition _create_result (self : t) (path : list Cell.t) (nodes_explored : Z)
  (computation_time : float) (algorithm : string) : outcome RouteResult.t :=
  match path with
  | [] => Done (RouteResult.mk [] 0 0 0 0 nodes_explored computation_time algorithm)
  | _ =>
      let distance := NavigationGrid.get_path_length (grid self) path in
      let cost := NavigationGrid.get_path_cost (grid self) path in
      fuel ← match weather self with
             | Some w => fuel_legs self w 0.0%float path
             | None => Done (distance * 0.15 / 1.852)%float
             end;
      let time_hours := (distance / 1.852 / ship_speed_knots self)%float in
      Done (RouteResult.mk path distance cost fuel time_hours nodes_explored
                           computation_time algorithm)
  end.

(** What the four searches do after their loop; [t0] and [t1] are the two
    readings of [time.time()]. *)
Definition finish (fuel : nat) (self : t) (start goal : Cell.t) (t0 t1 : float)
  (algorithm : string) (st : frontier) : outcome RouteResult.t :=
  path ← _reconstruct_path fuel (came_from st) start goal;
  let computation_time := ((t1 - t0) * 1000)%float in
  _create_result self path (nodes_explored st) computation_time algorithm.

(** [cost_so_far[current] + self.grid.get_movement_cost(current, neighbor)] *)
Definition dijkstra_tentative (self : t) (cost_so_far : gmap (Z * Z) float)
  (current neighbor : Cell.t) : outcome float :=
  g ← Py.lookup_key cost_so_far (Cell.key current);
  Done (g + NavigationGrid.get_movement_cost (grid self) current neighbor)%float.

Definition dijkstra (fuel : nat) (self : t) (start goal : Cell.t) (t0 t1 : float)
  : outcome RouteResult.t :=
  st ← search_loop (dijkstra_tentative self) (λ new_cost _, new_cost)
         fuel (grid self) goal (start_frontier start);
  finish fuel self start goal t0 t1 "Dijkstra" st.

Definition a_star (fuel : nat) (self : t) (start goal : Cell.t) (t0 t1 : float)
  : outcome RouteResult.t :=
  let heuristic cell := NavigationGrid.get_distance (grid self) cell goal in
  st ← search_loop (dijkstra_tentative self)
         (λ tentative_g neighbor, tentative_g + heuristic neighbor)%float
         fuel (grid self) goal (start_frontier start);
  finish fuel self start goal t0 t1 "A*" st.

Definition weather_tentative (self : t) (w : WeatherSystem.t) (g_score : gmap (Z * Z) float)
  (current neighbor : Cell.t) : outcome float :=
  weather_cost ← WeatherSystem.calculate_weather_cost w neighbor (heading current neighbor);
  let movement_cost :=
    (NavigationGrid.get_distance (grid self) current neighbor * weather_cost)%float in
  g ← Py.lookup_key g_score (Cell.key current);
  Done (g + movement_cost)%float.

Definition weather_aware_astar (fuel : nat) (self : t) (start goal : Cell.t) (t0 t1 : float)
  : outcome RouteResult.t :=
  match weather self with
  | None => a_star fuel self start goal t0 t1
  | Some w =>
      let heuristic cell := NavigationGrid.get_distance (grid self) cell goal in
      st ← search_loop (weather_tentative self w)
             (λ tentative_g neighbor, tentative_g + heuristic neighbor)%float
             fuel (grid self) goal (start_frontier start);
      finish fuel self start goal t0 t1 "Weather-Aware A*" st
  end.

Definition fuel_tentative (self : t) (w : WeatherSystem.t) (fuel_score : gmap (Z * Z) float)
  (current neighbor : Cell.t) : outcome float :=
  let distance := NavigationGrid.get_distance (grid self) current neighbor in
  weather_cost ← WeatherSystem.calculate_weather_cost w neighbor (heading current neighbor);
  let fuel_cost :=
    WeatherSystem.get_fuel_consumption distance weather_cost (ship_speed_knots self) in
  g ← Py.lookup_key fuel_score (Cell.key current);
  Done (g + fuel_cost)%float.

Definition fuel_optimized (fuel : nat) (self : t) (start goal : Cell.t) (t0 t1 : float)
  : outcome RouteResult.t :=
  match weather self with
  | None => a_star fuel self start goal t0 t1
  | Some w =>
      let heuristic cell :=
        let distance := NavigationGrid.get_distance (grid self) cell goal in
        WeatherSystem.get_fuel_consumption distance 1.0%float (ship_speed_knots self) in
      st ← search_loop (fuel_tentative self w)
             (λ tentative_fuel neighbor, tentative_fuel + heuristic neighbor)%float
             fuel (grid self) goal (start_frontier start);
      finish fuel self start goal t0 t1 "Fuel-Optimized" st
  end.

End methods.
End ShipRouter.

(** ** [bidirectional_astar.py] *)

Module BiDirectionalResult.

Record t := mk {
  path : list Cell.t;
  distance_km : float;
  fuel_tons : float;
  time_hours : float;
  cost : float;
  nodes_explored : Z;
  computation_time_ms : float;
  algorithm : string;
}.

End BiDirectionalResult.

Module BidirectionalAStar.

Record t := mk {
  grid : NavigationGrid.t;
  weather : option WeatherSystem.t;
}.

(** An open-list entry [(f_score, cell)]: nothing stands between the score
    and the cell. *)
Definition entry : Type := float * Cell.t.

Definition entry_lt (a b : entry) : outcome bool :=
  let '(p1, c1) := a in
  let '(p2, c2) := b in
  if negb (PrimFloat.eqb p1 p2) then Done (PrimFloat.ltb p1 p2)
  else if negb (Cell.eqb c1 c2) then Raised TypeError
  else Done false.

(** One direction of the search: its open list, predecessor dict, scores and
    closed set. *)
Record side := Side {
  open : list entry;
  came_from : gmap (Z * Z) (option Cell.t);
  g_score : gmap (Z * Z) float;
  closed : gset (Z * Z);
}.

Definition start_side (c : Cell.t) : side :=
  Side [(0%float, c)] {[ Cell.key c := None ]} {[ Cell.key c := 0%float ]} ∅.

Record state := State {
  forward : side;
  backward : side;
  meeting_point : option Cell.t;
  best_path_cost : float;
  nodes_explored : Z;
}.

(** The body of [for neighbor in self.grid.get_neighbors(current)] on one
    side; [target] is the endpoint the heuristic aims at. *)
Definition relax (self : t) (target current : Cell.t) (s : side) (neighbor : Cell.t)
  : outcome side :=
  if Cell.is_land neighbor || bool_decide (Cell.key neighbor ∈ closed s) then Done s
  else
    g ← Py.lookup_key (g_score s) (Cell.key current);
    let tentative_g :=
      (g + NavigationGrid.get_movement_cost (grid self) current neighbor)%float in
    if match g_score s !! Cell.key neighbor with
       | None => true
       | Some old => PrimFloat.ltb tentative_g old
       end
    then
      let f_score :=
        (tentative_g + NavigationGrid.get_distance (grid self) neighbor target)%float in
      open ← heapq.heappush entry_lt (open s) (f_score, neighbor);
      Done (Side open (<[Cell.key neighbor := Some current]> (came_from s))
                 (<[Cell.key neighbor := tentative_g]> (g_score s)) (closed s))
    else Done s.

Fixpoint relax_all (self : t) (target current : Cell.t) (s : side) (neighbors : list Cell.t)
  : outcome side :=
  match neighbors with
  | [] => Done s
  | n :: ns => s ← relax self target current s n; relax_all self target current s ns
  end.

(** One half of a turn of the loop: pop from [mine], test against the closed
    set of [other], expand.  [fwd] and [bwd] are the forward and backward
    scores; the boolean of the answer says whether the loop breaks. *)
Definition expand (self : t) (target : Cell.t) (mine other : side)
  (fwd bwd : gmap (Z * Z) float) (meeting : option Cell.t) (best : float) (nodes : Z)
  : outcome (bool * side * option Cell.t * float * Z) :=
  '(_, current, open) ← heapq.heappop entry_lt (open mine);
  let mine := Side open (came_from mine) (g_score mine) (closed mine) in
  if bool_decide (Cell.key current ∈ closed other) then
    gf ← Py.lookup_key fwd (Cell.key current);
    gb ← Py.lookup_key bwd (Cell.key current);
    let total_cost := (gf + gb)%float in
    if PrimFloat.ltb total_cost best
    then Done (true, mine, Some current, total_cost, nodes)
    else Done (true, mine, meeting, best, nodes)
  else if bool_decide (Cell.key current ∉ closed mine) then
    let mine := Side open (came_from mine) (g_score mine) ({[Cell.key current]} ∪ closed mine) in
    neighbors ← NavigationGrid.get_neighbors (grid self) current true;
    mine ← relax_all self target current mine neighbors;
    Done (false, mine, meeting, best, nodes + 1)
  else Done (false, mine, meeting, best, nodes).

(** [while forward_open and backward_open: ...] *)
Fixpoint search_loop (fuel : nat) (self : t) (start goal : Cell.t) (st : state)
  : outcome state :=
  match open (forward st), open (backward st) with
  | _ :: _, _ :: _ =>
      match fuel with
      | O => NoFuel
      | S fuel =>
          '(stop, fw, meeting, best, nodes) ←
            expand self goal (forward st) (backward st)
                   (g_score (forward st)) (g_score (backward st))
                   (meeting_point st) (best_path_cost st) (nodes_explored st);
          if stop : bool then Done (State fw (backward st) meeting best nodes)
          else
            match open (backward st) with
            | [] => search_loop fuel self start goal (State fw (backward st) meeting best nodes)
            | _ =>
                '(stop, bw, meeting, best, nodes) ←
                  expand self start (backward st) fw
                         (g_score fw) (g_score (backward st)) meeting best nodes;
                if stop : bool then Done (State fw bw meeting best nodes)
                else search_loop fuel self start goal (State fw bw meeting best nodes)
            end
      end
  | _, _ => Done st
  end.

Section methods.
Context {libm : Libm}.

(** The fuel loop over the legs of the path *)
Fixpoint fuel_legs (self : t) (fuel : float) (path : list Cell.t) : outcome float :=
  match path with
  | a :: (b :: _) as rest =>
      let segment_dist := NavigationGrid.get_distance (grid self) a b in
      leg ← match weather self with
            | Some w =>
                weather_cost ← WeatherSystem.calculate_weather_cost w b (ShipRouter.heading a b);
                Done (WeatherSystem.get_fuel_consumption segment_dist weather_cost 20.0%float)
            | None => Done (segment_dist * 0.15 / 1.852)%float
            end;
      fuel_legs self (fuel + leg)%float rest
  | _ => Done fuel
  end.

Definition search (fuel : nat) (self : t) (start goal : Cell.t) (t0 t1 : float)
  : outcome (option BiDirectionalResult.t) :=
  st ← search_loop fuel self start goal
         (State (start_side start) (start_side goal) None infinity 0);
  match meeting_point st with
  | None => Done None
  | Some meeting_point =>
      path ← ShipRouter.follow fuel (came_from (forward st)) (Some meeting_point) [];
      let path := reverse path in
      current ← Py.lookup_key (came_from (backward st)) (Cell.key meeting_point);
      path ← ShipRouter.follow fuel (came_from (backward st)) current path;
      let distance := NavigationGrid.sum_legs (NavigationGrid.get_distance (grid self)) 0 path in
      fuel ← fuel_legs self 0 path;
      let time_hours := (distance / 1.852 / 20.0)%float in
      let cost := best_path_cost st in
      let computation_time := ((t1 - t0) * 1000)%float in
      Done (Some (BiDirectionalResult.mk path distance fuel time_hours cost
                    (nodes_explored st) computation_time "Bidirectional A*"))
  end.

End methods.
End BidirectionalAStar.

(** ** [genetic_optimizer.py] *)

Module Route.

Record t := mk {
  waypoints : list Cell.t;
  fitness : float;
  distance : float;
  fuel : float;
  safety : float;
  time : float;
}.

(** [Route(waypoints=...)] with the defaults of the dataclass *)
Definition new (waypoints : list Cell.t) : t := mk waypoints 0 0 0 0 0.

Definition with_waypoints (wps : list Cell.t) (r : t) : t :=
  mk wps (fitness r) (distance r) (fuel r) (safety r) (time r).
Definition with_fitness (f : float) (r : t) : t :=
  mk (waypoints r) f (distance r) (fuel r) (safety r) (time r).

End Route.

Module GeneticRouteOptimizer.

(** The [weights] dict with its four keys *)
Record weights := Weights {
  w_distance : float;
  w_fuel : float;
  w_safety : float;
  w_time : float;
}.

Record t := mk {
  grid : NavigationGrid.t;
  weather : option WeatherSystem.t;
  population_size : Z;
  generations : Z;
  mutation_rate : float;
  crossover_rate : float;
}.

Definition new (grid : NavigationGrid.t) (weather : option WeatherSystem.t)
  (population_size generations : Z) : t :=
  mk grid weather population_size generations 0.1 0.8.

(** Routes are objects: the population, the parents, the offspring and
    [best_route] hold references to them, and a mutation is seen through
    every reference.  [objects] is the store of the routes allocated so far,
    a reference is an index in it; [drawn] counts the draws made from the
    random source. *)
Record mem := Mem {
  objects : list Route.t;
  drawn : nat;
}.

Definition M (A : Type) : Type := mem → outcome (A * mem).

#[global] Instance M_ret : MRet M := λ A a m, Done (a, m).
#[global] Instance M_bind : MBind M := λ A B f c m,
  match c m with
  | Done (a, m) => f a m
  | Raised e => Raised e
  | NoFuel => NoFuel
  end.

Definition lift {A} (o : outcome A) : M A := λ m,
  match o with
  | Done a => Done (a, m)
  | Raised e => Raised e
  | NoFuel => NoFuel
  end.

Definition alloc (r : Route.t) : M nat := λ m,
  Done (length (objects m), Mem (objects m ++ [r]) (drawn m)).

Definition get (ref : nat) : M Route.t := λ m,
  match objects m !! ref with
  | Some r => Done (r, m)
  | None => Raised KeyError
  end.

Definition put (ref : nat) (r : Route.t) : M unit := λ m,
  Done ((), Mem (<[ref := r]> (objects m)) (drawn m)).

Fixpoint for_ {V} (vs : list V) (body : V → M unit) : M unit :=
  match vs with
  | [] => mret ()
  | v :: vs => body v;; for_ vs body
  end.

(** [for v in vs: out.append(body(v))] *)
Fixpoint collect {V W} (vs : list V) (body : V → M W) : M (list W) :=
  match vs with
  | [] => mret []
  | v :: vs => w ← body v; ws ← collect vs body; mret (w :: ws)
  end.

Section random.
(** The random source: the [n]-th draw reads [tape n]; a call of the
    [random] module makes one draw, which decides its answer. *)
Variable tape : nat → Z.

Definition draw : M Z := λ m, Done (tape (drawn m), Mem (objects m) (S (drawn m))).

(** [random.randint(a, b)] *)
Definition randint (a b : Z) : M Z :=
  if bool_decide (b < a) then lift (Raised ValueError)
  else v ← draw; mret (a + v `mod` (b - a + 1)).

(** [random.random()]: a multiple of [2 ** -53] in [[0, 1)] *)
Definition random : M float :=
  v ← draw; mret (Py.float_of_int (v `mod` 2 ^ 53) / Py.float_of_int (2 ^ 53))%float.

(** [random.choice(seq)] *)
Definition choice {A} (seq : list A) : M A :=
  match seq with
  | [] => lift (Raised IndexError)
  | _ => v ← draw; lift (Py.getitem seq (v `mod` Z.of_nat (length seq)))
  end.

(** [random.sample(population, k)]: [k] items at distinct positions of the
    population, in the order they are drawn.  One draw decides each position,
    by selection from a pool: the chosen slot is refilled with the last
    element still in the pool. *)
Fixpoint sample_pool {A} (pool : list A) (k : nat) : M (list A) :=
  match k with
  | O => mret []
  | S k =>
      v ← draw;
      let n := length pool in
      let j := Z.to_nat (v `mod` Z.of_nat n) in
      a ← lift (heapq.item pool j);
      z ← lift (heapq.item pool (n - 1));
      rest ← sample_pool (take (n - 1) (<[j := z]> pool)) k;
      mret (a :: rest)
  end.

Definition sample {A} (population : list A) (k : nat) : M (list A) :=
  if bool_decide (length population < k)%nat then lift (Raised ValueError)
  else sample_pool population k.

Context {libm : Libm}.

(** The loop of [_evaluate_route] over the legs *)
Fixpoint evaluate_legs (self : t) (distance fuel safety : float) (wps : list Cell.t)
  : outcome (float * float * float) :=
  match wps with
  | current :: (next_cell :: _) as rest =>
      let segment_dist := NavigationGrid.get_distance (grid self) current next_cell in
      let distance := (distance + segment_dist)%float in
      '(fuel, safety) ←
        match weather self with
        | Some w =>
            weather_cost ← WeatherSystem.calculate_weather_cost w next_cell
                             (ShipRouter.heading current next_cell);
            let fuel :=
              (fuel + WeatherSystem.get_fuel_consumption segment_dist weather_cost 20.0)%float in
            if PrimFloat.eqb weather_cost 0 then Raised ZeroDivisionError
            else Done (fuel, safety * (1.0 / weather_cost))%float
        | None => Done (fuel + segment_dist * 0.15 / 1.852, safety)%float
        end;
      evaluate_legs self distance fuel safety rest
  | _ => Done (distance, fuel, safety)
  end.

Definition _evaluate_route (self : t) (route : nat) : M unit :=
  r ← get route;
  let wps := Route.waypoints r in
  if bool_decide (length wps < 2)%nat then
    put route (Route.mk wps (Route.fitness r) infinity infinity 0.0 infinity)
  else
    '(distance, fuel, safety) ← lift (evaluate_legs self 0.0 0.0 1.0 wps);
    put route (Route.mk wps (Route.fitness r) distance fuel
                 (safety / Py.float_of_int (Z.of_nat (length wps)))
                 (distance / 1.852 / 20.0))%float.

Definition _calculate_fitness (r : Route.t) (w : weights) : float :=
  let max_distance := 2000.0%float in
  let max_fuel := 200.0%float in
  let max_time := 100.0%float in
  let distance_score := (1.0 - Py.min (Route.distance r / max_distance) 1.0)%float in
  let fuel_score := (1.0 - Py.min (Route.fuel r / max_fuel) 1.0)%float in
  let safety_score := Route.safety r in
  let time_score := (1.0 - Py.min (Route.time r / max_time) 1.0)%float in
  let fitness := (w_distance w * distance_score + w_fuel w * fuel_score
                  + w_safety w * safety_score + w_time w * time_score)%float in
  if existsb Cell.is_land (Route.waypoints r) then (fitness * 0.1)%float else fitness.

(** [max(0, min(hi - 1, v))] *)
Definition clamp (hi v : Z) : Z := Z.max 0 (Z.min (hi - 1) v).

(** One turn of the inner loop of [_initialize_population]: the waypoint
    that is appended, if any. *)
Definition initial_waypoint (self : t) (start goal : Cell.t) (num_waypoints i : Z)
  : M (option Cell.t) :=
  let progress := (Py.float_of_int (i + 1) / Py.float_of_int (num_waypoints + 1))%float in
  target_x ← lift (Py.int_of_float
    (Py.float_of_int (Cell.x start)
     + Py.float_of_int (Cell.x goal - Cell.x start) * progress)%float);
  target_y ← lift (Py.int_of_float
    (Py.float_of_int (Cell.y start)
     + Py.float_of_int (Cell.y goal - Cell.y start) * progress)%float);
  jx ← randint (-5) 5;
  jy ← randint (-5) 5;
  let target_x := clamp (NavigationGrid.width (grid self)) (target_x + jx) in
  let target_y := clamp (NavigationGrid.height (grid self)) (target_y + jy) in
  cell ← lift (NavigationGrid.get_cell (grid self) target_x target_y);
  mret (match cell with
        | Some c => if Cell.is_land c then None else Some c
        | None => None
        end).

(** The body of the outer loop of [_initialize_population] *)
Definition initial_route (self : t) (start goal : Cell.t) : M nat :=
  num_waypoints ← randint 5 15;
  mids ← collect (Py.range 0 num_waypoints) (initial_waypoint self start goal num_waypoints);
  let waypoints := [start] ++ omap id mids ++ [goal] in
  route ← alloc (Route.new waypoints);
  _evaluate_route self route;;
  mret route.

Definition _initialize_population (self : t) (start goal : Cell.t) : M (list nat) :=
  collect (Py.range 0 (population_size self)) (λ _, initial_route self start goal).

(** [max(tournament, key=lambda r: r.fitness)]: the first of the greatest *)
Fixpoint max_by_fitness (best : nat) (rest : list nat) : M nat :=
  match rest with
  | [] => mret best
  | r :: rest =>
      b ← get best;
      c ← get r;
      max_by_fitness (if PrimFloat.ltb (Route.fitness b) (Route.fitness c) then r else best) rest
  end.

Definition _tournament_selection (self : t) (population : list nat) (tournament_size : nat)
  : M (list nat) :=
  collect (Py.range 0 (population_size self)) (λ _,
    tournament ← sample population tournament_size;
    match tournament with
    | [] => lift (Raised ValueError)
    | r :: rest => max_by_fitness r rest
    end).

(** The body of the loop of [_crossover] for one pair of parents *)
Definition cross_pair (self : t) (p1 p2 : nat) : M (list nat) :=
  u ← random;
  if PrimFloat.ltb u (crossover_rate self) then
    parent1 ← get p1;
    parent2 ← get p2;
    let min_len := Nat.min (length (Route.waypoints parent1)) (length (Route.waypoints parent2)) in
    if bool_decide (2 < min_len)%nat then
      point ← randint 1 (Z.of_nat min_len - 1);
      let point := Z.to_nat point in
      let child1_waypoints :=
        take point (Route.waypoints parent1) ++ drop point (Route.waypoints parent2) in
      let child2_waypoints :=
        take point (Route.waypoints parent2) ++ drop point (Route.waypoints parent1) in
      child1 ← alloc (Route.new child1_waypoints);
      child2 ← alloc (Route.new child2_waypoints);
      _evaluate_route self child1;;
      _evaluate_route self child2;;
      mret [child1; child2]
    else mret [p1; p2]
  else mret [p1; p2].

(** [for i in range(0, len(parents) - 1, 2)] *)
Fixpoint _crossover (self : t) (parents : list nat) : M (list nat) :=
  match parents with
  | p1 :: p2 :: rest =>
      pair ← cross_pair self p1 p2;
      offspring ← _crossover self rest;
      mret (pair ++ offspring)
  | _ => mret []
  end.

Inductive mutation := modify | add | remove.

(** The three branches of a mutation: the waypoints they leave. *)
Definition mutate_waypoints (self : t) (mutation_type : mutation) (wps : list Cell.t)
  : M (list Cell.t) :=
  let n := Z.of_nat (length wps) in
  match mutation_type with
  | modify =>
      idx ← randint 1 (n - 2);
      current ← lift (Py.getitem wps idx);
      jx ← randint (-3) 3;
      jy ← randint (-3) 3;
      let new_x := clamp (NavigationGrid.width (grid self)) (Cell.x current + jx) in
      let new_y := clamp (NavigationGrid.height (grid self)) (Cell.y current + jy) in
      new_cell ← lift (NavigationGrid.get_cell (grid self) new_x new_y);
      mret (match new_cell with
            | Some c => if Cell.is_land c then wps else <[Z.to_nat idx := c]> wps
            | None => wps
            end)
  | add =>
      if bool_decide (n < 20) then
        idx ← randint 1 (n - 1);
        prev ← lift (Py.getitem wps (idx - 1));
        next_wp ← lift (Py.getitem wps idx);
        jx ← randint (-2) 2;
        jy ← randint (-2) 2;
        let mid_x := clamp (NavigationGrid.width (grid self))
                       ((Cell.x prev + Cell.x next_wp) `div` 2 + jx) in
        let mid_y := clamp (NavigationGrid.height (grid self))
                       ((Cell.y prev + Cell.y next_wp) `div` 2 + jy) in
        mid_cell ← lift (NavigationGrid.get_cell (grid self) mid_x mid_y);
        mret (match mid_cell with
              | Some c => if Cell.is_land c then wps
                          else take (Z.to_nat idx) wps ++ c :: drop (Z.to_nat idx) wps
              | None => wps
              end)
      else mret wps
  | remove =>
      if bool_decide (3 < n) then
        idx ← randint 1 (n - 2);
        mret (delete (Z.to_nat idx) wps)
      else mret wps
  end.

(** The body of the loop of [_mutate] for one route *)
Definition mutate_route (self : t) (route : nat) : M unit :=
  u ← random;
  if PrimFloat.ltb u (mutation_rate self) then
    r ← get route;
    if bool_decide (2 < length (Route.waypoints r))%nat then
      mutation_type ← choice [modify; add; remove];
      wps ← mutate_waypoints self mutation_type (Route.waypoints r);
      put route (Route.with_waypoints wps r);;
      _evaluate_route self route
    else mret ()
  else mret ().

Definition _mutate (self : t) (offspring : list nat) (start goal : Cell.t) : M (list nat) :=
  for_ offspring (mutate_route self);;
  mret offspring.

(** [population.sort(key=lambda r: r.fitness, reverse=True)]: for keys that
    [<] orders, the stable descending order; [keyed] pairs each reference
    with its key. *)
Fixpoint insert_desc (x : float * nat) (l : list (float * nat)) : list (float * nat) :=
  match l with
  | [] => [x]
  | y :: l' => if PrimFloat.ltb (fst x) (fst y) then y :: insert_desc x l' else x :: l
  end.

Definition sort_desc (keyed : list (float * nat)) : list nat :=
  snd <$> foldr insert_desc [] keyed.

(** The variables of the generation loop of [optimize] *)
Record evolution := Evolution {
  population : list nat;
  best_route : option nat;
  best_fitness : float;
}.

(** The body of [for route in population] at the head of a generation *)
Definition assess (w : weights) (ev : evolution) (route : nat) : M evolution :=
  r ← get route;
  let f := _calculate_fitness r w in
  put route (Route.with_fitness f r);;
  if PrimFloat.ltb (best_fitness ev) f
  then mret (Evolution (population ev) (Some route) f)
  else mret ev.

Fixpoint assess_all (w : weights) (ev : evolution) (routes : list nat) : M evolution :=
  match routes with
  | [] => mret ev
  | r :: rs => ev ← assess w ev r; assess_all w ev rs
  end.

(** One turn of [for generation in range(self.generations)] *)
Definition generation_step (self : t) (start goal : Cell.t) (w : weights)
  (ev : evolution) (generation : Z) : M evolution :=
  ev ← assess_all w ev (population ev);
  parents ← _tournament_selection self (population ev) 5;
  offspring ← _crossover self parents;
  let rate := (0.1 * (1 - Py.float_of_int generation / Py.float_of_int (generations self))
               + 0.01)%float in
  let self := mk (grid self) (weather self) (population_size self) (generations self)
                 rate (crossover_rate self) in
  offspring ← _mutate self offspring start goal;
  keyed ← collect (population ev) (λ r, o ← get r; mret (Route.fitness o, r));
  let population := sort_desc keyed in
  elite_size ← lift (Py.int_of_float (0.1 * Py.float_of_int (population_size self))%float);
  let population :=
    take (Z.to_nat elite_size) population
    ++ take (Z.to_nat (population_size self - elite_size)) offspring in
  mret (Evolution population (best_route ev) (best_fitness ev)).

Fixpoint evolve (self : t) (start goal : Cell.t) (w : weights) (ev : evolution)
  (gens : list Z) : M evolution :=
  match gens with
  | [] => mret ev
  | g :: gens => ev ← generation_step self start goal w ev g; evolve self start goal w ev gens
  end.

Definition default_weights : weights := Weights 0.25 0.35 0.25 0.15.

(** The loop of [optimize] from the initial population on *)
Definition run (self : t) (start goal : Cell.t) (w : option weights) : M evolution :=
  let w := default default_weights w in
  population ← _initialize_population self start goal;
  evolve self start goal w (Evolution population None neg_infinity)
         (Py.range 0 (generations self)).

(** The result is the object [best_route] refers to, as it is when the call
    returns. *)
Definition optimize (self : t) (start goal : Cell.t) (w : option weights)
  : M (option Route.t) :=
  ev ← run self start goal w;
  match best_route ev with
  | None => mret None
  | Some route => r ← get route; mret (Some r)
  end.

End random.
End GeneticRouteOptimizer.

(** * Properties *)

(** ** Running a computation *)

Lemma bind_Done {A B} (m : outcome A) (f : A → outcome B) (b : B) :
  m ≫= f = Done b → ∃ a, m = Done a ∧ f a = Done b.
Proof. destruct m; simpl; intros; [eauto | discriminate..]. Qed.

Lemma bind_Done_intro {A B} (m : outcome A) (f : A → outcome B) (a : A) :
  m = Done a → m ≫= f = f a.
Proof. intros ->. reflexivity. Qed.

(** Break the successful run of a sequence of binds in hypothesis [H]. *)
Ltac run_inv H :=
  repeat match type of H with
  | (_ ≫= _) = Done _ =>
      let a := fresh "a" in let Ha := fresh "Ha" in
      apply bind_Done in H as (a & Ha & H)
  | Done _ = Done _ => injection H as H
  | Raised _ = Done _ => discriminate H
  | NoFuel = Done _ => discriminate H
  end.

Lemma getitem_Some {A} (l : list A) (i : Z) (a : A) :
  0 ≤ i → l !! Z.to_nat i = Some a → Py.getitem l i = Done a.
Proof.
  intros Hi Hl. unfold Py.getitem. cbv zeta.
  apply lookup_lt_Some in Hl as Hlt.
  rewrite (bool_decide_false (i < 0)) by lia. rewrite bool_decide_true by lia.
  by rewrite Hl.
Qed.

Lemma getitem_Done {A} (l : list A) (i : Z) (a : A) :
  0 ≤ i → Py.getitem l i = Done a → l !! Z.to_nat i = Some a.
Proof.
  intros Hi. unfold Py.getitem. cbv zeta. rewrite (bool_decide_false (i < 0)) by lia.
  case_bool_decide; [|done]. destruct (l !! Z.to_nat i); intros; by simplify_eq.
Qed.

(** ** The grid *)

Section grid_facts.
Import NavigationGrid.

Lemma new_wf w h cs : wf (new w h cs).
Proof.
  split; simpl.
  - rewrite length_fmap. unfold Py.range. rewrite length_seqZ. f_equal. lia.
  - intros i col Hcol. rewrite list_lookup_fmap in Hcol.
    destruct (Py.range 0 w !! i) as [x|] eqn:Hx; [|done]. simplify_eq/=.
    unfold Py.range in Hx. apply lookup_seqZ in Hx as [-> Hi].
    split.
    + rewrite length_fmap. unfold Py.range. rewrite length_seqZ. f_equal. lia.
    + intros j c Hc. rewrite list_lookup_fmap in Hc.
      destruct (Py.range 0 h !! j) as [y|] eqn:Hy; [|done]. simplify_eq/=.
      unfold Py.range in Hy. apply lookup_seqZ in Hy as [-> Hj].
      unfold Cell.key. simpl. f_equal; lia.
Qed.

Lemma get_cell_wf g x y : wf g → get_cell g x y = Done (at_ g x y).
Proof.
  intros [Hlen Hcols]. unfold get_cell, at_.
  case_bool_decide as Hin; [|done].
  destruct (lookup_lt_is_Some_2 (grid g) (Z.to_nat x)) as [col Hcol]; [lia|].
  destruct (Hcols _ _ Hcol) as [Hclen _].
  destruct (lookup_lt_is_Some_2 col (Z.to_nat y)) as [c Hc]; [lia|].
  rewrite (getitem_Some _ _ _ (proj1 (proj1 Hin)) Hcol). simpl.
  rewrite (getitem_Some _ _ _ (proj1 (proj2 Hin)) Hc). simpl.
  by rewrite Hcol; simpl; rewrite Hc.
Qed.

Lemma at_key g x y c : wf g → at_ g x y = Some c → Cell.key c = (x, y).
Proof.
  intros [_ Hcols]. unfold at_. case_bool_decide as Hin; [|done].
  destruct (grid g !! Z.to_nat x) as [col|] eqn:Hcol; [|done]. simpl. intros Hc.
  destruct (Hcols _ _ Hcol) as [_ Hk]. rewrite (Hk _ _ Hc). f_equal; lia.
Qed.

Lemma at_in_range g x y c :
  at_ g x y = Some c → 0 ≤ x < width g ∧ 0 ≤ y < height g.
Proof. unfold at_. case_bool_decide; naive_solver. Qed.

Lemma store_wf g x y c :
  wf g → Cell.key c = (x, y) → is_Some (at_ g x y) → wf (store g x y c).
Proof.
  intros [Hlen Hcols] Hk [c0 Hc0]. apply at_in_range in Hc0 as Hin.
  split; simpl.
  - by rewrite length_alter.
  - intros i col Hcol.
    destruct (decide (i = Z.to_nat x)) as [->|Hne].
    + rewrite list_lookup_alter_eq in Hcol.
      destruct (grid g !! Z.to_nat x) as [col0|] eqn:Hcol0; [|done]. simplify_eq/=.
      destruct (Hcols _ _ Hcol0) as [Hl Hk0]. split; [by rewrite length_insert|].
      intros j c' Hc'. destruct (decide (j = Z.to_nat y)) as [->|Hnj].
      * rewrite list_lookup_insert_eq in Hc' by lia. simplify_eq. rewrite Hk. f_equal; lia.
      * rewrite list_lookup_insert_ne in Hc' by done. eauto.
    + rewrite list_lookup_alter_ne in Hcol by done. eauto.
Qed.

Lemma at_store g x y c i j :
  wf g → 0 ≤ x → 0 ≤ y →
  at_ (store g x y c) i j =
    if bool_decide (i = x ∧ j = y) then (λ _, c) <$> at_ g i j else at_ g i j.
Proof.
  intros [Hlen Hcols] Hx Hy. unfold at_. simpl.
  case_bool_decide as Hin; [|by case_bool_decide].
  destruct (lookup_lt_is_Some_2 (grid g) (Z.to_nat i)) as [col Hcol]; [lia|].
  destruct (Hcols _ _ Hcol) as [Hclen _].
  destruct (lookup_lt_is_Some_2 col (Z.to_nat j)) as [c0 Hc0]; [lia|].
  rewrite Hcol. simpl. rewrite Hc0.
  case_bool_decide as Heq.
  - destruct Heq as [-> ->]. rewrite list_lookup_alter_eq, Hcol. simpl.
    rewrite list_lookup_insert_eq by lia. done.
  - destruct (decide (Z.to_nat i = Z.to_nat x)) as [Hix|Hix].
    + rewrite Hix. rewrite list_lookup_alter_eq. rewrite <- Hix. rewrite Hcol. simpl.
      rewrite list_lookup_insert_ne; [done|]. intros Hjy. apply Heq. lia.
    + rewrite list_lookup_alter_ne by done. by rewrite Hcol.
Qed.

(** [g'] is [g] with the flag of the cells in [T] set to [b] and nothing else
    touched. *)
Definition marks (b : bool) (g g' : t) (T : Z → Z → bool) : Prop :=
  wf g' ∧ width g' = width g ∧ height g' = height g ∧ cell_size_km g' = cell_size_km g ∧
  ∀ i j, at_ g' i j = if T i j then Cell.with_is_land b <$> at_ g i j else at_ g i j.

Lemma marks_none b g : wf g → marks b g g (λ _ _, false).
Proof. intros. by unfold marks; split_and!. Qed.

Lemma marks_ext b g g' (T T' : Z → Z → bool) :
  (∀ i j, is_Some (at_ g i j) → T i j = T' i j) → marks b g g' T → marks b g g' T'.
Proof.
  intros HT (? & ? & ? & ? & Hat). unfold marks; split_and!; try done.
  intros i j. rewrite Hat. destruct (at_ g i j) eqn:E.
  - by rewrite HT.
  - by destruct (T i j), (T' i j).
Qed.

Lemma marks_trans b g g1 g2 (T1 T2 : Z → Z → bool) :
  marks b g g1 T1 → marks b g1 g2 T2 → marks b g g2 (λ i j, T1 i j || T2 i j).
Proof.
  intros (? & ? & ? & ? & Hat1) (? & ? & ? & ? & Hat2).
  unfold marks; split_and!; try congruence.
  intros i j. rewrite Hat2, Hat1.
  destruct (T1 i j), (T2 i j), (at_ g i j); done.
Qed.

Lemma set_land_marks g x y b :
  wf g → ∃ g', set_land g x y b = Done g' ∧ marks b g g' (λ i j, bool_decide (i = x ∧ j = y)).
Proof.
  intros Hwf. unfold set_land. rewrite get_cell_wf by done. simpl.
  destruct (at_ g x y) as [c|] eqn:Hc.
  - eexists; split; [done|]. apply at_in_range in Hc as Hin.
    unfold marks; split_and!; try done.
    + apply store_wf; [done| |by eauto]. by apply at_key in Hc.
    + intros i j. rewrite at_store by (done || lia).
      case_bool_decide as Heq; [|done]. destruct Heq as [-> ->]. by rewrite Hc.
  - eexists; split; [done|]. unfold marks; split_and!; try done.
    intros i j. case_bool_decide as Heq; [|done]. destruct Heq as [-> ->]. by rewrite Hc.
Qed.

Lemma for_marks {V} b (vs : list V) (body : t → V → outcome t) (P : V → Z → Z → bool) g :
  (∀ g1 v, v ∈ vs → wf g1 → width g1 = width g → height g1 = height g →
     ∃ g2, body g1 v = Done g2 ∧ marks b g1 g2 (P v)) →
  wf g →
  ∃ g', for_ vs body g = Done g' ∧ marks b g g' (λ i j, existsb (λ v, P v i j) vs).
Proof.
  revert g. induction vs as [|v vs IH]; intros g Hbody Hwf; simpl.
  - eexists; split; [done|]. by apply marks_none.
  - destruct (Hbody g v) as (g1 & -> & Hm1); [set_solver|done..|]. simpl.
    destruct Hm1 as (Hwf1 & Hw1 & Hh1 & Hc1 & Hat1).
    destruct (IH g1) as (g2 & -> & Hm2); [|done|].
    { intros g' v' Hv' ? ? ?. apply Hbody; [set_solver|done|congruence..]. }
    eexists; split; [done|].
    apply (marks_trans b g g1 g2 (P v) _); [by unfold marks; split_and!|done].
Qed.

Lemma existsb_range (P : Z → bool) a b :
  existsb P (Py.range a b) = true ↔ ∃ v, a ≤ v < b ∧ P v = true.
Proof.
  rewrite existsb_exists. unfold Py.range. split.
  - intros (v & Hv & HP). exists v. split; [|done].
    apply list_elem_of_In, elem_of_seqZ in Hv. lia.
  - intros (v & Hv & HP). exists v. split; [|done].
    apply list_elem_of_In, elem_of_seqZ. lia.
Qed.

Lemma set_land_region_marks g x_start y_start x_end y_end :
  wf g →
  ∃ g', set_land_region g x_start y_start x_end y_end = Done g' ∧
        marks true g g' (λ i j, bool_decide (x_start ≤ i ≤ x_end ∧ y_start ≤ j ≤ y_end)).
Proof.
  intros Hwf. unfold set_land_region.
  set (ys := Py.range (Z.max 0 y_start) (Z.min (height g) (y_end + 1))).
  destruct (for_marks true (Py.range (Z.max 0 x_start) (Z.min (width g) (x_end + 1)))
    (λ self x, for_ (Py.range (Z.max 0 y_start) (Z.min (height self) (y_end + 1)))
                 (λ self y, set_land self x y true) self)
    (λ x i j, existsb (λ y, bool_decide (i = x ∧ j = y)) ys) g) as (g' & Hg' & Hm); [|done|].
  { intros g1 x _ Hwf1 Hw1 Hh1. rewrite Hh1.
    apply (for_marks true ys _ (λ y i j, bool_decide (i = x ∧ j = y))); [|done].
    intros g2 y _ Hwf2 _ _. by apply set_land_marks. }
  exists g'. split; [exact Hg'|]. revert Hm. apply marks_ext.
  intros i j [c Hc]. apply at_in_range in Hc.
  apply eq_true_iff_eq. rewrite existsb_range, bool_decide_eq_true. split.
  - intros (x & Hx & (y & Hy & [-> ->]%bool_decide_eq_true)%existsb_range). lia.
  - intros Hin. exists i. split; [lia|]. apply existsb_range. exists j. split; [lia|].
    by apply bool_decide_eq_true.
Qed.

Lemma add_island_marks g center_x center_y radius :
  wf g →
  ∃ g', add_island g center_x center_y radius = Done g' ∧
        marks true g g' (λ i j,
          bool_decide (center_x - radius ≤ i ≤ center_x + radius ∧
                       center_y - radius ≤ j ≤ center_y + radius ∧
                       (i - center_x) ^ 2 + (j - center_y) ^ 2 ≤ radius ^ 2)).
Proof.
  intros Hwf. unfold add_island.
  set (ys := Py.range (Z.max 0 (center_y - radius)) (Z.min (height g) (center_y + radius + 1))).
  set (P := λ x y i j, bool_decide
    (i = x ∧ j = y ∧ (x - center_x) ^ 2 + (y - center_y) ^ 2 ≤ radius ^ 2)).
  destruct (for_marks true
    (Py.range (Z.max 0 (center_x - radius)) (Z.min (width g) (center_x + radius + 1)))
    (λ self x,
      for_ (Py.range (Z.max 0 (center_y - radius)) (Z.min (height self) (center_y + radius + 1)))
        (λ self y,
          if bool_decide ((x - center_x) ^ 2 + (y - center_y) ^ 2 ≤ radius ^ 2)
          then set_land self x y true
          else Done self) self)
    (λ x i j, existsb (λ y, P x y i j) ys) g) as (g' & Hg' & Hm); [|done|].
  { intros g1 x _ Hwf1 Hw1 Hh1. rewrite Hh1.
    apply (for_marks true ys _ (P x)); [|done].
    intros g2 y _ Hwf2 _ _. case_bool_decide as Hin.
    - destruct (set_land_marks g2 x y true Hwf2) as (g3 & -> & Hm3).
      eexists; split; [done|]. revert Hm3. apply marks_ext. intros i j _.
      apply eq_true_iff_eq. unfold P. rewrite !bool_decide_eq_true. tauto.
    - eexists; split; [done|]. eapply marks_ext; [|by apply marks_none].
      intros i j _. simpl. symmetry. apply bool_decide_eq_false. tauto. }
  exists g'. split; [exact Hg'|]. revert Hm. apply marks_ext.
  intros i j [c Hc]. apply at_in_range in Hc.
  apply eq_true_iff_eq. rewrite existsb_range, bool_decide_eq_true. split.
  - intros (x & Hx & (y & Hy & (-> & -> & ?)%bool_decide_eq_true)%existsb_range). lia.
  - intros Hin. exists i. split; [lia|]. apply existsb_range. exists j. split; [lia|].
    apply bool_decide_eq_true. tauto.
Qed.

(** C10: on a well-formed grid and for all integer arguments, [set_land],
    [set_land_region] and [add_island] return (they do not raise); the grid
    they leave has the same width, height and cell size; the cell at [(x, y)],
    the cells of the rectangle, the cells of the disc (inside its bounding
    square) have their [is_land] flag set and no other field changed, where
    the grid has such cells; every other cell is as it was. *)
Theorem terrain_shaping_frame g :
  wf g →
  (∀ x y b, ∃ g', set_land g x y b = Done g' ∧
     marks b g g' (λ i j, bool_decide (i = x ∧ j = y))) ∧
  (∀ x_start y_start x_end y_end, ∃ g',
     set_land_region g x_start y_start x_end y_end = Done g' ∧
     marks true g g' (λ i j, bool_decide (x_start ≤ i ≤ x_end ∧ y_start ≤ j ≤ y_end))) ∧
  (∀ center_x center_y radius, ∃ g',
     add_island g center_x center_y radius = Done g' ∧
     marks true g g' (λ i j,
       bool_decide (center_x - radius ≤ i ≤ center_x + radius ∧
                    center_y - radius ≤ j ≤ center_y + radius ∧
                    (i - center_x) ^ 2 + (j - center_y) ^ 2 ≤ radius ^ 2))).
Proof.
  intros Hwf. split; [|split].
  - intros. by apply set_land_marks.
  - intros. by apply set_land_region_marks.
  - intros. by apply add_island_marks.
Qed.

Lemma terrain_shaping_frame_witness :
  let g := new 20 20 10.0%float in
  (∀ x y b, ∃ g', set_land g x y b = Done g' ∧
     marks b g g' (λ i j, bool_decide (i = x ∧ j = y))) ∧
  (∀ x_start y_start x_end y_end, ∃ g',
     set_land_region g x_start y_start x_end y_end = Done g' ∧
     marks true g g' (λ i j, bool_decide (x_start ≤ i ≤ x_end ∧ y_start ≤ j ≤ y_end))) ∧
  (∀ center_x center_y radius, ∃ g',
     add_island g center_x center_y radius = Done g' ∧
     marks true g g' (λ i j,
       bool_decide (center_x - radius ≤ i ≤ center_x + radius ∧
                    center_y - radius ≤ j ≤ center_y + radius ∧
                    (i - center_x) ^ 2 + (j - center_y) ^ 2 ≤ radius ^ 2))).
Proof. apply (terrain_shaping_frame (new 20 20 10.0%float)). apply new_wf. Defined.

End grid_facts.

(** ** The weather cost *)

Lemma ltb_leb (a b : float) : PrimFloat.ltb a b = true → PrimFloat.leb a b = true.
Proof.
  rewrite ltb_spec, leb_spec. unfold SFltb, SFleb.
  by destruct (SFcompare (Prim2SF a) (Prim2SF b)) as [[]|].
Qed.

Lemma max_floor (a b : float) : PrimFloat.leb a a = true → PrimFloat.leb a (Py.max a b) = true.
Proof. intros Ha. unfold Py.max. destruct (PrimFloat.ltb a b) eqn:E; [by apply ltb_leb|done]. Qed.

(** A stand-in for the three library functions, to run the code on examples:
    every step heads east, with the wind and the current abeam. *)
Definition still_libm : Libm :=
  {| arctan2 := λ _ _, 0%float; cos := λ _, 0%float; fmod := λ a _, a |}.

(** C5, as the code has it: on a cell that is not land every value the query
    returns is at least 0.1, whatever the heading and the weather maps hold;
    on a land cell the query returns 0.0. *)
Theorem weather_cost_floor `{Libm} (w : WeatherSystem.t) (cell : Cell.t) (heading v : float) :
  WeatherSystem.calculate_weather_cost w cell heading = Done v →
  if Cell.is_land cell then v = 0%float else PrimFloat.leb 0.1 v = true.
Proof.
  unfold WeatherSystem.calculate_weather_cost. destruct (Cell.is_land cell).
  - by intros [= <-].
  - intros Hrun. run_inv Hrun. subst v. by apply max_floor.
Qed.

Lemma weather_cost_floor_witness :
  let w := WeatherSystem.new (NavigationGrid.new 10 10 10.0) in
  WeatherSystem.calculate_weather_cost (H := still_libm) w (Cell.new 3 4) 0 = Done 1.0%float ∧
  PrimFloat.leb 0.1 1.0 = true.
Proof.
  assert (WeatherSystem.calculate_weather_cost (H := still_libm)
            (WeatherSystem.new (NavigationGrid.new 10 10 10.0)) (Cell.new 3 4) 0
          = Done 1.0%float) as Hrun by (vm_compute; reflexivity).
  split; [exact Hrun|].
  exact (weather_cost_floor (H := still_libm) _ _ _ _ Hrun).
Defined.

(** C5 as stated fails: the query answers 0.0, below the floor, on a land
    cell. *)
Lemma weather_cost_land_below_floor :
  ∃ (w : WeatherSystem.t) (cell : Cell.t) (heading v : float),
    WeatherSystem.calculate_weather_cost (H := still_libm) w cell heading = Done v ∧
    PrimFloat.leb 0.1 v = false.
Proof.
  exists (WeatherSystem.new (NavigationGrid.new 10 10 10.0)),
         (Cell.with_is_land true (Cell.new 3 4)), 0%float, 0%float.
  split; reflexivity.
Qed.

(** ** The scenarios *)

Section scenarios.
Context {libm : Libm}.

(** C4, as the code has it: on the 10 by 10 grid without land and with cells
    of 10 km, [a_star] from (0,0) to (3,4) returns the path
    (0,0) (1,1) (2,2) (2,3) (3,4): three diagonal steps and one straight step,
    52.43 km within 0.1 km.  The 50 km of the straight line from (0,0) to
    (3,4) is what [get_distance] answers for the two cells. *)
Theorem a_star_3_4_distance (t0 t1 : float) :
  let grid := NavigationGrid.new 10 10 10.0 in
  ∃ r, ShipRouter.a_star 100 (ShipRouter.new grid None) (Cell.new 0 0) (Cell.new 3 4) t0 t1
       = Done r ∧
    Cell.key <$> RouteResult.path r = [(0, 0); (1, 1); (2, 2); (2, 3); (3, 4)] ∧
    PrimFloat.ltb (abs (RouteResult.distance_km r - 52.43)) 0.1 = true ∧
    NavigationGrid.get_distance grid (Cell.new 0 0) (Cell.new 3 4) = 50%float.
Proof. eexists. split; [vm_compute; reflexivity|]. by vm_compute. Qed.

End scenarios.

(** C4 as stated fails: the distance of the path [a_star] returns is more
    than 0.1 km away from 50 km. *)
Lemma a_star_3_4_not_50 :
  ∃ r, ShipRouter.a_star (libm := still_libm) 100
         (ShipRouter.new (NavigationGrid.new 10 10 10.0) None)
         (Cell.new 0 0) (Cell.new 3 4) 0 0 = Done r ∧
       PrimFloat.ltb (abs (RouteResult.distance_km r - 50)) 0.1 = false.
Proof. eexists. split; [vm_compute; reflexivity|]. by vm_compute. Qed.

(** ** Start and goal on the same cell *)

Section same_cell.
Context {libm : Libm}.
Import ShipRouter.

Lemma search_loop_same_cell tentative priority fuel grid (c : Cell.t) :
  search_loop tentative priority (S fuel) grid c (start_frontier c)
  = Done (Frontier [] {[ Cell.key c := None ]} {[ Cell.key c := 0%float ]} 1 0).
Proof.
  simpl. unfold Cell.eqb. by rewrite bool_decide_true.
Qed.

Lemma follow_None fuel came_from path : follow fuel came_from None path = Done path.
Proof. by destruct fuel. Qed.

Lemma finish_same_cell fuel grid weather (c : Cell.t) t0 t1 algorithm score counter :
  finish (S fuel) (mk grid weather 20.0) c c t0 t1 algorithm
         (Frontier [] {[ Cell.key c := None ]} score 1 counter)
  = Done (RouteResult.mk [c] 0 0 0 0 1 ((t1 - t0) * 1000) algorithm).
Proof.
  unfold finish, _reconstruct_path. simpl.
  rewrite lookup_singleton_eq. simpl. unfold Py.lookup_key.
  rewrite lookup_singleton_eq. simpl. rewrite follow_None. simpl.
  destruct weather; reflexivity.
Qed.

(** C8: with [start = goal = c], [dijkstra], [a_star], [weather_aware_astar]
    and [fuel_optimized] return the path [[c]] with zero distance, cost, fuel
    and time, on every grid and with or without weather.  The bidirectional
    search does not: on the 10 by 10 grid without land, from (5,5) to (5,5),
    the second push on the forward open list compares two entries of equal
    score and raises [TypeError]. *)
Theorem same_cell_route (grid : NavigationGrid.t) (weather : option WeatherSystem.t)
  (c : Cell.t) (fuel : nat) (t0 t1 : float) :
  let self := new grid weather in
  let single algorithm :=
    Done (RouteResult.mk [c] 0 0 0 0 1 ((t1 - t0) * 1000) algorithm) in
  dijkstra (S fuel) self c c t0 t1 = single "Dijkstra" ∧
  a_star (S fuel) self c c t0 t1 = single "A*" ∧
  weather_aware_astar (S fuel) self c c t0 t1
    = single (if weather is Some _ then "Weather-Aware A*" else "A*") ∧
  fuel_optimized (S fuel) self c c t0 t1
    = single (if weather is Some _ then "Fuel-Optimized" else "A*") ∧
  BidirectionalAStar.search (S fuel)
    (BidirectionalAStar.mk (NavigationGrid.new 10 10 10.0) None)
    (Cell.new 5 5) (Cell.new 5 5) t0 t1 = Raised TypeError.
Proof.
  intros self single. subst self. unfold new.
  assert (a_star (S fuel) (mk grid weather 20.0) c c t0 t1 = single "A*") as Ha.
  { unfold a_star. rewrite search_loop_same_cell. apply finish_same_cell. }
  split_and!.
  - unfold dijkstra. rewrite search_loop_same_cell. apply finish_same_cell.
  - exact Ha.
  - unfold weather_aware_astar. cbn [ShipRouter.weather]. destruct weather as [w|]; [|exact Ha].
    rewrite search_loop_same_cell. apply finish_same_cell.
  - unfold fuel_optimized. cbn [ShipRouter.weather]. destruct weather as [w|]; [|exact Ha].
    rewrite search_loop_same_cell. apply finish_same_cell.
  - by vm_compute.
Qed.

End same_cell.

(** ** The heap: what a push and a pop keep *)

Section heap_facts.
Context {A : Type} (lt : A → A → outcome bool).
Import heapq.
#[local] Arguments Nat.div : simpl never.
#[local] Arguments Nat.mul : simpl never.

Lemma item_Done (heap : list A) pos a : item heap pos = Done a ↔ heap !! pos = Some a.
Proof. unfold item. destruct (heap !! pos); naive_solver. Qed.

Lemma item_lt (heap : list A) pos : (pos < length heap)%nat → ∃ a, item heap pos = Done a.
Proof. intros [a Ha]%lookup_lt_is_Some_2. exists a. by apply item_Done. Qed.

(** Moving the hole: the list with [newitem] put back in the hole is the same
    bag of items before and after a step. *)
Lemma hole_moves (heap : list A) (pos pos' : nat) (moved newitem : A) :
  (pos < length heap)%nat → pos ≠ pos' → heap !! pos' = Some moved →
  <[pos' := newitem]> (<[pos := moved]> heap) ≡ₚ <[pos := newitem]> heap.
Proof.
  intros Hpos Hne Hmoved.
  rewrite <- (list_insert_insert_eq heap pos moved newitem).
  apply Permutation_insert_swap.
  - by rewrite list_lookup_insert_eq.
  - by rewrite list_lookup_insert_ne.
Qed.

Lemma siftdown_loop_perm n heap startpos pos newitem heap' pos' :
  _siftdown_loop lt n heap startpos pos newitem = Done (heap', pos') →
  (pos < length heap)%nat →
  length heap' = length heap ∧ (pos' < length heap)%nat ∧
  <[pos' := newitem]> heap' ≡ₚ <[pos := newitem]> heap.
Proof.
  revert heap pos. induction n as [|n IH]; intros heap pos Hrun Hpos; simpl in Hrun.
  { by simplify_eq. }
  case_bool_decide as Hgt; [|by simplify_eq].
  apply bind_Done in Hrun as (parent & Hparent%item_Done & Hrun).
  apply bind_Done in Hrun as ([] & _ & Hrun); [|by simplify_eq].
  assert ((pos - 1) / 2 < pos)%nat as Hlt by (apply Nat.Div0.div_lt_upper_bound; lia).
  apply IH in Hrun as (Hlen & Hpos' & Hperm); [|rewrite length_insert; lia].
  rewrite length_insert in Hlen, Hpos'. split_and!; [done..|].
  rewrite Hperm. apply hole_moves; [done|lia|done].
Qed.

Lemma siftdown_perm heap startpos pos heap' :
  _siftdown lt heap startpos pos = Done heap' → heap' ≡ₚ heap.
Proof.
  unfold _siftdown. intros Hrun.
  apply bind_Done in Hrun as (newitem & Hnew%item_Done & Hrun).
  apply bind_Done in Hrun as ([heap1 pos1] & Hloop & Hrun). simplify_eq.
  apply siftdown_loop_perm in Hloop as (_ & _ & ->); [|by eapply lookup_lt_Some].
  by rewrite list_insert_id.
Qed.

Lemma siftup_loop_perm n heap endpos pos newitem heap' pos' :
  _siftup_loop lt n heap endpos pos = Done (heap', pos') →
  endpos = length heap → (pos < length heap)%nat →
  length heap' = length heap ∧ (pos' < length heap)%nat ∧
  <[pos' := newitem]> heap' ≡ₚ <[pos := newitem]> heap.
Proof.
  revert heap pos. induction n as [|n IH]; intros heap pos Hrun -> Hpos; simpl in Hrun.
  { by simplify_eq. }
  case_bool_decide as Hchild; [|by simplify_eq].
  apply bind_Done in Hrun as (childpos & Hchoice & Hrun).
  apply bind_Done in Hrun as (c & Hc%item_Done & Hrun).
  assert (childpos = 2 * pos + 1 ∨ childpos = 2 * pos + 1 + 1)%nat as Hcp.
  { case_bool_decide; [|by simplify_eq; left].
    apply bind_Done in Hchoice as (l & _ & Hchoice).
    apply bind_Done in Hchoice as (r & _ & Hchoice).
    apply bind_Done in Hchoice as ([] & _ & Hchoice); simplify_eq; auto. }
  apply IH in Hrun as (Hlen & Hpos' & Hperm);
    [|by rewrite length_insert|rewrite length_insert; by eapply lookup_lt_Some].
  rewrite length_insert in Hlen, Hpos'. split_and!; [done..|].
  rewrite Hperm. apply hole_moves; [done|lia|done].
Qed.

Lemma siftup_perm heap pos heap' :
  _siftup lt heap pos = Done heap' → heap' ≡ₚ heap.
Proof.
  unfold _siftup. intros Hrun.
  apply bind_Done in Hrun as (newitem & Hnew%item_Done & Hrun).
  apply bind_Done in Hrun as ([heap1 pos1] & Hloop & Hrun).
  apply siftdown_perm in Hrun as ->.
  apply (siftup_loop_perm _ _ _ _ newitem) in Hloop as (_ & _ & ->);
    [|done|by eapply lookup_lt_Some].
  by rewrite list_insert_id.
Qed.

Lemma heappush_perm heap x heap' :
  heappush lt heap x = Done heap' → heap' ≡ₚ x :: heap.
Proof.
  unfold heappush. intros ->%siftdown_perm. by rewrite Permutation_app_comm.
Qed.

Lemma pop_Done (l : list A) a l' : Py.pop l = Done (a, l') ↔ l = l' ++ [a].
Proof.
  unfold Py.pop. destruct l as [|b l] using rev_ind.
  - simpl. split; [done|]. intros Hnil. by destruct l'.
  - rewrite last_snoc, length_app. simpl.
    replace (length l + 1 - 1)%nat with (length l) by lia. rewrite take_app_length.
    split; [by intros [= -> ->]|]. by intros [-> ->]%app_inj_tail.
Qed.

Lemma heappop_perm heap a heap' :
  heappop lt heap = Done (a, heap') → heap ≡ₚ a :: heap'.
Proof.
  unfold heappop. intros Hrun.
  apply bind_Done in Hrun as ([lastelt init] & ->%pop_Done & Hrun).
  destruct init as [|returnitem rest]; [by simplify_eq|].
  apply bind_Done in Hrun as (h & Hup%siftup_perm & Hrun). simplify_eq.
  rewrite Hup. simpl. f_equiv. by rewrite Permutation_app_comm.
Qed.

(** With a comparison that answers on the items at hand, nothing raises. *)
Section total.
Variable P : A → Prop.
Hypothesis lt_total : ∀ a b, P a → P b → ∃ r, lt a b = Done r.

Lemma siftdown_loop_total n heap startpos pos newitem :
  Forall P heap → P newitem → (pos < length heap)%nat →
  ∃ r, _siftdown_loop lt n heap startpos pos newitem = Done r.
Proof.
  revert heap pos. induction n as [|n IH]; intros heap pos Hheap Hnew Hpos; simpl; [by eauto|].
  case_bool_decide as Hgt; [|by eauto].
  assert ((pos - 1) / 2 < pos)%nat as Hlt by (apply Nat.Div0.div_lt_upper_bound; lia).
  destruct (item_lt heap ((pos - 1) / 2)) as [parent Hparent]; [lia|].
  rewrite Hparent. simpl. apply item_Done in Hparent.
  assert (P parent) as HPp by (eapply Forall_lookup_1; eauto).
  destruct (lt_total newitem parent) as [[] ->]; [done..| |by eauto]. simpl.
  apply IH; [by apply Forall_insert|done|rewrite length_insert; lia].
Qed.

Lemma siftdown_total heap startpos pos :
  Forall P heap → (pos < length heap)%nat → ∃ heap', _siftdown lt heap startpos pos = Done heap'.
Proof.
  intros Hheap Hpos. unfold _siftdown.
  destruct (item_lt heap pos) as [newitem Hnew]; [done|]. rewrite Hnew. simpl.
  apply item_Done in Hnew.
  destruct (siftdown_loop_total pos heap startpos pos newitem) as [[h p] ->];
    [done|by eapply Forall_lookup_1|done|]. simpl. eauto.
Qed.

Lemma siftup_loop_total n heap endpos pos :
  Forall P heap → endpos = length heap →
  ∃ r, _siftup_loop lt n heap endpos pos = Done r.
Proof.
  revert heap pos. induction n as [|n IH]; intros heap pos Hheap ->; simpl; [by eauto|].
  case_bool_decide as Hchild; [|by eauto].
  assert (∃ childpos, (childpos < length heap)%nat ∧
    (if bool_decide (2 * pos + 1 + 1 < length heap)%nat
     then l ← item heap (2 * pos + 1); r ← item heap (2 * pos + 1 + 1); b ← lt l r;
          Done (if b : bool then 2 * pos + 1 else 2 * pos + 1 + 1)
     else Done (2 * pos + 1))%nat = Done childpos) as (childpos & Hcp & ->).
  { case_bool_decide as Hright; [|by eauto].
    destruct (item_lt heap (2 * pos + 1)) as [l Hl]; [lia|].
    destruct (item_lt heap (2 * pos + 1 + 1)) as [r Hr]; [lia|].
    rewrite Hl, Hr. simpl. apply item_Done in Hl, Hr.
    destruct (lt_total l r) as [[] ->]; [by eapply Forall_lookup_1..| |]; simpl; eauto. }
  simpl. destruct (item_lt heap childpos) as [c Hc]; [done|]. rewrite Hc. simpl.
  apply item_Done in Hc.
  apply IH; [|by rewrite length_insert].
  apply Forall_insert; [done|]. by eapply Forall_lookup_1.
Qed.

Lemma siftup_total heap pos :
  Forall P heap → (pos < length heap)%nat → ∃ heap', _siftup lt heap pos = Done heap'.
Proof.
  intros Hheap Hpos. unfold _siftup.
  destruct (item_lt heap pos) as [newitem Hnew]; [done|]. rewrite Hnew. simpl.
  apply item_Done in Hnew.
  destruct (siftup_loop_total (length heap) heap (length heap) pos) as [[h p] Hloop];
    [done..|]. rewrite Hloop. simpl.
  apply (siftup_loop_perm _ _ _ _ newitem) in Hloop as (Hlen & Hp & Hperm);
    [|done|by eapply lookup_lt_Some].
  apply siftdown_total; [|rewrite length_insert; lia].
  rewrite Hperm. by rewrite list_insert_id.
Qed.

Lemma heappush_total heap x :
  Forall P heap → P x → ∃ heap', heappush lt heap x = Done heap'.
Proof.
  intros Hheap Hx. unfold heappush. apply siftdown_total.
  - apply Forall_app. split; [done|]. by apply Forall_singleton.
  - rewrite length_app. simpl. lia.
Qed.

Lemma heappop_total heap :
  Forall P heap → heap ≠ [] → ∃ r, heappop lt heap = Done r.
Proof.
  intros Hheap Hne. unfold heappop.
  destruct heap as [|lastelt init _] using rev_ind; [done|].
  rewrite (proj2 (pop_Done (init ++ [lastelt]) lastelt init) eq_refl). simpl.
  destruct init as [|returnitem rest]; [by eauto|].
  destruct (siftup_total (lastelt :: rest) 0) as [h ->]; [|simpl; lia|simpl; eauto].
  apply Forall_app in Hheap as [Hinit Hlast].
  apply Forall_cons in Hinit as [_ Hrest]. apply Forall_cons. split; [|done].
  by eapply Forall_inv.
Qed.
End total.
End heap_facts.

(** ** The heap: the order a push and a pop keep *)

Section heap_order.
Context {A : Type} (lt : A → A → outcome bool).
Import heapq.
#[local] Arguments Nat.div : simpl never.
#[local] Arguments Nat.mul : simpl never.
Variable P : A → Prop.
Variable le : A → A → Prop.
Hypothesis le_trans : ∀ a b c, le a b → le b c → le a c.
Hypothesis lt_le : ∀ a b, P a → P b →
  lt a b = Done true ∧ le a b ∨ lt a b = Done false ∧ le b a.

(** [j] is one of the two positions below [i] in the tree the list lays out. *)
Definition child (i j : nat) : Prop := (j = 2 * i + 1 ∨ j = 2 * i + 2)%nat.

Lemma child_parent i j : child i j ↔ (0 < j)%nat ∧ i = ((j - 1) / 2)%nat.
Proof.
  unfold child. split.
  - intros [-> | ->]; (split; [lia|]).
    + replace (2 * i + 1 - 1)%nat with (i * 2)%nat by lia. by rewrite Nat.div_mul.
    + replace (2 * i + 2 - 1)%nat with (1 + i * 2)%nat by lia.
      by rewrite Nat.div_add.
  - intros [Hj ->]. pose proof (Nat.div_mod_eq (j - 1) 2) as Hd.
    pose proof (Nat.mod_upper_bound (j - 1) 2). lia.
Qed.

(** The heap invariant of [heapq]: no item is smaller than its parent. *)
Definition heap_ordered (h : list A) : Prop :=
  ∀ i j a b, child i j → h !! i = Some a → h !! j = Some b → le a b.

(** The invariant with the item at [pos] taken out: the pairs that do not
    involve [pos] are in order, and so are the items around [pos]. *)
Definition hole (h : list A) (pos : nat) : Prop :=
  (∀ i j a b, child i j → i ≠ pos → j ≠ pos → h !! i = Some a → h !! j = Some b → le a b) ∧
  (∀ i k a c, child i pos → child pos k → h !! i = Some a → h !! k = Some c → le a c).

Definition below (h : list A) (pos : nat) (x : A) : Prop :=
  ∀ k c, child pos k → h !! k = Some c → le x c.

Lemma hole_insert h pos x : hole h pos → hole (<[pos := x]> h) pos.
Proof.
  intros [Hpairs Hacross]. split.
  - intros i j a b Hc Hi Hj. rewrite !list_lookup_insert_ne by done. by apply Hpairs.
  - intros i k a c Hi Hk. unfold child in *.
    rewrite !list_lookup_insert_ne by lia. by apply Hacross.
Qed.

Lemma hole_filled h pos x :
  (pos < length h)%nat → hole h pos → below h pos x →
  (∀ i a, child i pos → h !! i = Some a → le a x) →
  heap_ordered (<[pos := x]> h).
Proof.
  intros Hpos [Hpairs _] Hbelow Habove i j a b Hc.
  destruct (decide (i = pos)) as [->|Hi], (decide (j = pos)) as [->|Hj].
  - unfold child in Hc. lia.
  - rewrite list_lookup_insert_eq, list_lookup_insert_ne by done.
    intros [= <-] Hb. by eapply Hbelow.
  - rewrite list_lookup_insert_eq, list_lookup_insert_ne by done.
    intros Ha [= <-]. by eapply Habove.
  - rewrite !list_lookup_insert_ne by done. by apply Hpairs.
Qed.

Lemma siftdown_loop_ordered n h pos newitem h' pos' :
  _siftdown_loop lt n h 0 pos newitem = Done (h', pos') →
  (pos ≤ n)%nat → (pos < length h)%nat → Forall P h → P newitem →
  hole h pos → below h pos newitem →
  heap_ordered (<[pos' := newitem]> h').
Proof.
  revert h pos. induction n as [|n IH]; intros h pos Hrun Hn Hpos HP Hnew Hhole Hbelow;
    simpl in Hrun.
  { simplify_eq. apply hole_filled; [done..|]. intros i a Hc. unfold child in Hc. lia. }
  case_bool_decide as Hgt; last first.
  { simplify_eq. apply hole_filled; [done..|]. intros i a Hc. unfold child in Hc. lia. }
  apply bind_Done in Hrun as (parent & Hparent%(item_Done lt) & Hrun).
  assert (child ((pos - 1) / 2) pos) as Hc by (by apply child_parent).
  assert (P parent) as HPp by (eapply Forall_lookup_1; eauto).
  destruct Hhole as [Hpairs Hacross].
  apply bind_Done in Hrun as (b & Hlt & Hrun).
  destruct (lt_le newitem parent Hnew HPp) as [[Hlt' Hle]|[Hlt' Hle]];
    rewrite Hlt' in Hlt; simplify_eq.
  - assert ((pos - 1) / 2 < pos)%nat as Hpp by (unfold child in Hc; lia).
    eapply IH; [done|lia|rewrite length_insert; lia|by apply Forall_insert|done| |].
    + split.
      * intros i j a b Hij Hi Hj.
        destruct (decide (i = pos)) as [->|Hip].
        { rewrite list_lookup_insert_eq by done.
          rewrite list_lookup_insert_ne by (unfold child in Hij; lia).
          intros [= <-] Hb. by eapply Hacross. }
        destruct (decide (j = pos)) as [->|Hjp].
        { apply child_parent in Hij as [_ ->]. done. }
        rewrite !list_lookup_insert_ne by done. by apply Hpairs.
      * intros i k a c Hi Hk.
        rewrite (list_lookup_insert_ne _ pos i) by (unfold child in Hi; lia).
        intros Ha.
        assert (le a parent) as Hap.
        { eapply (Hpairs i ((pos - 1) / 2)%nat); [done|unfold child in Hi; lia|lia|done..]. }
        destruct (decide (k = pos)) as [->|Hkp].
        { rewrite list_lookup_insert_eq by done. by intros [= <-]. }
        rewrite list_lookup_insert_ne by done. intros Hck.
        eapply le_trans; [exact Hap|]. eapply (Hpairs ((pos - 1) / 2)%nat k); [done|lia|done..].
    + intros k c Hk. destruct (decide (k = pos)) as [->|Hkp].
      { rewrite list_lookup_insert_eq by done. by intros [= <-]. }
      rewrite list_lookup_insert_ne by done. intros Hck.
      eapply le_trans; [exact Hle|]. eapply (Hpairs ((pos - 1) / 2)%nat k); [done|lia|done..].
  - apply hole_filled; [done|by split|done|].
    intros i a [_ ->]%child_parent Ha. by simplify_eq.
Qed.

Lemma siftup_loop_ordered n h endpos pos h' pos' :
  _siftup_loop lt n h endpos pos = Done (h', pos') →
  endpos = length h → (length h ≤ n + pos)%nat → (pos < length h)%nat →
  Forall P h → hole h pos →
  hole h' pos' ∧ (length h' ≤ 2 * pos' + 1)%nat ∧ length h' = length h ∧
  (pos' < length h)%nat ∧ Forall P h'.
Proof.
  revert h pos. induction n as [|n IH]; intros h pos Hrun -> Hn Hpos HP Hhole; [lia|].
  simpl in Hrun. case_bool_decide as Hchild; [|simplify_eq; split_and!; [done|lia|done..]].
  apply bind_Done in Hrun as (m & Hm & Hrun).
  apply bind_Done in Hrun as (c & Hc%(item_Done lt) & Hrun).
  assert (child pos m ∧ ∀ s x, child pos s → s ≠ m → h !! s = Some x → le c x) as [Hpm Hsib].
  { case_bool_decide as Hright.
    - apply bind_Done in Hm as (l & Hl%(item_Done lt) & Hm).
      apply bind_Done in Hm as (r & Hr%(item_Done lt) & Hm).
      apply bind_Done in Hm as (b & Hlt & Hm).
      destruct (lt_le l r) as [[Hlt' Hle]|[Hlt' Hle]];
        [by eapply Forall_lookup_1..| |]; rewrite Hlt' in Hlt; simplify_eq.
      + split; [by left|]. intros s x [->| ->] Hs Hx; [done|].
        replace (2 * pos + 2)%nat with (2 * pos + 1 + 1)%nat in Hx by lia. by simplify_eq.
      + split; [right; lia|]. intros s x [->| ->] Hs Hx; [by simplify_eq|lia].
    - simplify_eq. split; [by left|]. intros s x [->| ->] Hs Hx; [done|].
      apply lookup_lt_Some in Hx. lia. }
  assert (pos < m)%nat as Hlt by (unfold child in Hpm; lia).
  destruct Hhole as [Hpairs Hacross].
  apply IH in Hrun as (Hh & Hleaf & Hlen & Hp' & HP');
    [|by rewrite length_insert|rewrite length_insert; lia
     |rewrite length_insert; by eapply lookup_lt_Some
     |apply Forall_insert; [done|by eapply Forall_lookup_1]|].
  { rewrite length_insert in Hlen, Hp'. by split_and!. }
  split.
  - intros i j a b Hij Hi Hj.
    destruct (decide (i = pos)) as [->|Hip].
    { rewrite list_lookup_insert_eq by done.
      rewrite list_lookup_insert_ne by (unfold child in Hij; lia).
      intros [= <-] Hb. by eapply Hsib. }
    destruct (decide (j = pos)) as [->|Hjp].
    { rewrite list_lookup_insert_ne by done. rewrite list_lookup_insert_eq by done.
      intros Ha [= <-]. by eapply Hacross. }
    rewrite !list_lookup_insert_ne by done. by apply Hpairs.
  - intros i k a x Hi Hk.
    assert (i = pos) as -> by (apply child_parent in Hi, Hpm; lia).
    rewrite list_lookup_insert_eq by done.
    rewrite list_lookup_insert_ne by (unfold child in Hk; lia).
    intros [= <-] Hx. eapply (Hpairs m k); [done|lia|unfold child in Hk; lia|done..].
Qed.

Lemma siftdown_ordered h pos x h' :
  _siftdown lt (<[pos := x]> h) 0 pos = Done h' →
  (pos < length h)%nat → Forall P h → P x → hole h pos → below h pos x →
  heap_ordered h'.
Proof.
  unfold _siftdown. intros Hrun Hpos HP Hx Hhole Hbelow.
  apply bind_Done in Hrun as (newitem & Hnew%(item_Done lt) & Hrun).
  rewrite list_lookup_insert_eq in Hnew by done. simplify_eq.
  apply bind_Done in Hrun as ([h1 pos1] & Hloop & Hrun). simplify_eq.
  eapply siftdown_loop_ordered; [done|done|by rewrite length_insert|by apply Forall_insert
                                |done|by apply hole_insert|].
  intros k c Hk. rewrite list_lookup_insert_ne by (unfold child in Hk; lia). by apply Hbelow.
Qed.

Lemma siftup_ordered h h' :
  _siftup lt h 0 = Done h' → Forall P h → hole h 0 → heap_ordered h'.
Proof.
  unfold _siftup. intros Hrun HP Hhole.
  apply bind_Done in Hrun as (newitem & Hnew%(item_Done lt) & Hrun).
  apply bind_Done in Hrun as ([h1 pos1] & Hloop & Hrun).
  apply lookup_lt_Some in Hnew as Hpos.
  apply siftup_loop_ordered in Hloop as (Hh & Hleaf & Hlen & Hp1 & HP1); [|done|lia|done..].
  eapply siftdown_ordered; [done|lia|done|by eapply Forall_lookup_1|done|].
  intros k c Hk Hc. apply lookup_lt_Some in Hc. unfold child in Hk. lia.
Qed.

Lemma heappush_ordered h x h' :
  heappush lt h x = Done h' → Forall P h → P x → heap_ordered h → heap_ordered h'.
Proof.
  unfold heappush. intros Hrun HP Hx Hh.
  replace (h ++ [x]) with (<[length h := x]> (h ++ [x])) in Hrun; last first.
  { apply list_insert_id. by rewrite lookup_app_r, Nat.sub_diag. }
  eapply siftdown_ordered; [done|rewrite length_app; simpl; lia| |done| |].
  - apply Forall_app. split; [done|]. by apply Forall_singleton.
  - split.
    + intros i j a b Hij Hi Hj Ha Hb.
      apply lookup_lt_Some in Ha as Hla, Hb as Hlb. rewrite length_app in Hla, Hlb.
      simpl in Hla, Hlb. rewrite lookup_app_l in Ha, Hb by lia. by eapply Hh.
    + intros i k a c _ Hk _ Hc. apply lookup_lt_Some in Hc. rewrite length_app in Hc.
      simpl in Hc. unfold child in Hk. lia.
  - intros k c Hk Hc. apply lookup_lt_Some in Hc. rewrite length_app in Hc.
    simpl in Hc. unfold child in Hk. lia.
Qed.

(** The root of an ordered heap is a least item. *)
Lemma root_least h r :
  heap_ordered h → Forall P h → h !! 0%nat = Some r → ∀ b, b ∈ h → le r b.
Proof.
  intros Hh HP Hr b [j Hj]%list_elem_of_lookup.
  assert (le r r) as Hrr.
  { assert (P r) by (by eapply Forall_lookup_1). by destruct (lt_le r r) as [[_ ?]|[_ ?]]. }
  revert b Hj. induction (lt_wf j) as [j _ IH]. intros b Hj.
  destruct (decide (j = 0%nat)) as [->|Hne]; [by simplify_eq|].
  assert (child ((j - 1) / 2) j) as Hc by (apply child_parent; split; [lia|done]).
  assert ((j - 1) / 2 < j)%nat as Hlt by (unfold child in Hc; lia).
  destruct (lookup_lt_is_Some_2 h ((j - 1) / 2)) as [a Ha].
  { apply lookup_lt_Some in Hj. lia. }
  eapply le_trans; [by eapply IH|]. by eapply Hh.
Qed.

Lemma heappop_ordered h a h' :
  heappop lt h = Done (a, h') → Forall P h → heap_ordered h →
  heap_ordered h' ∧ ∀ b, b ∈ h' → le a b.
Proof.
  intros Hrun HP Hh. pose proof (heappop_perm _ _ _ _ Hrun) as Hperm.
  unfold heappop in Hrun.
  apply bind_Done in Hrun as ([lastelt init] & Hpop%(pop_Done) & Hrun). subst h.
  destruct init as [|returnitem rest]; simplify_eq.
  { split; [|by intros b ?%elem_of_nil]. intros i j a' b' _ Hi. done. }
  apply bind_Done in Hrun as (h1 & Hup & Hrun). simplify_eq.
  split.
  - apply siftup_ordered in Hup; [done| |].
    + apply Forall_app in HP as [[_ Hrest]%Forall_cons Hlast].
      apply Forall_cons. split; [|done]. by eapply Forall_inv.
    + split; [|intros i k a' c Hi; unfold child in Hi; lia].
      intros i j a' b' Hij Hi Hj Ha Hb.
      apply lookup_lt_Some in Ha as Hla, Hb as Hlb. simpl in Hla, Hlb.
      destruct i as [|i], j as [|j]; try done. simpl in Ha, Hb.
      eapply (Hh (S i) (S j)); [done|..]; simpl; by rewrite lookup_app_l by lia.
  - intros b Hb. eapply (root_least _ a Hh HP); [done|].
    rewrite Hperm. by right.
Qed.

End heap_order.


(** ** No land on a returned path *)

Definition water (c : Cell.t) : Prop := Cell.is_land c = false.

Lemma neighbors_from_water grid cell dirs ns :
  NavigationGrid.neighbors_from grid cell dirs = Done ns → Forall water ns.
Proof.
  revert ns. induction dirs as [|[dx dy] dirs IH]; intros ns Hrun; simpl in Hrun.
  { by simplify_eq. }
  apply bind_Done in Hrun as (neighbor & _ & Hrun).
  apply bind_Done in Hrun as (rest & Hrest%IH & Hrun).
  destruct neighbor as [n|]; [|by simplify_eq].
  destruct (Cell.is_land n) eqn:Hland; simplify_eq; [done|].
  by apply Forall_cons.
Qed.

Lemma get_neighbors_water grid cell diag ns :
  NavigationGrid.get_neighbors grid cell diag = Done ns → Forall water ns.
Proof. apply neighbors_from_water. Qed.

Lemma is_valid_path_water path :
  NavigationGrid.is_valid_path path = true ↔ Forall water path.
Proof.
  unfold NavigationGrid.is_valid_path, water. induction path as [|c path IH]; simpl.
  { split; [by constructor|done]. }
  rewrite Forall_cons, andb_true_iff, IH. by destruct (Cell.is_land c); intuition.
Qed.

(** The predecessors a dict holds are all water. *)
Definition water_values (came_from : gmap (Z * Z) (option Cell.t)) : Prop :=
  ∀ k p, came_from !! k = Some (Some p) → water p.

Lemma water_values_insert came_from k p :
  water_values came_from → water p → water_values (<[k := Some p]> came_from).
Proof.
  intros Hcf Hp k' p'. rewrite lookup_insert. case_decide; [|by apply Hcf].
  by intros [= <-].
Qed.

Lemma water_values_start k : water_values {[ k := None ]}.
Proof. intros k' p. rewrite lookup_singleton. by case_decide. Qed.

Lemma follow_water fuel came_from current path path' :
  ShipRouter.follow fuel came_from current path = Done path' →
  water_values came_from → (∀ c, current = Some c → water c) → Forall water path →
  Forall water path'.
Proof.
  revert current path. induction fuel as [|fuel IH]; intros current path Hrun Hcf Hcur Hpath.
  { destruct current; simpl in Hrun; by simplify_eq. }
  destruct current as [c|]; simpl in Hrun; [|by simplify_eq].
  apply bind_Done in Hrun as (next & Hnext & Hrun).
  apply IH in Hrun; [done..| |].
  - intros p ->. unfold Py.lookup_key in Hnext.
    destruct (came_from !! Cell.key c) eqn:E; simplify_eq. by eapply Hcf.
  - apply Forall_app. split; [done|]. apply Forall_singleton. by apply Hcur.
Qed.

Section skeleton_water.
Import ShipRouter.
Variable tentative : gmap (Z * Z) float → Cell.t → Cell.t → outcome float.
Variable priority : float → Cell.t → float.

Definition water_frontier (st : frontier) : Prop :=
  Forall (λ e : entry, water e.2) (pq st) ∧ water_values (came_from st).

Lemma relax_water current st n st' :
  relax tentative priority current st n = Done st' →
  water current → water n → water_frontier st → water_frontier st'.
Proof.
  unfold relax. intros Hrun Hcur Hn [Hpq Hcf].
  apply bind_Done in Hrun as (new_cost & _ & Hrun).
  destruct (match score st !! Cell.key n with None => true | Some old => _ end);
    [|by simplify_eq].
  apply bind_Done in Hrun as (pq' & Hpush%heappush_perm & Hrun). simplify_eq.
  split; simpl.
  - rewrite Hpush. by apply Forall_cons.
  - by apply water_values_insert.
Qed.

Lemma relax_all_water current st ns st' :
  relax_all tentative priority current st ns = Done st' →
  water current → Forall water ns → water_frontier st → water_frontier st'.
Proof.
  revert st. induction ns as [|n ns IH]; intros st Hrun Hcur Hns Hst; simpl in Hrun.
  { by simplify_eq. }
  apply Forall_cons in Hns as [Hn Hns].
  apply bind_Done in Hrun as (st1 & Hst1 & Hrun).
  eapply IH; [done..|]. by eapply relax_water.
Qed.

Lemma search_loop_water fuel grid goal st st' :
  search_loop tentative priority fuel grid goal st = Done st' →
  water_frontier st → water_frontier st'.
Proof.
  revert st. induction fuel as [|fuel IH]; intros st Hrun Hst; simpl in Hrun.
  { destruct (pq st); by simplify_eq. }
  destruct (pq st) as [|e0 pq0] eqn:Hpq; [by simplify_eq|]. rewrite <- Hpq in Hrun.
  apply bind_Done in Hrun as ([[[p n] current] pq'] & Hpop%heappop_perm & Hrun).
  destruct Hst as [Hst Hcf]. rewrite Hpop in Hst. apply Forall_cons in Hst as [Hcur Hpq'].
  destruct (Cell.eqb current goal); [by simplify_eq|].
  apply bind_Done in Hrun as (ns & Hns%get_neighbors_water & Hrun).
  apply bind_Done in Hrun as (st1 & Hst1 & Hrun).
  eapply IH; [done|]. eapply relax_all_water; [done..|]. by split.
Qed.

Lemma start_frontier_water start : water start → water_frontier (start_frontier start).
Proof.
  intros Hs. split; simpl; [by apply Forall_singleton|apply water_values_start].
Qed.
End skeleton_water.

Section routes_water.
Context {libm : Libm}.
Import ShipRouter.

Lemma reconstruct_path_water fuel came_from start goal path :
  _reconstruct_path fuel came_from start goal = Done path →
  water_values came_from → water goal → Forall water path.
Proof.
  unfold _reconstruct_path. intros Hrun Hcf Hgoal.
  destruct (came_from !! Cell.key goal); [|by simplify_eq].
  apply bind_Done in Hrun as (path0 & Hfollow & Hrun). simplify_eq.
  apply Forall_reverse. eapply follow_water; [done..| |done]. by intros c [= <-].
Qed.

Lemma create_result_path self path nodes ct algorithm r :
  _create_result self path nodes ct algorithm = Done r → RouteResult.path r = path.
Proof.
  unfold _create_result. destruct path; [by intros [= <-]|].
  intros Hrun. apply bind_Done in Hrun as (f & _ & Hrun). by simplify_eq.
Qed.

Lemma finish_water fuel self start goal t0 t1 algorithm st r :
  finish fuel self start goal t0 t1 algorithm st = Done r →
  water_values (came_from st) → water goal → Forall water (RouteResult.path r).
Proof.
  unfold finish. intros Hrun Hcf Hgoal.
  apply bind_Done in Hrun as (path & Hpath & ->%create_result_path).
  by eapply reconstruct_path_water.
Qed.

Lemma search_water tentative priority fuel self start goal t0 t1 algorithm r :
  search_loop tentative priority fuel (grid self) goal (start_frontier start)
    ≫= finish fuel self start goal t0 t1 algorithm = Done r →
  water start → water goal → Forall water (RouteResult.path r).
Proof.
  intros Hrun Hstart Hgoal.
  apply bind_Done in Hrun as (st & Hloop & Hfin).
  apply search_loop_water in Hloop as [_ Hcf]; [|by apply start_frontier_water].
  by eapply finish_water.
Qed.
End routes_water.

Section bidirectional_water.
Context {libm : Libm}.
Import BidirectionalAStar.

Definition water_side (s : side) : Prop :=
  Forall (λ e : entry, water e.2) (open s) ∧ water_values (came_from s).

Definition water_state (st : state) : Prop :=
  water_side (forward st) ∧ water_side (backward st) ∧
  ∀ m, meeting_point st = Some m → water m.

Lemma bi_relax_water self target current s n s' :
  relax self target current s n = Done s' →
  water current → water n → water_side s → water_side s'.
Proof.
  unfold relax. intros Hrun Hcur Hn [Hopen Hcf].
  destruct (_ || _); [by simplify_eq|].
  apply bind_Done in Hrun as (g & _ & Hrun).
  destruct (match g_score s !! Cell.key n with None => true | Some old => _ end);
    [|by simplify_eq].
  apply bind_Done in Hrun as (open' & Hpush%heappush_perm & Hrun). simplify_eq.
  split; simpl.
  - rewrite Hpush. by apply Forall_cons.
  - by apply water_values_insert.
Qed.

Lemma bi_relax_all_water self target current s ns s' :
  relax_all self target current s ns = Done s' →
  water current → Forall water ns → water_side s → water_side s'.
Proof.
  revert s. induction ns as [|n ns IH]; intros s Hrun Hcur Hns Hs; simpl in Hrun.
  { by simplify_eq. }
  apply Forall_cons in Hns as [Hn Hns].
  apply bind_Done in Hrun as (s1 & Hs1 & Hrun).
  eapply IH; [done..|]. by eapply bi_relax_water.
Qed.

Lemma expand_water self target mine other fwd bwd meeting best nodes
    stop mine' meeting' best' nodes' :
  expand self target mine other fwd bwd meeting best nodes
    = Done (stop, mine', meeting', best', nodes') →
  water_side mine → (∀ m, meeting = Some m → water m) →
  water_side mine' ∧ (∀ m, meeting' = Some m → water m).
Proof.
  unfold expand. intros Hrun [Hopen Hcf] Hmeet.
  apply bind_Done in Hrun as ([[p current] open'] & Hpop%heappop_perm & Hrun).
  rewrite Hpop in Hopen. apply Forall_cons in Hopen as [Hcur Hopen'].
  case_bool_decide.
  - apply bind_Done in Hrun as (gf & _ & Hrun).
    apply bind_Done in Hrun as (gb & _ & Hrun).
    destruct (PrimFloat.ltb _ _); simplify_eq; (split; [by split|]); [|done].
    by intros m [= <-].
  - case_bool_decide; [|by simplify_eq].
    apply bind_Done in Hrun as (ns & Hns%get_neighbors_water & Hrun).
    apply bind_Done in Hrun as (s1 & Hs1 & Hrun). simplify_eq.
    split; [|done]. eapply bi_relax_all_water; [done..|]. by split.
Qed.

Lemma bi_search_loop_water fuel self start goal st st' :
  search_loop fuel self start goal st = Done st' → water_state st → water_state st'.
Proof.
  revert st. induction fuel as [|fuel IH]; intros st Hrun (Hfw & Hbw & Hm); simpl in Hrun.
  { destruct (open (forward st)), (open (backward st)); by simplify_eq. }
  destruct (open (forward st)) as [|ef openf] eqn:Hopenf; [by simplify_eq|].
  destruct (open (backward st)) as [|eb openb] eqn:Hopenb; [by simplify_eq|].
  apply bind_Done in Hrun as ([[[[stop fw] meeting] best] nodes] & Hexp & Hrun).
  apply expand_water in Hexp as [Hfw' Hm']; [|done..].
  destruct stop; [by simplify_eq|].
  apply bind_Done in Hrun as ([[[[stop bw] meeting2] best2] nodes2] & Hexp2 & Hrun).
  apply expand_water in Hexp2 as [Hbw' Hm2]; [|done..].
  destruct stop; [by simplify_eq|].
  apply IH in Hrun; [done|]. by split_and!.
Qed.

Lemma bi_search_water fuel self start goal t0 t1 r :
  search fuel self start goal t0 t1 = Done (Some r) →
  water start → water goal → Forall water (BiDirectionalResult.path r).
Proof.
  unfold search. intros Hrun Hstart Hgoal.
  apply bind_Done in Hrun as (st & Hloop & Hrun).
  apply bi_search_loop_water in Hloop as ([_ Hcff] & [_ Hcfb] & Hm).
  2:{ split_and!; [split; simpl..|done];
        [by apply Forall_singleton|apply water_values_start
        |by apply Forall_singleton|apply water_values_start]. }
  destruct (meeting_point st) as [m|] eqn:Hmp; [|by simplify_eq].
  apply bind_Done in Hrun as (path1 & Hpath1 & Hrun).
  apply bind_Done in Hrun as (current & Hcurrent & Hrun).
  apply bind_Done in Hrun as (path2 & Hpath2 & Hrun).
  apply bind_Done in Hrun as (f & _ & Hrun). simplify_eq. simpl.
  eapply follow_water; [done..| |].
  - intros p ->. unfold Py.lookup_key in Hcurrent.
    destruct (came_from (backward st) !! Cell.key m) eqn:E; simplify_eq. by eapply Hcfb.
  - apply Forall_reverse. eapply follow_water; [done..| |done].
    intros c [= <-]. by apply Hm.
Qed.
End bidirectional_water.

(** C1: with a start and a goal that are not land, every path returned by
    [dijkstra], [a_star], [weather_aware_astar], [fuel_optimized] or the
    bidirectional search holds no land cell ([is_valid_path] accepts it), on
    every grid, with or without weather. *)
Theorem returned_paths_avoid_land `{Libm} (grid : NavigationGrid.t)
  (weather : option WeatherSystem.t) (speed : float) (start goal : Cell.t)
  (fuel : nat) (t0 t1 : float) :
  Cell.is_land start = false → Cell.is_land goal = false →
  let router := ShipRouter.mk grid weather speed in
  (∀ r, ShipRouter.dijkstra fuel router start goal t0 t1 = Done r →
        NavigationGrid.is_valid_path (RouteResult.path r) = true) ∧
  (∀ r, ShipRouter.a_star fuel router start goal t0 t1 = Done r →
        NavigationGrid.is_valid_path (RouteResult.path r) = true) ∧
  (∀ r, ShipRouter.weather_aware_astar fuel router start goal t0 t1 = Done r →
        NavigationGrid.is_valid_path (RouteResult.path r) = true) ∧
  (∀ r, ShipRouter.fuel_optimized fuel router start goal t0 t1 = Done r →
        NavigationGrid.is_valid_path (RouteResult.path r) = true) ∧
  (∀ r, BidirectionalAStar.search fuel (BidirectionalAStar.mk grid weather) start goal t0 t1
          = Done (Some r) →
        NavigationGrid.is_valid_path (BiDirectionalResult.path r) = true).
Proof.
  intros Hstart Hgoal router.
  assert (∀ r, ShipRouter.a_star fuel router start goal t0 t1 = Done r →
            NavigationGrid.is_valid_path (RouteResult.path r) = true) as Ha.
  { intros r Hrun. apply is_valid_path_water. by eapply search_water. }
  split_and!.
  - intros r Hrun. apply is_valid_path_water. by eapply search_water.
  - exact Ha.
  - intros r Hrun. unfold ShipRouter.weather_aware_astar in Hrun.
    destruct (ShipRouter.weather router); [|by apply Ha].
    apply is_valid_path_water. by eapply search_water.
  - intros r Hrun. unfold ShipRouter.fuel_optimized in Hrun.
    destruct (ShipRouter.weather router); [|by apply Ha].
    apply is_valid_path_water. by eapply search_water.
  - intros r Hrun. apply is_valid_path_water. by eapply bi_search_water.
Qed.

(** ** Floats in order: a rank that [<] respects

    The searches stop because a running score only ever goes down, and a
    binary64 float can go down only so many times. *)

Definition rank_bound : Z := 2048 * 9007199254740992.

Definition rank_sf (f : spec_float) : Z :=
  match f with
  | S754_nan | S754_zero _ => 0
  | S754_infinity s => if s then - rank_bound else rank_bound
  | S754_finite s m e =>
      let r := (e + 1075) * 9007199254740992 + Z.pos m in
      if s then - r else r
  end.

Definition rank (x : float) : Z := rank_sf (Prim2SF x).

Lemma digits2_pos_bound m : Z.pos m < 2 ^ Z.pos (digits2_pos m).
Proof.
  induction m as [m IH|m IH|]; simpl digits2_pos; [| |done].
  - rewrite Pos2Z.inj_succ, Z.pow_succ_r by lia. lia.
  - rewrite Pos2Z.inj_succ, Z.pow_succ_r by lia. lia.
Qed.

Lemma bounded_range m e :
  bounded prec emax m e = true → -1074 ≤ e ≤ 971 ∧ Z.pos m < 9007199254740992.
Proof.
  unfold bounded, canonical_mantissa, fexp, emin, prec, emax.
  intros [Hcan Hle%Z.leb_le]%andb_true_iff. apply Z.eqb_eq in Hcan.
  split; [lia|].
  pose proof (digits2_pos_bound m) as Hm.
  assert (Z.pos (digits2_pos m) ≤ 53) as Hd by lia.
  eapply Z.lt_le_trans; [exact Hm|].
  change 9007199254740992 with (2 ^ 53). apply Z.pow_le_mono_r; lia.
Qed.

Lemma rank_sf_range f : valid_binary f = true → - rank_bound ≤ rank_sf f ≤ rank_bound.
Proof.
  destruct f as [s| s | | s m e]; simpl; unfold rank_bound; intros Hv;
    [lia|destruct s; lia|lia|].
  apply bounded_range in Hv as [He Hm]. destruct s; lia.
Qed.

Lemma rank_sf_lt f1 f2 :
  valid_binary f1 = true → valid_binary f2 = true →
  SFltb f1 f2 = true → rank_sf f1 < rank_sf f2.
Proof.
  unfold SFltb. intros H1 H2.
  destruct f1 as [s1| s1 | | s1 m1 e1], f2 as [s2| s2 | | s2 m2 e2]; simpl in *;
    repeat match goal with
    | H : bounded _ _ _ _ = true |- _ => apply bounded_range in H as [? ?]
    end;
    try rewrite Pos.compare_cont_spec; simpl;
    repeat match goal with s : bool |- _ => destruct s end;
    try discriminate; unfold rank_bound; try lia.
  - destruct (Z.compare_spec e1 e2); try discriminate; try lia.
    destruct (Pos.compare_spec m1 m2); simpl; try discriminate; lia.
  - destruct (Z.compare_spec e1 e2); try discriminate; try lia.
    destruct (Pos.compare_spec m1 m2); simpl; try discriminate; lia.
Qed.

Lemma rank_range x : - rank_bound ≤ rank x ≤ rank_bound.
Proof. apply rank_sf_range, Prim2SF_valid. Qed.

Lemma rank_lt a b : PrimFloat.ltb a b = true → rank a < rank b.
Proof. rewrite ltb_spec. apply rank_sf_lt; apply Prim2SF_valid. Qed.

(** ** Costs that are numbers: floats at or above zero *)

(** [0 <= x]: [x] is a zero, a positive number or [inf], and not NaN. *)
Definition nonneg (x : float) : Prop := PrimFloat.leb 0 x = true.

Definition sf_nonneg (f : spec_float) : Prop :=
  match f with
  | S754_zero _ | S754_infinity false | S754_finite false _ _ => True
  | _ => False
  end.

Lemma nonneg_sf x : nonneg x ↔ sf_nonneg (Prim2SF x).
Proof.
  unfold nonneg. rewrite FloatAxioms.leb_spec. change (Prim2SF 0) with (S754_zero false).
  destruct (Prim2SF x) as [[]|[]| |[] m e]; simpl; unfold SFleb; simpl; naive_solver.
Qed.

Lemma shr_1_nonneg mrs : 0 ≤ shr_m mrs → 0 ≤ shr_m (shr_1 mrs).
Proof. destruct mrs as [[|[p|p|]|p] r s]; simpl; lia. Qed.

Lemma iter_shr_1_nonneg (p : positive) (mrs : shr_record) : 0 ≤ shr_m mrs → 0 ≤ shr_m (SpecFloat.iter_pos shr_1 p mrs).
Proof.
  revert mrs. induction p as [p IH|p IH|]; intros mrs Hm; simpl; auto using shr_1_nonneg.
Qed.

Lemma shr_fexp_nonneg m e l : 0 ≤ m → 0 ≤ shr_m (shr_fexp prec emax m e l).1.
Proof.
  intros Hm. unfold shr_fexp, shr.
  assert (0 ≤ shr_m (shr_record_of_loc m l)) as Hrec by (by destruct l as [|[]]).
  destruct (_ - e); simpl; [done| |done]. by apply iter_shr_1_nonneg.
Qed.

Lemma round_nearest_even_nonneg m l : 0 ≤ m → 0 ≤ round_nearest_even m l.
Proof. intros Hm. destruct l as [|[]]; simpl; [done| |done|lia]. destruct (Z.even m); lia. Qed.

Lemma binary_round_aux_nonneg m e l : 0 ≤ m → sf_nonneg (binary_round_aux prec emax false m e l).
Proof.
  intros Hm. unfold binary_round_aux.
  pose proof (shr_fexp_nonneg m e l Hm) as H1.
  destruct (shr_fexp prec emax m e l) as [mrs' e']. simpl in H1.
  pose proof (shr_fexp_nonneg _ e' loc_Exact
                (round_nearest_even_nonneg _ (loc_of_shr_record mrs') H1)) as H2.
  destruct (shr_fexp prec emax _ e' loc_Exact) as [mrs'' e'']. simpl in H2.
  destruct (shr_m mrs''); [done| |lia]. by destruct (_ <=? _).
Qed.

Lemma SFadd_nonneg f1 f2 : sf_nonneg f1 → sf_nonneg f2 → sf_nonneg (SF64add f1 f2).
Proof.
  destruct f1 as [s1|[]| |[] m1 e1], f2 as [s2|[]| |[] m2 e2]; simpl; try done.
  - by destruct s1, s2.
  - intros _ _. unfold binary_round. destruct (shl_align _ _ _) as [mz ez].
    by apply binary_round_aux_nonneg.
Qed.

Lemma add_nonneg a b : nonneg a → nonneg b → nonneg (a + b).
Proof.
  intros Ha%nonneg_sf Hb%nonneg_sf. apply nonneg_sf. rewrite FloatAxioms.add_spec. by apply SFadd_nonneg.
Qed.

(** On such floats the rank tells the order. *)
Lemma rank_sf_order f1 f2 :
  valid_binary f1 = true → valid_binary f2 = true → sf_nonneg f1 → sf_nonneg f2 →
  SFltb f1 f2 = bool_decide (rank_sf f1 < rank_sf f2) ∧
  SFeqb f1 f2 = bool_decide (rank_sf f1 = rank_sf f2).
Proof.
  unfold SFltb, SFeqb. intros H1 H2.
  destruct f1 as [s1|[]| |[] m1 e1], f2 as [s2|[]| |[] m2 e2]; simpl in *; try done;
    repeat match goal with
    | H : bounded _ _ _ _ = true |- _ => apply bounded_range in H as [? ?]
    end;
    intros _ _; try rewrite Pos.compare_cont_spec; simpl; unfold rank_bound.
  all: try (split; symmetry; (apply bool_decide_eq_true_2 || apply bool_decide_eq_false_2); lia).
  destruct (Z.compare_spec e1 e2);
    [destruct (Pos.compare_spec m1 m2)|..]; simpl;
    split; symmetry; (apply bool_decide_eq_true_2 || apply bool_decide_eq_false_2); nia.
Qed.

Lemma ltb_rank a b : nonneg a → nonneg b → PrimFloat.ltb a b = bool_decide (rank a < rank b).
Proof.
  intros Ha%nonneg_sf Hb%nonneg_sf. rewrite FloatAxioms.ltb_spec.
  by apply rank_sf_order; [apply Prim2SF_valid..| |].
Qed.

Lemma eqb_rank a b : nonneg a → nonneg b → PrimFloat.eqb a b = bool_decide (rank a = rank b).
Proof.
  intros Ha%nonneg_sf Hb%nonneg_sf. rewrite FloatAxioms.eqb_spec.
  by apply rank_sf_order; [apply Prim2SF_valid..| |].
Qed.

(** ** Reachability on the grid *)

Section reach.
Variable grid : NavigationGrid.t.
Hypothesis grid_wf : NavigationGrid.wf grid.

(** [b] is one of the cells [get_neighbors] answers for [a]. *)
Definition step (a b : Cell.t) : Prop :=
  ∃ ns, NavigationGrid.get_neighbors grid a true = Done ns ∧ b ∈ ns.

(** A chain of such steps leads from [start] to the coordinates of [goal]. *)
Definition connected (start goal : Cell.t) : Prop :=
  ∃ c, rtc step start c ∧ Cell.key c = Cell.key goal.

(** A water cell of the grid, stored at its own coordinates. *)
Definition sea (c : Cell.t) : Prop :=
  NavigationGrid.at_ grid (Cell.x c) (Cell.y c) = Some c ∧ water c.

Lemma neighbors_from_wf cell dirs :
  ∃ ns, NavigationGrid.neighbors_from grid cell dirs = Done ns ∧
    ∀ n, n ∈ ns ↔ ∃ d, d ∈ dirs ∧
      NavigationGrid.at_ grid (Cell.x cell + d.1) (Cell.y cell + d.2) = Some n ∧ water n.
Proof.
  induction dirs as [|[dx dy] dirs (ns & Hns & Hin)]; simpl.
  { eexists; split; [done|]. intros n. split; [by intros ?%elem_of_nil|].
    by intros (? & ?%elem_of_nil & _). }
  rewrite get_cell_wf by done. simpl. rewrite Hns. simpl.
  destruct (NavigationGrid.at_ grid (Cell.x cell + dx) (Cell.y cell + dy)) as [c|] eqn:Hc.
  - destruct (Cell.is_land c) eqn:Hland; (eexists; split; [done|]); intros n.
    + rewrite Hin. split; intros (d & Hd & Hat & Hw).
      * exists d. split; [by right|done].
      * apply elem_of_cons in Hd as [->|Hd]; [|by eauto]. simpl in Hat.
        rewrite Hc in Hat. simplify_eq. unfold water in Hw. congruence.
    + rewrite elem_of_cons, Hin. split.
      * intros [->|(d & Hd & Hat & Hw)]; [exists (dx, dy)|exists d].
        -- split; [by left|done].
        -- split; [by right|done].
      * intros (d & [->|Hd]%elem_of_cons & Hat & Hw); [left|right; by eauto].
        simpl in Hat. congruence.
  - eexists; split; [done|]. intros n. rewrite Hin. split; intros (d & Hd & Hat & Hw).
    + exists d. split; [by right|done].
    + apply elem_of_cons in Hd as [->|Hd]; [|by eauto]. simpl in Hat. congruence.
Qed.

Lemma step_iff a b :
  step a b ↔ ∃ d, d ∈ NavigationGrid.directions true ∧
    NavigationGrid.at_ grid (Cell.x a + d.1) (Cell.y a + d.2) = Some b ∧ water b.
Proof.
  unfold step, NavigationGrid.get_neighbors.
  destruct (neighbors_from_wf a (NavigationGrid.directions true)) as (ns & Hns & Hin).
  rewrite Hns. split.
  - intros (ns' & [= <-] & Hb). by apply Hin.
  - intros Hd. exists ns. split; [done|]. by apply Hin.
Qed.

Lemma get_neighbors_wf a :
  ∃ ns, NavigationGrid.get_neighbors grid a true = Done ns ∧ Forall (step a) ns.
Proof.
  destruct (neighbors_from_wf a (NavigationGrid.directions true)) as (ns & Hns & Hin).
  exists ns. split; [done|]. apply Forall_forall. intros n Hn. by exists ns.
Qed.

Lemma step_sea a b : step a b → sea b.
Proof.
  intros (d & _ & Hat & Hw)%step_iff. split; [|done].
  apply at_key in Hat as Hk; [|done]. injection Hk as -> ->. done.
Qed.

Lemma step_key a a' b : Cell.key a = Cell.key a' → step a b → step a' b.
Proof.
  intros [= Hx Hy]. rewrite !step_iff. by rewrite Hx, Hy.
Qed.

Lemma step_sym a b : sea a → step a b → step b a.
Proof.
  intros [Ha Hwa] (d & Hd & Hat & Hw)%step_iff. apply step_iff.
  apply at_key in Hat as Hk; [|done]. injection Hk as Hx Hy.
  exists (- d.1, - d.2). split_and!; [|simpl|done].
  - unfold NavigationGrid.directions in *. simpl in *.
    repeat (apply elem_of_cons in Hd as [->|Hd]; [set_solver|]). by apply elem_of_nil in Hd.
  - by replace (Cell.x b + - d.1) with (Cell.x a) by lia;
      replace (Cell.y b + - d.2) with (Cell.y a) by lia.
Qed.

Lemma rtc_step_sym a b : sea a → rtc step a b → rtc step b a.
Proof.
  intros Ha Hab. induction Hab as [a|a c b Hac Hcb IH]; [done|].
  eapply rtc_trans; [apply IH; by eapply step_sea|].
  apply rtc_once. by apply step_sym.
Qed.

(** Two chains that meet at the same coordinates connect their origins. *)
Lemma meet_connected start goal c c' :
  sea goal → rtc step start c → rtc step goal c' → Cell.key c = Cell.key c' →
  connected start goal.
Proof.
  intros Hgoal Hc Hc' Hk. apply rtc_step_sym in Hc'; [|done].
  destruct Hc' as [|c' b goal Hb Hrest].
  - by exists c.
  - exists goal. split; [|done].
    eapply rtc_trans; [exact Hc|]. eapply rtc_l; [|exact Hrest].
    by eapply step_key.
Qed.
End reach.

(** ** The four searches return *)

Lemma NoDup_fmap_eq {A B} (f : A → B) (l : list A) a b :
  NoDup (f <$> l) → a ∈ l → b ∈ l → f a = f b → a = b.
Proof.
  induction l as [|c l IH]; intros Hnd Ha Hb Hf; [by apply elem_of_nil in Ha|].
  rewrite fmap_cons in Hnd. apply NoDup_cons in Hnd as [Hnotin Hnd].
  apply elem_of_cons in Ha as [->|Ha]; apply elem_of_cons in Hb as [->|Hb]; try done.
  - exfalso. apply Hnotin. rewrite Hf. by apply list_elem_of_fmap_2.
  - exfalso. apply Hnotin. rewrite <- Hf. by apply list_elem_of_fmap_2.
  - by apply IH.
Qed.

(** The frontier never compares two cells: entries with the same counter are
    the same entry. *)
Lemma entry_lt_answers (S : list ShipRouter.entry) :
  NoDup ((λ e : ShipRouter.entry, e.1.2) <$> S) →
  ∀ a b, a ∈ S → b ∈ S → ∃ r, ShipRouter.entry_lt a b = Done r.
Proof.
  intros Hnd a b Ha Hb. destruct a as [[p1 n1] c1] eqn:Ea, b as [[p2 n2] c2] eqn:Eb.
  unfold ShipRouter.entry_lt.
  destruct (negb (PrimFloat.eqb p1 p2)); [by eauto|].
  case_bool_decide as Hn; simpl; [|by eauto].
  assert ((p1, n1, c1) = (p2, n2, c2)) as [= _ _ ->].
  { eapply (NoDup_fmap_eq _ S); done. }
  unfold Cell.eqb. rewrite bool_decide_true by done. simpl. eauto.
Qed.

(** How far a score can still go down: its rank above the least rank, and
    one more than any of those for a cell without a score. *)
Definition pot (o : option float) : Z :=
  match o with
  | None => 2 * rank_bound + 1
  | Some v => rank v + rank_bound
  end.

Fixpoint sum_pot (score : gmap (Z * Z) float) (ks : list (Z * Z)) : Z :=
  match ks with
  | [] => 0
  | k :: ks => pot (score !! k) + sum_pot score ks
  end.

Lemma pot_nonneg o : 0 ≤ pot o.
Proof.
  destruct o as [v|]; simpl; [|unfold rank_bound; lia].
  pose proof (rank_range v). lia.
Qed.

Lemma sum_pot_nonneg score ks : 0 ≤ sum_pot score ks.
Proof. induction ks as [|k ks IH]; simpl; [done|]. pose proof (pot_nonneg (score !! k)). lia. Qed.

Lemma pot_improves (score : gmap (Z * Z) float) k v :
  match score !! k with None => true | Some old => PrimFloat.ltb v old end = true →
  pot (Some v) < pot (score !! k).
Proof.
  destruct (score !! k) as [old|]; simpl.
  - intros ?%rank_lt. lia.
  - intros _. pose proof (rank_range v). lia.
Qed.

Lemma sum_pot_insert_le (score : gmap (Z * Z) float) k v ks :
  pot (Some v) < pot (score !! k) → sum_pot (<[k := v]> score) ks ≤ sum_pot score ks.
Proof.
  intros Hlt. induction ks as [|k' ks IH]; simpl; [done|].
  rewrite lookup_insert. case_decide; subst; lia.
Qed.

Lemma sum_pot_insert_lt (score : gmap (Z * Z) float) k v ks :
  k ∈ ks → pot (Some v) < pot (score !! k) → sum_pot (<[k := v]> score) ks < sum_pot score ks.
Proof.
  intros Hk Hlt. induction ks as [|k' ks IH]; [by apply elem_of_nil in Hk|]. simpl.
  pose proof (sum_pot_insert_le score k v ks Hlt).
  rewrite lookup_insert. case_decide; subst; [lia|].
  apply elem_of_cons in Hk as [->|Hk]; [done|]. specialize (IH Hk). lia.
Qed.

(** The coordinates a score can be given to: the start, and every cell of
    the grid. *)
Definition all_keys (grid : NavigationGrid.t) (start : Cell.t) : list (Z * Z) :=
  Cell.key start ::
  (x ← seqZ 0 (NavigationGrid.width grid); y ← seqZ 0 (NavigationGrid.height grid); [(x, y)]).

Lemma all_keys_sea grid start c :
  NavigationGrid.wf grid → sea grid c → Cell.key c ∈ all_keys grid start.
Proof.
  intros Hwf [Hat _]. apply at_in_range in Hat as Hin. right.
  apply list_elem_of_bind. exists (Cell.x c). split; [|apply elem_of_seqZ; lia].
  apply list_elem_of_bind. exists (Cell.y c). split; [|apply elem_of_seqZ; lia].
  by apply list_elem_of_singleton.
Qed.

Section skeleton_total.
Import ShipRouter.
Variable grid : NavigationGrid.t.
Hypothesis grid_wf : NavigationGrid.wf grid.
Variable start : Cell.t.
Variable tentative : gmap (Z * Z) float → Cell.t → Cell.t → outcome float.
Variable priority : float → Cell.t → float.
Hypothesis tentative_answers : ∀ (score : gmap (Z * Z) float) current n,
  is_Some (score !! Cell.key current) → sea grid n → ∃ v, tentative score current n = Done v.

(** What is left to do: the entries still to pop, and twice the room the
    scores have to go down (a push uses up one unit of room at least). *)
Definition measure (st : frontier) : Z :=
  Z.of_nat (length (pq st)) + 2 * sum_pot (score st) (all_keys grid start).

(** Every entry holds a cell reached from the start, with a score and a
    counter of its own; every key of [came_from] is reached from the start. *)
Definition sound (st : frontier) : Prop :=
  Forall (λ e : entry, rtc (step grid) start e.2 ∧ is_Some (score st !! Cell.key e.2)
                       ∧ e.1.2 ≤ counter st) (pq st) ∧
  NoDup ((λ e : entry, e.1.2) <$> pq st) ∧
  (∀ k, is_Some (came_from st !! k) → ∃ c, rtc (step grid) start c ∧ Cell.key c = k) ∧
  (∀ k, is_Some (score st !! k) → k ∈ all_keys grid start).

Lemma measure_nonneg st : 0 ≤ measure st.
Proof. unfold measure. pose proof (sum_pot_nonneg (score st) (all_keys grid start)). lia. Qed.

Lemma start_frontier_sound : sound (start_frontier start).
Proof.
  unfold sound, start_frontier. simpl. split_and!.
  - apply Forall_singleton. simpl. split_and!; [done| |done].
    rewrite lookup_singleton_eq. by eexists.
  - apply NoDup_singleton.
  - intros k [v Hk]. apply lookup_singleton_Some in Hk as [<- _]. by exists start.
  - intros k [v Hk]. apply lookup_singleton_Some in Hk as [<- _]. by left.
Qed.

Lemma relax_sound current st n :
  sound st → rtc (step grid) start current → is_Some (score st !! Cell.key current) →
  step grid current n →
  ∃ st', relax tentative priority current st n = Done st' ∧ sound st' ∧
         measure st' ≤ measure st ∧ is_Some (score st' !! Cell.key current).
Proof.
  intros (Hpq & Hnd & Hcf & Hks) Hcur Hscore Hstep. unfold relax.
  pose proof (step_sea grid grid_wf _ _ Hstep) as Hsea.
  destruct (tentative_answers (score st) current n) as [v ->]; [done..|]. simpl.
  destruct (match score st !! Cell.key n with None => true | Some old => _ end) eqn:Himp.
  2:{ eexists; split; [done|]. by split_and!. }
  set (e := (priority v n, counter st + 1, n) : entry).
  assert (NoDup ((λ e : entry, e.1.2) <$> e :: pq st)) as Hnd'.
  { rewrite fmap_cons. apply NoDup_cons. split; [|done]. simpl.
    intros (e' & He' & Hin)%list_elem_of_fmap_1.
    rewrite Forall_forall in Hpq. destruct (Hpq _ Hin) as (_ & _ & Hle). lia. }
  destruct (heappush_total entry_lt (.∈ e :: pq st) (entry_lt_answers _ Hnd') (pq st) e)
    as [pq' Hpush].
  { apply Forall_forall. intros. by right. }
  { by left. }
  rewrite Hpush. simpl. apply heappush_perm in Hpush.
  eexists; split; [done|]. split_and!.
  - unfold sound. simpl. split_and!.
    + rewrite Hpush. apply Forall_cons. split.
      * simpl. split_and!; [by eapply rtc_r| |lia]. rewrite lookup_insert_eq. by eexists.
      * eapply Forall_impl; [exact Hpq|]. simpl. intros e' (? & ? & ?).
        split_and!; [done| |lia]. by apply lookup_insert_is_Some'; right.
    + by rewrite Hpush.
    + intros k [o Hk]. rewrite lookup_insert in Hk. case_decide as Hkn.
      * exists n. split; [by eapply rtc_r|done].
      * apply Hcf. by eexists.
    + intros k [o Hk]. rewrite lookup_insert in Hk. case_decide as Hkn.
      * subst k. by apply all_keys_sea.
      * apply Hks. by eexists.
  - unfold measure. cbn [pq score]. rewrite Hpush. cbn [length].
    pose proof (sum_pot_insert_lt (score st) (Cell.key n) v (all_keys grid start)
      (all_keys_sea _ _ _ grid_wf Hsea) (pot_improves _ _ _ Himp)). lia.
  - simpl. by apply lookup_insert_is_Some'; right.
Qed.

Lemma relax_all_sound current st ns :
  sound st → rtc (step grid) start current → is_Some (score st !! Cell.key current) →
  Forall (step grid current) ns →
  ∃ st', relax_all tentative priority current st ns = Done st' ∧ sound st' ∧
         measure st' ≤ measure st.
Proof.
  revert st. induction ns as [|n ns IH]; intros st Hst Hcur Hscore Hns; simpl.
  { eexists; split; [done|]. by split. }
  apply Forall_cons in Hns as [Hn Hns].
  destruct (relax_sound current st n) as (st1 & -> & Hst1 & Hm1 & Hscore1); [done..|]. simpl.
  destruct (IH st1) as (st2 & -> & Hst2 & Hm2); [done..|].
  eexists; split; [done|]. split; [done|lia].
Qed.

Lemma search_loop_returns fuel goal st :
  sound st → measure st < Z.of_nat fuel →
  ∃ st', search_loop tentative priority fuel grid goal st = Done st' ∧ sound st'.
Proof.
  revert st. induction fuel as [|fuel IH]; intros st Hst Hfuel.
  { pose proof (measure_nonneg st). lia. }
  simpl. destruct (pq st) as [|e0 pq0] eqn:Hpq; [by eauto|]. rewrite <- Hpq.
  destruct Hst as (Hall & Hnd & Hcf & Hks).
  destruct (heappop_total entry_lt (.∈ pq st) (entry_lt_answers _ Hnd) (pq st))
    as [[[[p n] current] pq'] Hpop].
  { by apply Forall_forall. }
  { by rewrite Hpq. }
  rewrite Hpop. simpl. apply heappop_perm in Hpop.
  rewrite Hpop in Hall, Hnd. apply Forall_cons in Hall as [(Hcur & Hscore & _) Hall].
  rewrite fmap_cons in Hnd. apply NoDup_cons in Hnd as [_ Hnd].
  set (st1 := Frontier pq' (came_from st) (score st) (nodes_explored st + 1) (counter st)).
  assert (sound st1) as Hst1 by done.
  assert (measure st1 < Z.of_nat fuel) as Hm1.
  { unfold measure in *. cbn [pq score st1]. rewrite Hpop in Hfuel. cbn [length] in Hfuel. lia. }
  destruct (Cell.eqb current goal); [by eauto|].
  destruct (get_neighbors_wf grid grid_wf current) as (ns & -> & Hns). simpl.
  destruct (relax_all_sound current st1 ns) as (st2 & -> & Hst2 & Hm2); [done..|]. simpl.
  apply IH; [done|lia].
Qed.
End skeleton_total.

(** More fuel does not change what a search answers. *)
Lemma search_loop_more_fuel tentative priority fuel fuel' grid goal st st' :
  ShipRouter.search_loop tentative priority fuel grid goal st = Done st' →
  (fuel ≤ fuel')%nat →
  ShipRouter.search_loop tentative priority fuel' grid goal st = Done st'.
Proof.
  revert fuel' st. induction fuel as [|fuel IH]; intros fuel' st Hrun Hle.
  { destruct fuel'; simpl in *; destruct (ShipRouter.pq st); by simplify_eq. }
  destruct fuel' as [|fuel']; [lia|]. simpl in *.
  destruct (ShipRouter.pq st) as [|e0 pq0]; [done|].
  destruct (heapq.heappop _ _) as [[[[p n] current] pq']| |]; simpl in *; [|done..].
  destruct (Cell.eqb current goal); [done|].
  destruct (NavigationGrid.get_neighbors _ _ _) as [ns| |]; simpl in *; [|done..].
  destruct (ShipRouter.relax_all _ _ _ _ _) as [st2| |]; simpl in *; [|done..].
  apply IH; [done|lia].
Qed.

Lemma follow_more_fuel fuel fuel' came_from current path path' :
  ShipRouter.follow fuel came_from current path = Done path' →
  (fuel ≤ fuel')%nat →
  ShipRouter.follow fuel' came_from current path = Done path'.
Proof.
  revert fuel' current path. induction fuel as [|fuel IH]; intros fuel' current path Hrun Hle.
  { destruct current; simpl in Hrun; simplify_eq. by destruct fuel'. }
  destruct fuel' as [|fuel']; [lia|]. destruct current as [c|]; simpl in *; [|done].
  destruct (Py.lookup_key _ _) as [next| |]; simpl in *; [|done..].
  apply IH; [done|lia].
Qed.

(** ** No connecting path *)

(** The five weather maps have a value for every cell of the grid. *)
Definition weather_covers (grid : NavigationGrid.t) (w : WeatherSystem.t) : Prop :=
  ∀ x y, 0 ≤ x < NavigationGrid.width grid → 0 ≤ y < NavigationGrid.height grid →
    ∀ map, map ∈ [WeatherSystem.wind_speed w; WeatherSystem.wind_direction w;
                  WeatherSystem.wave_height w; WeatherSystem.current_speed w;
                  WeatherSystem.current_direction w] →
    ∃ v, WeatherSystem.index2 map x y = Done v.

Lemma new_weather_covers grid grid' :
  NavigationGrid.width grid' = NavigationGrid.width grid →
  NavigationGrid.height grid' = NavigationGrid.height grid →
  weather_covers grid (WeatherSystem.new grid').
Proof.
  intros Hw Hh x y Hx Hy map Hmap. simpl in Hmap. rewrite <- Hw in Hx. rewrite <- Hh in Hy.
  set (width := NavigationGrid.width grid') in *.
  set (height := NavigationGrid.height grid') in *.
  assert (map = (λ _ : Z, (λ _ : Z, 0.0%float) <$> Py.range 0 height) <$> Py.range 0 width)
    as ->.
  { repeat (apply elem_of_cons in Hmap as [->|Hmap]; [done|]). by apply elem_of_nil in Hmap. }
  unfold WeatherSystem.index2.
  erewrite getitem_Some; [|lia|]; last first.
  { rewrite list_lookup_fmap. unfold Py.range.
    rewrite (proj2 (lookup_seqZ 0 (width - 0) (Z.to_nat x) (0 + Z.of_nat (Z.to_nat x))));
      [done|lia]. }
  simpl. erewrite getitem_Some; [by eauto|lia|].
  rewrite list_lookup_fmap. unfold Py.range.
  by rewrite (proj2 (lookup_seqZ 0 (height - 0) (Z.to_nat y) (0 + Z.of_nat (Z.to_nat y))));
    [|lia].
Qed.

Section no_route.
Context {libm : Libm}.
Variable grid : NavigationGrid.t.
Hypothesis grid_wf : NavigationGrid.wf grid.

Lemma calculate_weather_cost_answers w n heading :
  weather_covers grid w → sea grid n →
  ∃ v, WeatherSystem.calculate_weather_cost w n heading = Done v.
Proof.
  intros Hw [Hat Hwater]. apply at_in_range in Hat as [Hx Hy].
  unfold WeatherSystem.calculate_weather_cost. rewrite Hwater.
  destruct (Hw _ _ Hx Hy (WeatherSystem.wave_height w)) as [? ->]; [by repeat constructor|].
  destruct (Hw _ _ Hx Hy (WeatherSystem.wind_direction w)) as [? ->]; [by repeat constructor|].
  destruct (Hw _ _ Hx Hy (WeatherSystem.wind_speed w)) as [? ->]; [by repeat constructor|].
  destruct (Hw _ _ Hx Hy (WeatherSystem.current_direction w)) as [? ->]; [by repeat constructor|].
  destruct (Hw _ _ Hx Hy (WeatherSystem.current_speed w)) as [? ->]; [by repeat constructor|].
  simpl. eauto.
Qed.

Lemma dijkstra_tentative_answers (self : ShipRouter.t) (score : gmap (Z * Z) float) current n :
  is_Some (score !! Cell.key current) → sea grid n →
  ∃ v, ShipRouter.dijkstra_tentative self score current n = Done v.
Proof.
  intros [g Hg] _. unfold ShipRouter.dijkstra_tentative, Py.lookup_key. rewrite Hg. simpl. eauto.
Qed.

Lemma weather_tentative_answers (self : ShipRouter.t) (w : WeatherSystem.t) (score : gmap (Z * Z) float) current n :
  weather_covers grid w → is_Some (score !! Cell.key current) → sea grid n →
  ∃ v, ShipRouter.weather_tentative self w score current n = Done v.
Proof.
  intros Hw [g Hg] Hn. unfold ShipRouter.weather_tentative, Py.lookup_key.
  destruct (calculate_weather_cost_answers w n (ShipRouter.heading current n)) as [v ->];
    [done..|].
  simpl. rewrite Hg. simpl. eauto.
Qed.

Lemma fuel_tentative_answers (self : ShipRouter.t) (w : WeatherSystem.t) (score : gmap (Z * Z) float) current n :
  weather_covers grid w → is_Some (score !! Cell.key current) → sea grid n →
  ∃ v, ShipRouter.fuel_tentative self w score current n = Done v.
Proof.
  intros Hw [g Hg] Hn. unfold ShipRouter.fuel_tentative, Py.lookup_key.
  destruct (calculate_weather_cost_answers w n (ShipRouter.heading current n)) as [v ->];
    [done..|].
  simpl. rewrite Hg. simpl. eauto.
Qed.

(** The loop and the assembly of the result, for a frontier search whose
    score update always answers. *)
Lemma search_without_route tentative priority self start goal t0 t1 algorithm :
  ShipRouter.grid self = grid →
  (∀ (score : gmap (Z * Z) float) current n,
     is_Some (score !! Cell.key current) → sea grid n →
     ∃ v, tentative score current n = Done v) →
  ¬ connected grid start goal →
  ∃ fuel0 n, ∀ fuel, (fuel0 ≤ fuel)%nat →
    ShipRouter.search_loop tentative priority fuel (ShipRouter.grid self) goal
        (ShipRouter.start_frontier start)
      ≫= ShipRouter.finish fuel self start goal t0 t1 algorithm
    = Done (RouteResult.mk [] 0 0 0 0 n ((t1 - t0) * 1000) algorithm).
Proof.
  intros Hgrid Htent Hno. rewrite Hgrid.
  set (st0 := ShipRouter.start_frontier start).
  set (fuel0 := S (Z.to_nat (measure grid start st0))).
  destruct (search_loop_returns grid grid_wf start tentative priority Htent fuel0 goal st0)
    as (st' & Hrun & (_ & _ & Hcf & _)).
  { apply start_frontier_sound. }
  { pose proof (measure_nonneg grid start st0). lia. }
  exists fuel0, (ShipRouter.nodes_explored st'). intros fuel Hfuel.
  rewrite (search_loop_more_fuel _ _ _ _ _ _ _ _ Hrun Hfuel). simpl.
  unfold ShipRouter.finish, ShipRouter._reconstruct_path.
  destruct (ShipRouter.came_from st' !! Cell.key goal) as [o|] eqn:Hgoal; [|done].
  exfalso. apply Hno. apply Hcf. by eexists.
Qed.
End no_route.

Section bidirectional_meeting.
Import BidirectionalAStar.
Variable self : t.

(** The open cells of a side are reached from its origin, and so are the
    coordinates it has closed. *)
Definition side_reached (origin : Cell.t) (s : side) : Prop :=
  Forall (λ e : entry, rtc (step (grid self)) origin e.2) (open s) ∧
  ∀ k, k ∈ closed s → ∃ c, rtc (step (grid self)) origin c ∧ Cell.key c = k.

Lemma bi_relax_reached origin target current s n s' :
  relax self target current s n = Done s' →
  rtc (step (grid self)) origin current → step (grid self) current n →
  side_reached origin s → side_reached origin s'.
Proof.
  unfold relax. intros Hrun Hcur Hn [Hopen Hclosed].
  destruct (_ || _); [by simplify_eq|].
  apply bind_Done in Hrun as (g & _ & Hrun).
  destruct (match g_score s !! Cell.key n with None => true | Some old => _ end);
    [|by simplify_eq].
  apply bind_Done in Hrun as (open' & Hpush%heappush_perm & Hrun). simplify_eq.
  split; simpl; [|done]. rewrite Hpush. apply Forall_cons. split; [|done].
  by eapply rtc_r.
Qed.

Lemma bi_relax_all_reached origin target current s ns s' :
  relax_all self target current s ns = Done s' →
  rtc (step (grid self)) origin current → Forall (step (grid self) current) ns →
  side_reached origin s → side_reached origin s'.
Proof.
  revert s. induction ns as [|n ns IH]; intros s Hrun Hcur Hns Hs; simpl in Hrun.
  { by simplify_eq. }
  apply Forall_cons in Hns as [Hn Hns].
  apply bind_Done in Hrun as (s1 & Hs1 & Hrun).
  eapply IH; [done..|]. by eapply bi_relax_reached.
Qed.

(** A meeting point is a cell reached from both origins. *)
Definition met (a b : Cell.t) (meeting : option Cell.t) : Prop :=
  ∀ m, meeting = Some m →
    ∃ c c', rtc (step (grid self)) a c ∧ rtc (step (grid self)) b c' ∧ Cell.key c = Cell.key c'.

Lemma met_swap a b meeting : met a b meeting → met b a meeting.
Proof. intros Hm m Hmeet. destruct (Hm m Hmeet) as (c & c' & ? & ? & ?). by exists c', c. Qed.

Lemma expand_reached origin origin' target mine other fwd bwd meeting best nodes
    stop mine' meeting' best' nodes' :
  expand self target mine other fwd bwd meeting best nodes
    = Done (stop, mine', meeting', best', nodes') →
  side_reached origin mine → side_reached origin' other → met origin origin' meeting →
  side_reached origin mine' ∧ met origin origin' meeting'.
Proof.
  unfold expand. intros Hrun [Hopen Hclosed] [_ Hclosed'] Hmeet.
  apply bind_Done in Hrun as ([[p current] open'] & Hpop%heappop_perm & Hrun).
  rewrite Hpop in Hopen. apply Forall_cons in Hopen as [Hcur Hopen'].
  case_bool_decide as Hin.
  - apply bind_Done in Hrun as (gf & _ & Hrun).
    apply bind_Done in Hrun as (gb & _ & Hrun).
    destruct (PrimFloat.ltb _ _); simplify_eq; (split; [by split|]); [|done].
    intros m [= <-]. destruct (Hclosed' _ Hin) as (c' & Hc' & Hk). by exists current, c'.
  - case_bool_decide; [|by simplify_eq].
    apply bind_Done in Hrun as (ns & Hns & Hrun).
    apply bind_Done in Hrun as (s1 & Hs1 & Hrun). simplify_eq.
    split; [|done]. eapply bi_relax_all_reached; [done..| |].
    + apply Forall_forall. intros n Hn. by exists ns.
    + split; simpl; [done|]. intros k [->%elem_of_singleton|Hk]%elem_of_union; [|by auto].
      by exists current.
Qed.

Lemma bi_search_loop_met fuel start goal st st' :
  search_loop fuel self start goal st = Done st' →
  side_reached start (forward st) → side_reached goal (backward st) →
  met start goal (meeting_point st) →
  met start goal (meeting_point st').
Proof.
  revert st. induction fuel as [|fuel IH]; intros st Hrun Hfw Hbw Hm; simpl in Hrun.
  { destruct (open (forward st)), (open (backward st)); by simplify_eq. }
  destruct (open (forward st)) as [|ef openf] eqn:Hopenf; [by simplify_eq|].
  destruct (open (backward st)) as [|eb openb] eqn:Hopenb; [by simplify_eq|].
  apply bind_Done in Hrun as ([[[[stop fw] meeting] best] nodes] & Hexp & Hrun).
  eapply expand_reached in Hexp as [Hfw' Hm']; [|done..].
  destruct stop; [by simplify_eq|].
  apply bind_Done in Hrun as ([[[[stop bw] meeting2] best2] nodes2] & Hexp2 & Hrun).
  eapply expand_reached in Hexp2 as [Hbw' Hm2%met_swap]; [|done..|by apply met_swap].
  destruct stop; [by simplify_eq|].
  by apply IH in Hrun.
Qed.

Lemma start_side_reached c : side_reached c (start_side c).
Proof.
  split; simpl; [by apply Forall_singleton|]. by intros k ?%elem_of_empty.
Qed.
End bidirectional_meeting.

(** ** Two grids to run the searches on *)

(** A 5 by 5 grid with a wall of land on the column [x = 2], open at
    [y = 4]. *)
Definition strait_grid : NavigationGrid.t :=
  match NavigationGrid.set_land_region (NavigationGrid.new 5 5 10.0) 2 0 2 3 with
  | Done g => g
  | _ => NavigationGrid.new 5 5 10.0
  end.

(** The same grid with the wall closed. *)
Definition parted_grid : NavigationGrid.t :=
  match NavigationGrid.set_land_region (NavigationGrid.new 5 5 10.0) 2 0 2 4 with
  | Done g => g
  | _ => NavigationGrid.new 5 5 10.0
  end.

Section no_route_theorem.
Context {libm : Libm}.

(** C3: on a well-formed grid, with weather maps that cover it if there is a
    weather system, and with a start and a goal that are water cells of the
    grid joined by no chain of neighbour steps: [dijkstra], [a_star],
    [weather_aware_astar] and [fuel_optimized] return, for every fuel
    from some fuel on, a result with the empty path and zero distance, cost,
    fuel and time.  The bidirectional search answers nothing but [None] on
    such an input when it returns, yet it does not always return: on the 5 by
    5 grid parted by a wall of land on the column [x = 2], from (0,2) to
    (4,2), with or without weather, the fifth push on the forward open list
    compares two entries of equal score and raises [TypeError]. *)
Theorem no_route_found (grid : NavigationGrid.t) (weather : option WeatherSystem.t)
  (start goal : Cell.t) (t0 t1 : float) :
  NavigationGrid.wf grid →
  (∀ w, weather = Some w → weather_covers grid w) →
  sea grid start → sea grid goal →
  ¬ connected grid start goal →
  let router := ShipRouter.new grid weather in
  let empty n algorithm :=
    Done (RouteResult.mk [] 0 0 0 0 n ((t1 - t0) * 1000) algorithm) in
  (∃ fuel0 n, ∀ fuel, (fuel0 ≤ fuel)%nat →
     ShipRouter.dijkstra fuel router start goal t0 t1 = empty n "Dijkstra") ∧
  (∃ fuel0 n, ∀ fuel, (fuel0 ≤ fuel)%nat →
     ShipRouter.a_star fuel router start goal t0 t1 = empty n "A*") ∧
  (∃ fuel0 n, ∀ fuel, (fuel0 ≤ fuel)%nat →
     ShipRouter.weather_aware_astar fuel router start goal t0 t1
     = empty n (if weather is Some _ then "Weather-Aware A*" else "A*")) ∧
  (∃ fuel0 n, ∀ fuel, (fuel0 ≤ fuel)%nat →
     ShipRouter.fuel_optimized fuel router start goal t0 t1
     = empty n (if weather is Some _ then "Fuel-Optimized" else "A*")) ∧
  (∀ fuel r,
     BidirectionalAStar.search fuel (BidirectionalAStar.mk grid weather) start goal t0 t1
       = Done r → r = None) ∧
  (∀ fuel weather',
     BidirectionalAStar.search (S fuel) (BidirectionalAStar.mk parted_grid weather')
       (Cell.new 0 2) (Cell.new 4 2) t0 t1 = Raised TypeError).
Proof.
  intros Hwf Hweather Hstart Hgoal Hno router empty.
  assert (∃ fuel0 n, ∀ fuel, (fuel0 ≤ fuel)%nat →
     ShipRouter.a_star fuel router start goal t0 t1 = empty n "A*") as Ha.
  { apply (search_without_route grid Hwf); [done| |done]. intros. by eapply dijkstra_tentative_answers. }
  split_and!.
  - apply (search_without_route grid Hwf); [done| |done]. intros. by eapply dijkstra_tentative_answers.
  - exact Ha.
  - unfold ShipRouter.weather_aware_astar. subst router. unfold ShipRouter.new.
    cbn [ShipRouter.weather]. destruct weather as [w|]; [|exact Ha].
    apply (search_without_route grid Hwf); [done| |done].
    intros. eapply weather_tentative_answers; eauto.
  - unfold ShipRouter.fuel_optimized. subst router. unfold ShipRouter.new.
    cbn [ShipRouter.weather]. destruct weather as [w|]; [|exact Ha].
    apply (search_without_route grid Hwf); [done| |done].
    intros. eapply fuel_tentative_answers; eauto.
  - intros fuel r Hrun. unfold BidirectionalAStar.search in Hrun.
    apply bind_Done in Hrun as (st & Hloop & Hrun).
    apply bi_search_loop_met in Hloop; [|apply start_side_reached..|done].
    destruct (BidirectionalAStar.meeting_point st) as [m|] eqn:Hm; [|by simplify_eq].
    exfalso. destruct (Hloop m eq_refl) as (c & c' & Hc & Hc' & Hk).
    apply Hno. by eapply meet_connected.
  - intros fuel weather'. by vm_compute.
Qed.
End no_route_theorem.

Lemma parted_grid_wf : NavigationGrid.wf parted_grid.
Proof.
  unfold parted_grid.
  destruct (set_land_region_marks (NavigationGrid.new 5 5 10.0) 2 0 2 4 (new_wf 5 5 10.0))
    as (g & -> & Hm). apply Hm.
Qed.

Lemma parted_grid_wall x y c :
  NavigationGrid.at_ parted_grid x y = Some c → water c → x ≠ 2.
Proof.
  intros Hat Hw ->. apply at_in_range in Hat as Hin.
  assert (y = 0 ∨ y = 1 ∨ y = 2 ∨ y = 3 ∨ y = 4) as Hy by (simpl in Hin; lia).
  unfold water in Hw.
  destruct Hy as [->|[->|[->|[->| ->]]]]; vm_compute in Hat; simplify_eq; done.
Qed.

Lemma parted_grid_west a c :
  rtc (step parted_grid) a c → Cell.x a < 2 → Cell.x c < 2.
Proof.
  intros Hrun Ha. revert c Hrun. apply rtc_ind_r; [done|]. intros b c Hb Hstep IH.
  apply (step_iff _ parted_grid_wf) in Hstep as (d & Hd & Hat & Hw).
  pose proof (parted_grid_wall _ _ _ Hat Hw) as Hne.
  apply at_key in Hat; [|apply parted_grid_wf]. injection Hat as Hx Hy.
  assert (-1 ≤ d.1 ≤ 1) as Hd1.
  { unfold NavigationGrid.directions in Hd. simpl in Hd.
    repeat (apply elem_of_cons in Hd as [->|Hd]; [simpl; lia|]). by apply elem_of_nil in Hd. }
  lia.
Qed.

Lemma parted_grid_no_route : ¬ connected parted_grid (Cell.new 0 2) (Cell.new 4 2).
Proof.
  intros (c & Hc%parted_grid_west & Hk); [|simpl; lia]. injection Hk as Hx _. lia.
Qed.

Lemma no_route_found_witness :
  let grid := parted_grid in
  let weather := Some (WeatherSystem.new grid) in
  let start := Cell.new 0 2 in
  let goal := Cell.new 4 2 in
  let router := ShipRouter.new grid weather in
  let empty n algorithm := Done (RouteResult.mk [] 0 0 0 0 n ((0 - 0) * 1000) algorithm) in
  (∃ fuel0 n, ∀ fuel, (fuel0 ≤ fuel)%nat →
     ShipRouter.dijkstra (libm := still_libm) fuel router start goal 0 0 = empty n "Dijkstra") ∧
  (∃ fuel0 n, ∀ fuel, (fuel0 ≤ fuel)%nat →
     ShipRouter.a_star (libm := still_libm) fuel router start goal 0 0 = empty n "A*") ∧
  (∃ fuel0 n, ∀ fuel, (fuel0 ≤ fuel)%nat →
     ShipRouter.weather_aware_astar (libm := still_libm) fuel router start goal 0 0
     = empty n "Weather-Aware A*") ∧
  (∃ fuel0 n, ∀ fuel, (fuel0 ≤ fuel)%nat →
     ShipRouter.fuel_optimized (libm := still_libm) fuel router start goal 0 0
     = empty n "Fuel-Optimized") ∧
  (∀ fuel r,
     BidirectionalAStar.search (libm := still_libm) fuel
       (BidirectionalAStar.mk grid weather) start goal 0 0 = Done r → r = None) ∧
  (∀ fuel weather',
     BidirectionalAStar.search (libm := still_libm) (S fuel)
       (BidirectionalAStar.mk parted_grid weather') start goal 0 0 = Raised TypeError).
Proof.
  apply (no_route_found (libm := still_libm) parted_grid
           (Some (WeatherSystem.new parted_grid)) (Cell.new 0 2) (Cell.new 4 2) 0 0).
  - apply parted_grid_wf.
  - intros w [= <-]. by apply new_weather_covers.
  - split; reflexivity.
  - split; reflexivity.
  - apply parted_grid_no_route.
Defined.

Lemma returned_paths_avoid_land_witness :
  let grid := strait_grid in
  let weather := Some (WeatherSystem.new grid) in
  let start := Cell.new 0 0 in
  let goal := Cell.new 4 0 in
  let router := ShipRouter.mk grid weather 20.0 in
  ∃ r1 r2 r3 r4 r5,
    (ShipRouter.dijkstra (libm := still_libm) 100 router start goal 0 0 = Done r1 ∧
     length (RouteResult.path r1) = 9%nat ∧
     NavigationGrid.is_valid_path (RouteResult.path r1) = true) ∧
    (ShipRouter.a_star (libm := still_libm) 100 router start goal 0 0 = Done r2 ∧
     length (RouteResult.path r2) = 9%nat ∧
     NavigationGrid.is_valid_path (RouteResult.path r2) = true) ∧
    (ShipRouter.weather_aware_astar (libm := still_libm) 100 router start goal 0 0 = Done r3 ∧
     length (RouteResult.path r3) = 9%nat ∧
     NavigationGrid.is_valid_path (RouteResult.path r3) = true) ∧
    (ShipRouter.fuel_optimized (libm := still_libm) 100 router start goal 0 0 = Done r4 ∧
     length (RouteResult.path r4) = 9%nat ∧
     NavigationGrid.is_valid_path (RouteResult.path r4) = true) ∧
    (BidirectionalAStar.search (libm := still_libm) 100
       (BidirectionalAStar.mk grid weather) start goal 0 0 = Done (Some r5) ∧
     length (BiDirectionalResult.path r5) = 9%nat ∧
     NavigationGrid.is_valid_path (BiDirectionalResult.path r5) = true).
Proof.
  intros grid weather start goal router.
  destruct (returned_paths_avoid_land (H := still_libm) grid weather 20.0 start goal 100 0 0
              eq_refl eq_refl) as (H1 & H2 & H3 & H4 & H5).
  eexists _, _, _, _, _.
  split_and!;
    [vm_compute; reflexivity | vm_compute; reflexivity | by apply H1; vm_compute
    |vm_compute; reflexivity | vm_compute; reflexivity | by apply H2; vm_compute
    |vm_compute; reflexivity | vm_compute; reflexivity | by apply H3; vm_compute
    |vm_compute; reflexivity | vm_compute; reflexivity | by apply H4; vm_compute
    |vm_compute; reflexivity | vm_compute; reflexivity | by apply H5; vm_compute].
Defined.

(** ** The frontier in order: what [heappop] hands out *)

Section frontier_order.
Import ShipRouter.

(** The order of the frontier: by priority first, by counter among equal
    priorities. *)
Definition entry_le (a b : entry) : Prop :=
  rank a.1.1 < rank b.1.1 ∨ rank a.1.1 = rank b.1.1 ∧ a.1.2 ≤ b.1.2.

Lemma entry_le_trans a b c : entry_le a b → entry_le b c → entry_le a c.
Proof. unfold entry_le. lia. Qed.

Lemma entry_lt_le (S : list entry) :
  NoDup ((λ e : entry, e.1.2) <$> S) → Forall (λ e : entry, nonneg e.1.1) S →
  ∀ a b, a ∈ S → b ∈ S →
    entry_lt a b = Done true ∧ entry_le a b ∨ entry_lt a b = Done false ∧ entry_le b a.
Proof.
  intros Hnd Hnn a b Ha Hb.
  pose proof (proj1 (Forall_forall _ _) Hnn _ Ha) as Hpa.
  pose proof (proj1 (Forall_forall _ _) Hnn _ Hb) as Hpb.
  destruct a as [[p1 n1] c1] eqn:Ea, b as [[p2 n2] c2] eqn:Eb. simpl in Hpa, Hpb.
  unfold entry_lt, entry_le. simpl.
  rewrite (eqb_rank p1 p2), (ltb_rank p1 p2) by done.
  case_bool_decide as Hr; simpl; last first.
  { case_bool_decide; [left|right]; (split; [done|lia]). }
  case_bool_decide as Hn; simpl.
  - assert ((p1, n1, c1) = (p2, n2, c2)) as [= _ _ ->].
    { eapply (NoDup_fmap_eq _ S); done. }
    unfold Cell.eqb. rewrite bool_decide_true by done. simpl. right. split; [done|lia].
  - case_bool_decide; [left|right]; (split; [done|lia]).
Qed.

Variable grid : NavigationGrid.t.
Variable tentative : gmap (Z * Z) float → Cell.t → Cell.t → outcome float.
Variable priority : float → Cell.t → float.

(** One turn of [while pq:] that goes on to the next: a pop of a cell that
    is not the goal, and the pushes for its neighbours. *)
Definition turn (goal : Cell.t) (st st' : frontier) : Prop :=
  ∃ p n current pq' neighbors,
    heapq.heappop entry_lt (pq st) = Done (p, n, current, pq') ∧
    Cell.eqb current goal = false ∧
    NavigationGrid.get_neighbors grid current true = Done neighbors ∧
    relax_all tentative priority current
      (Frontier pq' (came_from st) (score st) (nodes_explored st + 1) (counter st)) neighbors
    = Done st'.

Lemma search_loop_turn fuel goal st st' :
  turn goal st st' →
  search_loop tentative priority (S fuel) grid goal st
  = search_loop tentative priority fuel grid goal st'.
Proof.
  intros (p & n & current & pq' & neighbors & Hpop & Hgoal & Hns & Hrelax).
  destruct (pq st) as [|e pq0] eqn:Hpq; [done|].
  simpl. rewrite Hpq, Hpop. simpl. rewrite Hgoal, Hns. simpl. by rewrite Hrelax.
Qed.

(** The loop is a chain of such turns, up to the pop that leaves it, or up
    to an empty frontier. *)
Lemma search_loop_passes fuel goal st st' :
  search_loop tentative priority fuel grid goal st = Done st' →
  ∃ st1, rtc (turn goal) st st1 ∧
    (pq st1 = [] ∧ st' = st1 ∨
     ∃ p n current rest,
       heapq.heappop entry_lt (pq st1) = Done (p, n, current, rest) ∧
       Cell.eqb current goal = true ∧
       st' = Frontier rest (came_from st1) (score st1) (nodes_explored st1 + 1) (counter st1)).
Proof.
  revert st. induction fuel as [|fuel IH]; intros st Hrun; simpl in Hrun.
  { destruct (pq st) eqn:Hpq; [|done]. simplify_eq. exists st'. split; [done|by left]. }
  destruct (pq st) as [|e pq0] eqn:Hpq.
  { simplify_eq. exists st'. split; [done|by left]. }
  rewrite <- Hpq in Hrun.
  apply bind_Done in Hrun as ([[[p n] current] rest] & Hpop & Hrun).
  destruct (Cell.eqb current goal) eqn:Hgoal.
  { simplify_eq. exists st. split; [done|]. right. by exists p, n, current, rest. }
  apply bind_Done in Hrun as (neighbors & Hns & Hrun).
  apply bind_Done in Hrun as (st1 & Hrelax & Hrun).
  destruct (IH _ Hrun) as (st2 & Hpass & Hend).
  exists st2. split; [|done]. eapply rtc_l; [|done].
  by exists p, n, current, rest, neighbors.
Qed.

(** The states the loop passes through from the frontier it starts with. *)
Definition passes (start goal : Cell.t) (st : frontier) : Prop :=
  rtc (turn goal) (start_frontier start) st.

Hypothesis costs_nonneg : ∀ (score : gmap (Z * Z) float) current n v,
  step grid current n → (∀ k g, score !! k = Some g → nonneg g) →
  tentative score current n = Done v → nonneg v ∧ nonneg (priority v n).

(** The frontier is a heap in the order above, its counters differ and none
    is ahead of the running counter, and priorities and scores are
    numbers at or above zero. *)
Definition in_order (st : frontier) : Prop :=
  heap_ordered entry_le (pq st) ∧
  NoDup ((λ e : entry, e.1.2) <$> pq st) ∧
  Forall (λ e : entry, nonneg e.1.1 ∧ e.1.2 ≤ counter st) (pq st) ∧
  (∀ k g, score st !! k = Some g → nonneg g).

Lemma start_frontier_in_order start : in_order (start_frontier start).
Proof.
  split_and!; simpl.
  - intros i j a b Hij Hi Hj. apply lookup_lt_Some in Hi, Hj. simpl in *.
    unfold child in Hij. lia.
  - apply NoDup_singleton.
  - by apply Forall_singleton.
  - intros k g [_ <-]%lookup_singleton_Some. done.
Qed.

Lemma relax_in_order current st n st' :
  relax tentative priority current st n = Done st' →
  step grid current n → in_order st → in_order st'.
Proof.
  unfold relax. intros Hrun Hstep (Hheap & Hnd & Hall & Hscore).
  apply bind_Done in Hrun as (v & Hv & Hrun).
  destruct (costs_nonneg _ _ _ _ Hstep Hscore Hv) as [Hvn Hpn].
  destruct (match score st !! Cell.key n with None => true | Some old => _ end);
    [|by simplify_eq].
  apply bind_Done in Hrun as (pq' & Hpush & Hrun). simplify_eq.
  set (e := (priority v n, counter st + 1, n)) in *.
  assert (NoDup ((λ e : entry, e.1.2) <$> e :: pq st)) as Hnd'.
  { rewrite fmap_cons. apply NoDup_cons. split; [|done]. simpl.
    intros (e' & He' & Hin)%list_elem_of_fmap.
    pose proof (proj1 (Forall_forall _ _) Hall _ Hin) as [_ Hle]. lia. }
  assert (Forall (λ e : entry, nonneg e.1.1) (e :: pq st)) as Hnn.
  { apply Forall_cons. split; [done|]. eapply Forall_impl; [exact Hall|]. by intros ? [? _]. }
  pose proof (heappush_perm _ _ _ _ Hpush) as Hperm.
  split_and!; simpl.
  - eapply (heappush_ordered entry_lt (.∈ e :: pq st) entry_le entry_le_trans
              (entry_lt_le _ Hnd' Hnn)); [done| |by left|done].
    apply Forall_forall. intros. by right.
  - by rewrite Hperm.
  - rewrite Hperm. apply Forall_cons. split; [simpl; split; [done|lia]|].
    eapply Forall_impl; [exact Hall|]. simpl. intros ? [? ?]. split; [done|lia].
  - intros k g. rewrite lookup_insert. case_decide; [by intros [= <-]|by apply Hscore].
Qed.

Lemma relax_all_in_order current st ns st' :
  relax_all tentative priority current st ns = Done st' →
  Forall (step grid current) ns → in_order st → in_order st'.
Proof.
  revert st. induction ns as [|n ns IH]; intros st Hrun Hns Hst; simpl in Hrun.
  { by simplify_eq. }
  apply Forall_cons in Hns as [Hn Hns].
  apply bind_Done in Hrun as (st1 & Hst1 & Hrun).
  eapply IH; [done..|]. by eapply relax_in_order.
Qed.

(** What [heappop] hands out of such a frontier is its least entry: every
    entry left has a greater priority, or the same priority and a greater
    counter. *)
Lemma pop_in_order st p n c rest :
  heapq.heappop entry_lt (pq st) = Done (p, n, c, rest) → in_order st →
  in_order (Frontier rest (came_from st) (score st) (nodes_explored st + 1) (counter st)) ∧
  ∀ p' n' c', (p', n', c') ∈ rest →
    PrimFloat.ltb p p' = true ∨ PrimFloat.eqb p p' = true ∧ n < n'.
Proof.
  intros Hpop (Hheap & Hnd & Hall & Hscore).
  pose proof (heappop_perm _ _ _ _ Hpop) as Hperm.
  assert (Forall (λ e : entry, nonneg e.1.1) (pq st)) as Hnn.
  { eapply Forall_impl; [exact Hall|]. by intros ? [? _]. }
  destruct (heappop_ordered entry_lt (.∈ pq st) entry_le entry_le_trans
              (entry_lt_le _ Hnd Hnn) _ _ _ Hpop) as [Hheap' Hleast]; [|done|].
  { by apply Forall_forall. }
  rewrite Hperm in Hnd, Hall, Hnn.
  rewrite fmap_cons in Hnd. apply NoDup_cons in Hnd as [Hfresh Hnd].
  apply Forall_cons in Hall as [_ Hall]. apply Forall_cons in Hnn as [Hp Hnn].
  split; [by split_and!|].
  intros p' n' c' Hin. simpl in Hp.
  pose proof (proj1 (Forall_forall _ _) Hnn _ Hin) as Hp'. simpl in Hp'.
  rewrite (ltb_rank p p'), (eqb_rank p p') by done.
  destruct (Hleast _ Hin) as [Hlt|[Heq Hle]]; simpl in *.
  - left. by apply bool_decide_eq_true_2.
  - right. split; [by apply bool_decide_eq_true_2|].
    assert (n ≠ n'); [|lia]. intros ->. apply Hfresh.
    apply list_elem_of_fmap. by exists (p', n', c').
Qed.

Lemma turn_in_order goal st st' : turn goal st st' → in_order st → in_order st'.
Proof.
  intros (p & n & current & pq' & neighbors & Hpop & Hgoal & Hns & Hrelax) Hst.
  apply pop_in_order in Hpop as [Hst1 _]; [|done].
  eapply relax_all_in_order; [done| |done].
  apply Forall_forall. intros b Hb. by exists neighbors.
Qed.

Lemma passes_in_order start goal st : passes start goal st → in_order st.
Proof.
  unfold passes. revert st. apply rtc_ind_r; [apply start_frontier_in_order|].
  intros st st' _ Hturn Hst. by eapply turn_in_order.
Qed.

(** First in, first out among ties: in every state the loop passes through,
    counters number the entries of the frontier apart and up to the running
    counter, and a pop answers with an entry such that each entry left has a
    greater priority, or an equal priority and a greater counter. *)
Definition fifo (start goal : Cell.t) : Prop :=
  ∀ st, passes start goal st →
    NoDup ((λ e : entry, e.1.2) <$> pq st) ∧
    (∀ p n c, (p, n, c) ∈ pq st → n ≤ counter st) ∧
    (pq st ≠ [] →
     ∃ p n c rest, heapq.heappop entry_lt (pq st) = Done (p, n, c, rest) ∧
       ∀ p' n' c', (p', n', c') ∈ rest →
         PrimFloat.ltb p p' = true ∨ PrimFloat.eqb p p' = true ∧ n < n').

Lemma passes_fifo start goal : fifo start goal.
Proof.
  intros st Hst%passes_in_order. pose proof Hst as (Hheap & Hnd & Hall & Hscore).
  split_and!; [done| |].
  - intros p n c Hin. by destruct (proj1 (Forall_forall _ _) Hall _ Hin).
  - intros Hne.
    destruct (heappop_total entry_lt (.∈ pq st) (entry_lt_answers _ Hnd) (pq st))
      as [[[[p n] c] rest] Hpop]; [by apply Forall_forall|done|].
    exists p, n, c, rest. split; [done|]. by eapply pop_in_order.
Qed.

End frontier_order.

(** ** Determinism *)

(** Two results that agree on everything but the wall-clock duration. *)
Definition same_route (r r' : RouteResult.t) : Prop :=
  RouteResult.path r = RouteResult.path r' ∧
  RouteResult.distance_km r = RouteResult.distance_km r' ∧
  RouteResult.cost r = RouteResult.cost r' ∧
  RouteResult.fuel_tons r = RouteResult.fuel_tons r' ∧
  RouteResult.time_hours r = RouteResult.time_hours r' ∧
  RouteResult.nodes_explored r = RouteResult.nodes_explored r' ∧
  RouteResult.algorithm r = RouteResult.algorithm r'.

Section determinism.
Context {libm : Libm}.
Import ShipRouter.

Lemma create_result_clock self path nodes ct ct' algorithm r r' :
  _create_result self path nodes ct algorithm = Done r →
  _create_result self path nodes ct' algorithm = Done r' →
  same_route r r'.
Proof.
  unfold _create_result. destruct path as [|c path].
  { intros [= <-] [= <-]. by repeat split. }
  destruct (match weather self with Some w => _ | None => _ end) as [f| |]; simpl; [|done..].
  intros [= <-] [= <-]. by repeat split.
Qed.

Lemma finish_more_fuel fuel fuel' self start goal t0 t1 algorithm st r :
  finish fuel self start goal t0 t1 algorithm st = Done r → (fuel ≤ fuel')%nat →
  finish fuel' self start goal t0 t1 algorithm st = Done r.
Proof.
  unfold finish, _reconstruct_path. intros Hrun Hle.
  destruct (came_from st !! Cell.key goal); [|done].
  apply bind_Done in Hrun as (path & Hpath & Hrun).
  apply bind_Done in Hpath as (path0 & Hfollow & Hpath).
  rewrite (follow_more_fuel _ _ _ _ _ _ Hfollow Hle). simpl. by simplify_eq.
Qed.

Lemma finish_clock fuel self start goal t0 t1 t0' t1' algorithm st r r' :
  finish fuel self start goal t0 t1 algorithm st = Done r →
  finish fuel self start goal t0' t1' algorithm st = Done r' →
  same_route r r'.
Proof.
  unfold finish. intros Hrun Hrun'.
  apply bind_Done in Hrun as (path & Hpath & Hrun).
  rewrite Hpath in Hrun'. simpl in Hrun'. by eapply create_result_clock.
Qed.

Lemma search_deterministic tentative priority fuel fuel' self start goal
    t0 t1 t0' t1' algorithm r r' :
  search_loop tentative priority fuel (grid self) goal (start_frontier start)
    ≫= finish fuel self start goal t0 t1 algorithm = Done r →
  search_loop tentative priority fuel' (grid self) goal (start_frontier start)
    ≫= finish fuel' self start goal t0' t1' algorithm = Done r' →
  same_route r r'.
Proof.
  intros Hrun Hrun'.
  apply bind_Done in Hrun as (st & Hloop & Hfin).
  apply bind_Done in Hrun' as (st' & Hloop' & Hfin').
  apply (search_loop_more_fuel _ _ _ (fuel `max` fuel')%nat) in Hloop; [|lia].
  apply (search_loop_more_fuel _ _ _ (fuel `max` fuel')%nat) in Hloop'; [|lia].
  rewrite Hloop in Hloop'. simplify_eq.
  apply (finish_more_fuel _ (fuel `max` fuel')%nat) in Hfin; [|lia].
  apply (finish_more_fuel _ (fuel `max` fuel')%nat) in Hfin'; [|lia].
  by eapply finish_clock.
Qed.

Lemma lookup_key_nonneg (score : gmap (Z * Z) float) k g :
  (∀ k g, score !! k = Some g → nonneg g) → Py.lookup_key score k = Done g → nonneg g.
Proof.
  intros Hscore. unfold Py.lookup_key. destruct (score !! k) as [g'|] eqn:Hk; [|done].
  intros [= <-]. by eapply Hscore.
Qed.

Lemma dijkstra_costs_nonneg self (h : Cell.t → float) :
  NavigationGrid.wf (grid self) →
  (∀ a b, step (grid self) a b →
     nonneg (NavigationGrid.get_movement_cost (grid self) a b)) →
  (∀ a, sea (grid self) a → nonneg (h a)) →
  ∀ (score : gmap (Z * Z) float) current n v,
    step (grid self) current n → (∀ k g, score !! k = Some g → nonneg g) →
    dijkstra_tentative self score current n = Done v → nonneg v ∧ nonneg (v + h n).
Proof.
  intros Hwf Hmove Hh score current n v Hstep Hscore Hrun.
  unfold dijkstra_tentative in Hrun.
  apply bind_Done in Hrun as (g & Hg%lookup_key_nonneg & Hrun); [|done]. simplify_eq.
  assert (nonneg (g + NavigationGrid.get_movement_cost (grid self) current n)) as Hv
    by (apply add_nonneg; auto).
  split; [done|]. apply add_nonneg; [done|]. apply Hh. by eapply step_sea.
Qed.

Lemma weather_costs_nonneg self w (h : Cell.t → float) :
  NavigationGrid.wf (grid self) →
  (∀ a b v, step (grid self) a b →
     WeatherSystem.calculate_weather_cost w b (heading a b) = Done v →
     nonneg (NavigationGrid.get_distance (grid self) a b * v)) →
  (∀ a, sea (grid self) a → nonneg (h a)) →
  ∀ (score : gmap (Z * Z) float) current n v,
    step (grid self) current n → (∀ k g, score !! k = Some g → nonneg g) →
    weather_tentative self w score current n = Done v → nonneg v ∧ nonneg (v + h n).
Proof.
  intros Hwf Hmove Hh score current n v Hstep Hscore Hrun.
  unfold weather_tentative in Hrun.
  apply bind_Done in Hrun as (wc & Hwc & Hrun).
  apply bind_Done in Hrun as (g & Hg%lookup_key_nonneg & Hrun); [|done]. simplify_eq.
  assert (nonneg (g + NavigationGrid.get_distance (grid self) current n * wc)) as Hv
    by (apply add_nonneg; eauto).
  split; [done|]. apply add_nonneg; [done|]. apply Hh. by eapply step_sea.
Qed.

Lemma fuel_costs_nonneg self w (h : Cell.t → float) :
  NavigationGrid.wf (grid self) →
  (∀ a b v, step (grid self) a b →
     WeatherSystem.calculate_weather_cost w b (heading a b) = Done v →
     nonneg (WeatherSystem.get_fuel_consumption
               (NavigationGrid.get_distance (grid self) a b) v (ship_speed_knots self))) →
  (∀ a, sea (grid self) a → nonneg (h a)) →
  ∀ (score : gmap (Z * Z) float) current n v,
    step (grid self) current n → (∀ k g, score !! k = Some g → nonneg g) →
    fuel_tentative self w score current n = Done v → nonneg v ∧ nonneg (v + h n).
Proof.
  intros Hwf Hmove Hh score current n v Hstep Hscore Hrun.
  unfold fuel_tentative in Hrun.
  apply bind_Done in Hrun as (wc & Hwc & Hrun).
  apply bind_Done in Hrun as (g & Hg%lookup_key_nonneg & Hrun); [|done]. simplify_eq.
  assert (nonneg (g + WeatherSystem.get_fuel_consumption
            (NavigationGrid.get_distance (grid self) current n) wc (ship_speed_knots self)))
    as Hv by (apply add_nonneg; eauto).
  split; [done|]. apply add_nonneg; [done|]. apply Hh. by eapply step_sea.
Qed.

(** C9: for a fixed router (grid and weather), start and goal, two runs of
    the same search of [ShipRouter] that return, whatever their wall-clock
    readings and their fuel, return the same path, distance, cost, fuel, time
    and number of nodes explored.  Ties are broken first in, first out: two
    frontier entries of equal priority are ordered by their counters, a
    neighbour is pushed, with the next counter, exactly when it has no score
    yet or a better one, and, when the costs of the steps and the
    heuristic values are numbers at or above zero, in every state the loop
    of [dijkstra], [a_star], [weather_aware_astar] or [fuel_optimized]
    passes through [heappop] answers with the least entry of the frontier:
    each entry left has a greater priority, or the same priority and a
    greater counter, that is a later push. *)
Theorem searches_deterministic (self : t) (start goal : Cell.t)
  (fuel fuel' : nat) (t0 t1 t0' t1' : float) :
  (∀ r r', dijkstra fuel self start goal t0 t1 = Done r →
           dijkstra fuel' self start goal t0' t1' = Done r' → same_route r r') ∧
  (∀ r r', a_star fuel self start goal t0 t1 = Done r →
           a_star fuel' self start goal t0' t1' = Done r' → same_route r r') ∧
  (∀ r r', weather_aware_astar fuel self start goal t0 t1 = Done r →
           weather_aware_astar fuel' self start goal t0' t1' = Done r' → same_route r r') ∧
  (∀ r r', fuel_optimized fuel self start goal t0 t1 = Done r →
           fuel_optimized fuel' self start goal t0' t1' = Done r' → same_route r r') ∧
  (∀ p1 n1 c1 p2 n2 c2, PrimFloat.eqb p1 p2 = true → n1 ≠ n2 →
     entry_lt (p1, n1, c1) (p2, n2, c2) = Done (bool_decide (n1 < n2))) ∧
  (∀ tentative priority current st n st',
     relax tentative priority current st n = Done st' →
     ∃ v, tentative (score st) current n = Done v ∧
       if match score st !! Cell.key n with
          | None => true
          | Some old => PrimFloat.ltb v old
          end
       then counter st' = counter st + 1 ∧
            pq st' ≡ₚ (priority v n, counter st + 1, n) :: pq st
       else st' = st) ∧
  (NavigationGrid.wf (grid self) →
   (∀ a b, step (grid self) a b →
      nonneg (NavigationGrid.get_movement_cost (grid self) a b)) →
   (∀ a, sea (grid self) a → nonneg (NavigationGrid.get_distance (grid self) a goal)) →
   fifo (grid self) (dijkstra_tentative self) (λ new_cost _, new_cost) start goal ∧
   fifo (grid self) (dijkstra_tentative self)
     (λ tentative_g neighbor,
        tentative_g + NavigationGrid.get_distance (grid self) neighbor goal)%float
     start goal) ∧
  (∀ w, weather self = Some w →
   NavigationGrid.wf (grid self) →
   (∀ a b v, step (grid self) a b →
      WeatherSystem.calculate_weather_cost w b (heading a b) = Done v →
      nonneg (NavigationGrid.get_distance (grid self) a b * v) ∧
      nonneg (WeatherSystem.get_fuel_consumption
                (NavigationGrid.get_distance (grid self) a b) v (ship_speed_knots self))) →
   (∀ a, sea (grid self) a →
      nonneg (NavigationGrid.get_distance (grid self) a goal) ∧
      nonneg (WeatherSystem.get_fuel_consumption
                (NavigationGrid.get_distance (grid self) a goal) 1.0 (ship_speed_knots self))) →
   fifo (grid self) (weather_tentative self w)
     (λ tentative_g neighbor,
        tentative_g + NavigationGrid.get_distance (grid self) neighbor goal)%float
     start goal ∧
   fifo (grid self) (fuel_tentative self w)
     (λ tentative_fuel neighbor,
        tentative_fuel +
        WeatherSystem.get_fuel_consumption
          (NavigationGrid.get_distance (grid self) neighbor goal) 1.0 (ship_speed_knots self))%float
     start goal).
Proof.
  assert (∀ r r', a_star fuel self start goal t0 t1 = Done r →
           a_star fuel' self start goal t0' t1' = Done r' → same_route r r') as Ha.
  { intros r r'. apply search_deterministic. }
  split_and!.
  - intros r r'. apply search_deterministic.
  - exact Ha.
  - unfold weather_aware_astar. destruct (weather self); [|exact Ha].
    intros r r'. apply search_deterministic.
  - unfold fuel_optimized. destruct (weather self); [|exact Ha].
    intros r r'. apply search_deterministic.
  - intros p1 n1 c1 p2 n2 c2 Hp Hn. unfold entry_lt. rewrite Hp. simpl.
    by rewrite bool_decide_false.
  - intros tentative priority current st n st' Hrun. unfold relax in Hrun.
    apply bind_Done in Hrun as (v & Hv & Hrun). exists v. split; [done|].
    destruct (match score st !! Cell.key n with None => true | Some old => _ end);
      [|by simplify_eq].
    apply bind_Done in Hrun as (pq' & Hpush%heappush_perm & Hrun). by simplify_eq.
  - intros Hwf Hmove Hh. split; apply passes_fifo.
    + intros score current n v Hstep Hscore Hrun.
      destruct (dijkstra_costs_nonneg self _ Hwf Hmove Hh _ _ _ _ Hstep Hscore Hrun). done.
    + by apply dijkstra_costs_nonneg.
  - intros w _ Hwf Hmove Hh. split; apply passes_fifo.
    + apply weather_costs_nonneg; [done| |by intros a [? _]%Hh].
      intros a b v Hstep Hv. by destruct (Hmove a b v).
    + apply fuel_costs_nonneg; [done| |by intros a [_ ?]%Hh].
      intros a b v Hstep Hv. by destruct (Hmove a b v).
Qed.

End determinism.

Lemma strait_grid_wf : NavigationGrid.wf strait_grid.
Proof.
  unfold strait_grid.
  destruct (set_land_region_marks (NavigationGrid.new 5 5 10.0) 2 0 2 3 (new_wf 5 5 10.0))
    as (g & -> & Hm). apply Hm.
Qed.

(** The cells of a grid are those of its storage. *)
Lemma sea_stored grid c : sea grid c → c ∈ concat (NavigationGrid.grid grid).
Proof.
  intros [Hat _]. unfold NavigationGrid.at_ in Hat. case_bool_decide; [|done].
  destruct (NavigationGrid.grid grid !! Z.to_nat (Cell.x c)) as [col|] eqn:Hcol; [|done].
  simpl in Hat. apply list_elem_of_In, in_concat. exists col.
  split; apply list_elem_of_In; by eapply list_elem_of_lookup_2.
Qed.

Lemma step_stored grid a b :
  NavigationGrid.wf grid → step grid a b →
  b ∈ concat (NavigationGrid.grid grid) ∧
  ∃ d, d ∈ NavigationGrid.directions true ∧
    Cell.x a = Cell.x b - d.1 ∧ Cell.y a = Cell.y b - d.2.
Proof.
  intros Hwf Hstep. split; [by eapply sea_stored, step_sea|].
  apply (step_iff _ Hwf) in Hstep as (d & Hd & Hat & _). exists d. split; [done|].
  apply at_key in Hat; [|done]. injection Hat as Hx Hy. lia.
Qed.

(** A tie on the strait: after the first turn of [dijkstra] from (0,0), the
    cells (0,1) and (1,0) wait with the same priority 10.0, pushed first and
    second; the pop hands out the one pushed first. *)
Lemma strait_tie :
  let self := ShipRouter.mk strait_grid (Some (WeatherSystem.new strait_grid)) 20.0 in
  ∃ st rest,
    passes strait_grid (ShipRouter.dijkstra_tentative self) (λ new_cost _, new_cost)
      (Cell.new 0 0) (Cell.new 4 0) st ∧
    heapq.heappop ShipRouter.entry_lt (ShipRouter.pq st)
      = Done (10.0%float, 1, Cell.new 0 1, rest) ∧
    (10.0%float, 2, Cell.new 1 0) ∈ rest.
Proof.
  intros self.
  set (start := Cell.new 0 0).
  set (ns := [Cell.new 0 1; Cell.new 1 0; Cell.new 1 1]).
  set (st0 := ShipRouter.Frontier [] (ShipRouter.came_from (ShipRouter.start_frontier start))
                (ShipRouter.score (ShipRouter.start_frontier start)) 1 0).
  set (st1 := match ShipRouter.relax_all (ShipRouter.dijkstra_tentative self)
                      (λ new_cost _, new_cost) start st0 ns with
              | Done st => st
              | _ => st0
              end).
  exists st1. eexists. split_and!.
  - eapply rtc_l; [|apply rtc_refl].
    exists 0%float, 0, start, [], ns. split_and!; by vm_compute.
  - vm_compute. reflexivity.
  - apply list_elem_of_In. simpl. auto.
Qed.

Lemma searches_deterministic_witness :
  let self := ShipRouter.mk strait_grid (Some (WeatherSystem.new strait_grid)) 20.0 in
  let start := Cell.new 0 0 in
  let goal := Cell.new 4 0 in
  (∃ r r',
     ShipRouter.dijkstra (libm := still_libm) 100 self start goal 0 1 = Done r ∧
     ShipRouter.dijkstra (libm := still_libm) 200 self start goal 5 9 = Done r' ∧
     same_route r r') ∧
  fifo strait_grid (ShipRouter.dijkstra_tentative self) (λ new_cost _, new_cost) start goal ∧
  fifo strait_grid (ShipRouter.weather_tentative (libm := still_libm) self
                      (WeatherSystem.new strait_grid))
    (λ tentative_g neighbor,
       tentative_g + NavigationGrid.get_distance strait_grid neighbor goal)%float
    start goal ∧
  ∃ st rest,
    passes strait_grid (ShipRouter.dijkstra_tentative self) (λ new_cost _, new_cost)
      start goal st ∧
    heapq.heappop ShipRouter.entry_lt (ShipRouter.pq st)
      = Done (10.0%float, 1, Cell.new 0 1, rest) ∧
    (10.0%float, 2, Cell.new 1 0) ∈ rest.
Proof.
  intros self start goal.
  pose proof (searches_deterministic (libm := still_libm) self start goal 100 200 0 1 5 9)
    as (Hsame & _ & _ & _ & _ & _ & Hfifo & Hfifo_weather).
  set (cells := concat (NavigationGrid.grid strait_grid)).
  assert (forallb (λ b, forallb (λ d : Z * Z,
            let a := Cell.new (Cell.x b - d.1) (Cell.y b - d.2) in
            PrimFloat.leb 0 (NavigationGrid.get_movement_cost strait_grid a b) &&
            match WeatherSystem.calculate_weather_cost (H := still_libm)
                    (WeatherSystem.new strait_grid) b (ShipRouter.heading (H := still_libm) a b) with
            | Done v =>
                PrimFloat.leb 0 (NavigationGrid.get_distance strait_grid a b * v) &&
                PrimFloat.leb 0 (WeatherSystem.get_fuel_consumption
                                   (NavigationGrid.get_distance strait_grid a b) v 20.0)
            | _ => true
            end) (NavigationGrid.directions true) &&
            PrimFloat.leb 0 (NavigationGrid.get_distance strait_grid b goal) &&
            PrimFloat.leb 0 (WeatherSystem.get_fuel_consumption
                               (NavigationGrid.get_distance strait_grid b goal) 1.0 20.0))
          cells = true) as Hcheck by (vm_compute; reflexivity).
  rewrite forallb_forall in Hcheck.
  assert (∀ a b, step strait_grid a b →
            nonneg (NavigationGrid.get_movement_cost strait_grid a b) ∧
            ∀ v, WeatherSystem.calculate_weather_cost (H := still_libm)
                   (WeatherSystem.new strait_grid) b (ShipRouter.heading (H := still_libm) a b)
                 = Done v →
              nonneg (NavigationGrid.get_distance strait_grid a b * v) ∧
              nonneg (WeatherSystem.get_fuel_consumption
                        (NavigationGrid.get_distance strait_grid a b) v 20.0)) as Hsteps.
  { intros a b (Hb & d & Hd & Hx & Hy)%(step_stored _ _ _ strait_grid_wf).
    apply list_elem_of_In, Hcheck in Hb. apply andb_true_iff in Hb as [Hb _].
    apply andb_true_iff in Hb as [Hb _]. rewrite forallb_forall in Hb.
    apply list_elem_of_In, Hb in Hd. cbv zeta in Hd.
    destruct a as [ax ay ? ? ?]. simpl in Hx, Hy. subst ax ay.
    apply andb_true_iff in Hd as [Hmove Hweather]. split; [exact Hmove|].
    intros v Hv.
    change (WeatherSystem.calculate_weather_cost (H := still_libm)
              (WeatherSystem.new strait_grid) b
              (ShipRouter.heading (H := still_libm)
                 (Cell.new (Cell.x b - d.1) (Cell.y b - d.2)) b) = Done v) in Hv.
    rewrite Hv in Hweather. apply andb_true_iff in Hweather as [? ?]. by split. }
  assert (∀ a, sea strait_grid a →
            nonneg (NavigationGrid.get_distance strait_grid a goal) ∧
            nonneg (WeatherSystem.get_fuel_consumption
                      (NavigationGrid.get_distance strait_grid a goal) 1.0 20.0)) as Hsea.
  { intros a Ha%sea_stored. apply list_elem_of_In, Hcheck in Ha.
    apply andb_true_iff in Ha as [Ha Hfuel]. apply andb_true_iff in Ha as [_ Hdist].
    by split. }
  split_and!.
  - eexists _, _. split_and!; [vm_compute; reflexivity..|].
    eapply Hsame; vm_compute; reflexivity.
  - apply Hfifo; [apply strait_grid_wf|by intros a b [? _]%Hsteps|by intros a [? _]%Hsea].
  - eapply (Hfifo_weather _ eq_refl); [apply strait_grid_wf| |exact Hsea].
    intros a b v [_ Hv]%Hsteps. exact (Hv v).
  - exact strait_tie.
Defined.

(** ** A route is a walk from the start to the goal *)

(** Each cell of the list is a neighbour of the one before it. *)
Fixpoint walk (grid : NavigationGrid.t) (path : list Cell.t) : Prop :=
  match path with
  | a :: (b :: _) as rest => step grid a b ∧ walk grid rest
  | _ => True
  end.

Lemma sea_key_eq grid a b : sea grid a → sea grid b → Cell.key a = Cell.key b → a = b.
Proof.
  intros [Ha _] [Hb _] [= Hx Hy]. rewrite Hx, Hy in Ha. by simplify_eq.
Qed.

Section skeleton_walk.
Import ShipRouter.
Variable grid : NavigationGrid.t.
Hypothesis grid_wf : NavigationGrid.wf grid.
Variable start : Cell.t.
Hypothesis start_sea : sea grid start.
Variable tentative : gmap (Z * Z) float → Cell.t → Cell.t → outcome float.
Variable priority : float → Cell.t → float.

(** The predecessor dict leads back to the start: only the start has no
    predecessor, and a predecessor is a cell of the grid with an entry of its
    own, one step before the cell at the key. *)
Definition leads_back (came_from : gmap (Z * Z) (option Cell.t)) : Prop :=
  (∀ k, came_from !! k = Some None → k = Cell.key start) ∧
  (∀ k p, came_from !! k = Some (Some p) →
     sea grid p ∧ is_Some (came_from !! Cell.key p) ∧
     ∃ n, step grid p n ∧ Cell.key n = k).

Definition anchored (st : frontier) : Prop :=
  Forall (λ e : entry, sea grid e.2 ∧ is_Some (came_from st !! Cell.key e.2)) (pq st) ∧
  leads_back (came_from st).

Lemma start_frontier_anchored : anchored (start_frontier start).
Proof.
  split; simpl.
  - apply Forall_singleton. simpl. split; [done|]. rewrite lookup_singleton_eq. by eexists.
  - split.
    + by intros k [<- _]%lookup_singleton_Some.
    + by intros k p [_ ?]%lookup_singleton_Some.
Qed.

Lemma relax_anchored current st n st' :
  relax tentative priority current st n = Done st' →
  sea grid current → is_Some (came_from st !! Cell.key current) → step grid current n →
  anchored st → anchored st' ∧ is_Some (came_from st' !! Cell.key current).
Proof.
  unfold relax. intros Hrun Hcur Hhas Hstep [Hpq [Hnone Hsome]].
  apply bind_Done in Hrun as (new_cost & _ & Hrun).
  destruct (match score st !! Cell.key n with None => true | Some old => _ end);
    [|by simplify_eq].
  apply bind_Done in Hrun as (pq' & Hpush%heappush_perm & Hrun). simplify_eq.
  split; [|simpl; by apply lookup_insert_is_Some'; right].
  split; simpl.
  - rewrite Hpush. apply Forall_cons. split.
    + simpl. split; [by eapply step_sea|]. rewrite lookup_insert_eq. by eexists.
    + eapply Forall_impl; [exact Hpq|]. simpl. intros e [? ?]. split; [done|].
      by apply lookup_insert_is_Some'; right.
  - split.
    + intros k. rewrite lookup_insert. case_decide; [done|]. apply Hnone.
    + intros k p. rewrite lookup_insert. case_decide as Hk.
      * intros [= <-]. split_and!; [done| |by exists n].
        by apply lookup_insert_is_Some'; right.
      * intros (? & ? & ?)%Hsome. split_and!; [done| |done].
        by apply lookup_insert_is_Some'; right.
Qed.

Lemma relax_all_anchored current st ns st' :
  relax_all tentative priority current st ns = Done st' →
  sea grid current → is_Some (came_from st !! Cell.key current) →
  Forall (step grid current) ns → anchored st → anchored st'.
Proof.
  revert st. induction ns as [|n ns IH]; intros st Hrun Hcur Hhas Hns Hst; simpl in Hrun.
  { by simplify_eq. }
  apply Forall_cons in Hns as [Hn Hns].
  apply bind_Done in Hrun as (st1 & Hst1 & Hrun).
  eapply relax_anchored in Hst1 as [Hst1 Hhas1]; [|done..].
  by eapply IH.
Qed.

Lemma search_loop_anchored fuel goal st st' :
  search_loop tentative priority fuel grid goal st = Done st' →
  anchored st → anchored st'.
Proof.
  revert st. induction fuel as [|fuel IH]; intros st Hrun Hst; simpl in Hrun.
  { destruct (pq st); by simplify_eq. }
  destruct (pq st) as [|e0 pq0] eqn:Hpq; [by simplify_eq|]. rewrite <- Hpq in Hrun.
  apply bind_Done in Hrun as ([[[p n] current] pq'] & Hpop%heappop_perm & Hrun).
  destruct Hst as [Hall Hcf]. rewrite Hpop in Hall.
  apply Forall_cons in Hall as [[Hcur Hhas] Hpq'].
  destruct (Cell.eqb current goal); [by simplify_eq|].
  apply bind_Done in Hrun as (ns & Hns & Hrun).
  apply bind_Done in Hrun as (st1 & Hst1 & Hrun).
  eapply IH; [done|]. eapply relax_all_anchored; [done..| |by split].
  apply Forall_forall. intros b Hb. by exists ns.
Qed.

(** Following the predecessors from a cell of the grid: the cells come out
    last first, each one step after the next, down to the start. *)
Lemma follow_walk fuel came_from c acc path :
  follow fuel came_from (Some c) acc = Done path →
  leads_back came_from → sea grid c → walk grid (c :: reverse acc) →
  Forall (sea grid) acc →
  walk grid (reverse path) ∧ head (reverse path) = Some start ∧
  last (reverse path) = last (c :: reverse acc) ∧ Forall (sea grid) path.
Proof.
  revert c acc. induction fuel as [|fuel IH]; intros c acc Hrun Hcf Hc Hwalk Hacc; [done|].
  simpl in Hrun. apply bind_Done in Hrun as (next & Hnext & Hrun).
  unfold Py.lookup_key in Hnext.
  destruct (came_from !! Cell.key c) as [o|] eqn:Hk; [|done]. simplify_eq.
  assert (Forall (sea grid) (acc ++ [c])) as Hacc'.
  { apply Forall_app. split; [done|]. by apply Forall_singleton. }
  destruct next as [p|].
  - destruct Hcf as [Hnone Hsome]. destruct (Hsome _ _ Hk) as (Hp & Hhas & n & Hstep & Hn).
    assert (n = c) as ->.
    { apply (sea_key_eq grid); [by eapply step_sea|done..]. }
    apply IH in Hrun as (Hw & Hh & Hl & Hall); [|done..| |done].
    + split_and!; [done..| |done]. rewrite Hl, reverse_app. done.
    + rewrite reverse_app. simpl. by split.
  - rewrite follow_None in Hrun. simplify_eq.
    rewrite reverse_app. simpl. split_and!; [done| |done..].
    f_equal. apply (sea_key_eq grid); [done..|]. destruct Hcf as [Hnone _]. by apply Hnone.
Qed.

Lemma reconstruct_path_walk fuel came_from goal path :
  _reconstruct_path fuel came_from start goal = Done path →
  leads_back came_from → sea grid goal →
  path = [] ∨
  head path = Some start ∧ last path = Some goal ∧ walk grid path ∧ Forall (sea grid) path.
Proof.
  unfold _reconstruct_path. intros Hrun Hcf Hgoal.
  destruct (came_from !! Cell.key goal); [|left; by simplify_eq].
  apply bind_Done in Hrun as (path0 & Hfollow & Hrun). simplify_eq. right.
  apply follow_walk in Hfollow as (Hw & Hh & Hl & Hall); [|done..].
  split_and!; [done..|]. by apply Forall_reverse.
Qed.

End skeleton_walk.

(** With more fuel a search that has answered, with a result or with an
    exception, answers the same. *)
Lemma search_loop_settled tentative priority fuel fuel' grid goal st :
  ShipRouter.search_loop tentative priority fuel grid goal st ≠ NoFuel →
  (fuel ≤ fuel')%nat →
  ShipRouter.search_loop tentative priority fuel' grid goal st
  = ShipRouter.search_loop tentative priority fuel grid goal st.
Proof.
  revert fuel' st. induction fuel as [|fuel IH]; intros fuel' st Hrun Hle.
  { destruct fuel'; simpl in *; destruct (ShipRouter.pq st); done. }
  destruct fuel' as [|fuel']; [lia|]. simpl in *.
  destruct (ShipRouter.pq st) as [|e0 pq0]; [done|].
  destruct (heapq.heappop _ _) as [[[[p n] current] pq']| |]; simpl in *; [|done..].
  destruct (Cell.eqb current goal); [done|].
  destruct (NavigationGrid.get_neighbors _ _ _) as [ns| |]; simpl in *; [|done..].
  destruct (ShipRouter.relax_all _ _ _ _ _) as [st2| |]; simpl in *; [|done..].
  apply IH; [done|lia].
Qed.

Section routes_walk.
Context {libm : Libm}.
Import ShipRouter.
Variable self : t.
Hypothesis grid_wf : NavigationGrid.wf (grid self).
Variables start goal : Cell.t.
Hypothesis start_sea : sea (grid self) start.
Hypothesis goal_sea : sea (grid self) goal.

Lemma search_walk tentative priority fuel t0 t1 algorithm r :
  search_loop tentative priority fuel (grid self) goal (start_frontier start)
    ≫= finish fuel self start goal t0 t1 algorithm = Done r →
  RouteResult.path r = [] ∨
  head (RouteResult.path r) = Some start ∧ last (RouteResult.path r) = Some goal ∧
  walk (grid self) (RouteResult.path r).
Proof.
  intros Hrun. apply bind_Done in Hrun as (st & Hloop & Hfin).
  apply (search_loop_anchored (grid self) grid_wf start) in Hloop as [_ Hcf];
    [|by apply start_frontier_anchored].
  unfold finish in Hfin. apply bind_Done in Hfin as (path & Hpath & ->%create_result_path).
  eapply reconstruct_path_walk in Hpath as [->|(? & ? & ? & _)]; [by left|by right|done..].
Qed.

Lemma fuel_legs_answers w fuel path :
  weather_covers (grid self) w → Forall (sea (grid self)) path →
  ∃ f, fuel_legs self w fuel path = Done f.
Proof.
  intros Hw. revert fuel. induction path as [|a path IH]; intros fuel Hpath; [by eexists|].
  destruct path as [|b path]; [by eexists|]. simpl.
  apply Forall_cons in Hpath as [_ Hpath]. pose proof Hpath as [Hb _]%Forall_cons.
  destruct (calculate_weather_cost_answers (grid self) w b (heading a b)) as [v ->];
    [done..|].
  simpl. by apply IH.
Qed.

Lemma follow_answers fuel came_from c acc e :
  leads_back (grid self) start came_from → is_Some (came_from !! Cell.key c) →
  follow fuel came_from (Some c) acc ≠ Raised e.
Proof.
  intros Hcf. revert c acc. induction fuel as [|fuel IH]; intros c acc [o Hk]; [done|].
  simpl. unfold Py.lookup_key. rewrite Hk. simpl. destruct o as [p|].
  - apply IH. destruct Hcf as [_ Hsome]. by destruct (Hsome _ _ Hk) as (_ & ? & _).
  - by rewrite follow_None.
Qed.

Lemma finish_answers fuel t0 t1 algorithm st e :
  (∀ w, weather self = Some w → weather_covers (grid self) w) →
  leads_back (grid self) start (came_from st) →
  finish fuel self start goal t0 t1 algorithm st ≠ Raised e.
Proof.
  intros Hweather Hcf. unfold finish.
  destruct (_reconstruct_path fuel (came_from st) start goal) as [path| |] eqn:Hpath;
    simpl; [| |done].
  - assert (Forall (sea (grid self)) path) as Hall.
    { eapply reconstruct_path_walk in Hpath as [->|(_ & _ & _ & ?)]; done. }
    unfold _create_result. destruct path as [|c path]; [done|].
    destruct (weather self) as [w|]; [|done].
    by destruct (fuel_legs_answers w 0.0%float (c :: path) (Hweather w eq_refl) Hall)
      as [f ->].
  - unfold _reconstruct_path in Hpath.
    destruct (came_from st !! Cell.key goal) eqn:Hk; [|done].
    destruct (follow fuel (came_from st) (Some goal) []) eqn:Hf; simplify_eq/=.
    by eapply follow_answers in Hf.
Qed.

Lemma search_answers tentative priority fuel t0 t1 algorithm e :
  (∀ w, weather self = Some w → weather_covers (grid self) w) →
  (∀ (score : gmap (Z * Z) float) current n,
     is_Some (score !! Cell.key current) → sea (grid self) n →
     ∃ v, tentative score current n = Done v) →
  search_loop tentative priority fuel (grid self) goal (start_frontier start)
    ≫= finish fuel self start goal t0 t1 algorithm ≠ Raised e.
Proof.
  intros Hweather Htent.
  set (st0 := start_frontier start).
  set (fuel0 := S (Z.to_nat (measure (grid self) start st0))).
  destruct (search_loop_returns (grid self) grid_wf start tentative priority Htent fuel0 goal st0)
    as (st' & Hrun & _).
  { apply start_frontier_sound. }
  { pose proof (measure_nonneg (grid self) start st0). lia. }
  destruct (search_loop tentative priority fuel (grid self) goal st0) as [st| |] eqn:Hloop;
    simpl; [| |done].
  - apply finish_answers; [done|].
    by apply (search_loop_anchored (grid self) grid_wf start) in Hloop as [_ Hcf];
      [|apply start_frontier_anchored].
  - exfalso.
    pose proof (search_loop_settled tentative priority fuel (fuel `max` fuel0) (grid self)
                  goal st0) as Hmore.
    rewrite Hloop in Hmore.
    rewrite (search_loop_more_fuel _ _ _ _ _ _ _ _ Hrun) in Hmore by lia.
    by specialize (Hmore ltac:(done) ltac:(lia)).
Qed.

End routes_walk.

Section routes_theorems.
Context {libm : Libm}.




End routes_theorems.




(** ** The grid: cells read back, neighbours *)

Section grid_reads.
Import NavigationGrid.


Lemma neighbors_from_length g cell dirs ns :
  neighbors_from g cell dirs = Done ns → (length ns ≤ length dirs)%nat.
Proof.
  revert ns. induction dirs as [|[dx dy] dirs IH]; intros ns Hrun; simpl in Hrun.
  { by simplify_eq. }
  apply bind_Done in Hrun as (neighbor & _ & Hrun).
  apply bind_Done in Hrun as (rest & Hrest%IH & Hrun).
  destruct neighbor as [n|]; simplify_eq/=; [|lia]. destruct (Cell.is_land n); simpl; lia.
Qed.



End grid_reads.



(** ** The population optimizer: what every route keeps *)

Section route_invariant.
Import GeneticRouteOptimizer.
Context {libm : Libm}.
Variable tape : nat → Z.
Variables start goal : Cell.t.

(** A property of waypoint lists that holds of [start], some water cells,
    [goal], and that a crossover and the three mutations preserve. *)
Variable good : list Cell.t → Prop.
Hypothesis good_initial : ∀ mids,
  (length mids ≤ 15)%nat → Forall water mids → good ([start] ++ mids ++ [goal]).
Hypothesis good_cross : ∀ p1 p2 point,
  good p1 → good p2 → (1 ≤ point)%nat → (point < length p1)%nat → (point < length p2)%nat →
  good (take point p1 ++ drop point p2).
Hypothesis good_modify : ∀ wps idx c,
  good wps → (1 ≤ idx)%nat → (idx + 2 ≤ length wps)%nat → water c → good (<[idx := c]> wps).
Hypothesis good_add : ∀ wps idx c,
  good wps → (length wps < 20)%nat → (1 ≤ idx)%nat → (idx < length wps)%nat → water c →
  good (take idx wps ++ c :: drop idx wps).
Hypothesis good_remove : ∀ wps idx,
  good wps → (3 < length wps)%nat → (1 ≤ idx)%nat → (idx + 2 ≤ length wps)%nat →
  good (delete idx wps).

(** Every route object allocated so far has the property. *)
Definition stored (m : mem) : Prop :=
  Forall (λ r, good (Route.waypoints r)) (objects m).

(** A computation that keeps [stored] and answers within [Q]. *)
Definition keeps {A} (c : M A) (Q : A → Prop) : Prop :=
  ∀ m a m', c m = Done (a, m') → stored m → stored m' ∧ Q a.

Lemma keeps_ret {A} (a : A) (Q : A → Prop) : Q a → keeps (mret a) Q.
Proof. intros HQ m a' m' [= <- <-] Hm. done. Qed.

Lemma keeps_bind {A B} (c : M A) (f : A → M B) (Q : A → Prop) (R : B → Prop) :
  keeps c Q → (∀ a, Q a → keeps (f a) R) → keeps (c ≫= f) R.
Proof.
  intros Hc Hf m b m' Hrun Hm. unfold mbind, M_bind in Hrun.
  destruct (c m) as [[a m1]| |] eqn:Hcm; [|done..].
  destruct (Hc _ _ _ Hcm Hm) as [Hm1 Ha]. by eapply Hf.
Qed.

Lemma keeps_weaken {A} (c : M A) (Q R : A → Prop) :
  keeps c Q → (∀ a, Q a → R a) → keeps c R.
Proof. intros Hc HQR m a m' Hrun Hm. destruct (Hc _ _ _ Hrun Hm). auto. Qed.

Lemma keeps_lift {A} (o : outcome A) (Q : A → Prop) :
  (∀ a, o = Done a → Q a) → keeps (lift o) Q.
Proof. intros HQ m a m' Hrun Hm. destruct o; simplify_eq/=. auto. Qed.

Lemma keeps_draw : keeps (draw tape) (λ _, True).
Proof. by intros m a m' [= <- <-] Hm. Qed.

Lemma keeps_randint a b : keeps (randint tape a b) (λ v, a ≤ v ≤ b).
Proof.
  unfold randint. case_bool_decide as Hab; [by apply keeps_lift|].
  eapply keeps_bind; [apply keeps_draw|]. intros v _. apply keeps_ret.
  pose proof (Z.mod_pos_bound v (b - a + 1)). lia.
Qed.

Lemma keeps_random : keeps (random tape) (λ _, True).
Proof. eapply keeps_bind; [apply keeps_draw|]. intros. by apply keeps_ret. Qed.

Lemma keeps_choice {A} (seq : list A) : keeps (choice tape seq) (λ _, True).
Proof.
  unfold choice. destruct seq; [by apply keeps_lift|].
  eapply keeps_bind; [apply keeps_draw|]. intros. by apply keeps_lift.
Qed.

Lemma keeps_sample {A} (population : list A) k : keeps (sample tape population k) (λ _, True).
Proof.
  unfold sample. destruct (bool_decide _); [by apply keeps_lift|].
  revert population. induction k as [|k IH]; intros pool; simpl; [by apply keeps_ret|].
  eapply keeps_bind; [apply keeps_draw|]. intros v _.
  eapply (keeps_bind _ _ (λ _, True)); [by apply keeps_lift|]. intros a _.
  eapply (keeps_bind _ _ (λ _, True)); [by apply keeps_lift|]. intros z _.
  eapply keeps_bind; [apply IH|]. intros. by apply keeps_ret.
Qed.

Lemma keeps_get ref : keeps (get ref) (λ r, good (Route.waypoints r)).
Proof.
  intros m r m' Hrun Hm. unfold get in Hrun.
  destruct (objects m !! ref) eqn:Href; simplify_eq. split; [done|].
  by eapply (Forall_lookup_1 _ _ _ _ Hm).
Qed.

Lemma keeps_put ref r : good (Route.waypoints r) → keeps (put ref r) (λ _, True).
Proof.
  intros Hr m [] m' [= <-] Hm. split; [|done]. by apply Forall_insert.
Qed.

Lemma keeps_alloc r : good (Route.waypoints r) → keeps (alloc r) (λ _, True).
Proof.
  intros Hr m ref m' [= <- <-] Hm. split; [|done].
  apply Forall_app. split; [done|]. by apply Forall_singleton.
Qed.

Lemma keeps_for_ {V} (vs : list V) (body : V → M unit) :
  (∀ v, keeps (body v) (λ _, True)) → keeps (for_ vs body) (λ _, True).
Proof.
  intros Hbody. induction vs as [|v vs IH]; simpl; [by apply keeps_ret|].
  eapply keeps_bind; [apply Hbody|]. intros _ _. apply IH.
Qed.

Lemma keeps_collect {V W} (vs : list V) (body : V → M W) (Q : W → Prop) :
  (∀ v, keeps (body v) Q) →
  keeps (collect vs body) (λ ws, Forall Q ws ∧ length ws = length vs).
Proof.
  intros Hbody. induction vs as [|v vs IH]; simpl; [by apply keeps_ret|].
  eapply keeps_bind; [apply Hbody|]. intros w Hw.
  eapply keeps_bind; [apply IH|]. intros ws [Hws Hlen]. apply keeps_ret.
  split; [by apply Forall_cons|]. simpl. by rewrite Hlen.
Qed.

(** *** The methods *)

Lemma keeps_evaluate_route self route : keeps (_evaluate_route self route) (λ _, True).
Proof.
  unfold _evaluate_route. eapply keeps_bind; [apply keeps_get|]. intros r Hr.
  case_bool_decide; [by apply keeps_put|].
  eapply (keeps_bind _ _ (λ _, True)); [by apply keeps_lift|]. intros [[d f] s] _.
  by apply keeps_put.
Qed.

Lemma keeps_initial_waypoint self num_waypoints i :
  keeps (initial_waypoint tape self start goal num_waypoints i)
        (λ o, ∀ c, o = Some c → water c).
Proof.
  unfold initial_waypoint.
  eapply (keeps_bind _ _ (λ _, True)); [by apply keeps_lift|]. intros tx _.
  eapply (keeps_bind _ _ (λ _, True)); [by apply keeps_lift|]. intros ty _.
  eapply keeps_bind; [apply keeps_randint|]. intros jx _.
  eapply keeps_bind; [apply keeps_randint|]. intros jy _.
  eapply (keeps_bind _ _ (λ _, True)); [by apply keeps_lift|]. intros cell _.
  apply keeps_ret. intros c Hc. destruct cell as [c'|]; [|done].
  unfold water. destruct (Cell.is_land c') eqn:Hland; by simplify_eq.
Qed.

Lemma keeps_initial_route self : keeps (initial_route tape self start goal) (λ _, True).
Proof.
  unfold initial_route. eapply keeps_bind; [apply keeps_randint|]. intros n Hn. simpl in Hn.
  eapply keeps_bind; [apply keeps_collect; intros; apply keeps_initial_waypoint|].
  intros mids [Hmids Hlen].
  eapply keeps_bind; [apply keeps_alloc|].
  { assert ((length (omap id mids) ≤ length mids)%nat ∧ Forall water (omap id mids))
      as [Hle Hwater].
    { clear Hlen. induction Hmids as [|[c|] mids Hc _ [IHl IHw]]; csimpl;
        [done| |split; [lia|done]].
      split; [lia|]. apply Forall_cons. split; [by apply Hc|done]. }
    apply good_initial; [|done]. rewrite Hlen in Hle. unfold Py.range in Hle.
    rewrite length_seqZ in Hle. lia. }
  intros route _.
  eapply keeps_bind; [apply keeps_evaluate_route|]. intros. by apply keeps_ret.
Qed.

Lemma keeps_initialize_population self :
  keeps (_initialize_population tape self start goal) (λ _, True).
Proof.
  eapply keeps_weaken; [apply keeps_collect; intros; apply keeps_initial_route|done].
Qed.

Lemma keeps_max_by_fitness best rest : keeps (max_by_fitness best rest) (λ _, True).
Proof.
  revert best. induction rest as [|r rest IH]; intros best; simpl; [by apply keeps_ret|].
  eapply keeps_bind; [apply keeps_get|]. intros b _.
  eapply keeps_bind; [apply keeps_get|]. intros c _. apply IH.
Qed.

Lemma keeps_tournament_selection self population k :
  keeps (_tournament_selection tape self population k) (λ _, True).
Proof.
  eapply keeps_weaken; [apply keeps_collect|done]. intros _.
  eapply keeps_bind; [apply keeps_sample|]. intros [|r rest] _; [by apply keeps_lift|].
  apply keeps_max_by_fitness.
Qed.

Lemma keeps_cross_pair self p1 p2 : keeps (cross_pair tape self p1 p2) (λ _, True).
Proof.
  unfold cross_pair. eapply keeps_bind; [apply keeps_random|]. intros u _.
  destruct (PrimFloat.ltb u _); [|by apply keeps_ret].
  eapply keeps_bind; [apply keeps_get|]. intros parent1 H1.
  eapply keeps_bind; [apply keeps_get|]. intros parent2 H2.
  case_bool_decide as Hlen; [|by apply keeps_ret].
  eapply keeps_bind; [apply keeps_randint|]. intros point Hpoint. simpl in Hpoint.
  eapply keeps_bind; [apply keeps_alloc; apply good_cross; [done..|lia|lia|lia]|].
  intros c1 _.
  eapply keeps_bind; [apply keeps_alloc; apply good_cross; [done..|lia|lia|lia]|].
  intros c2 _.
  eapply keeps_bind; [apply keeps_evaluate_route|]. intros _ _.
  eapply keeps_bind; [apply keeps_evaluate_route|]. intros _ _.
  by apply keeps_ret.
Qed.

Lemma keeps_crossover self parents : keeps (_crossover tape self parents) (λ _, True).
Proof.
  assert (∀ n parents, (length parents ≤ n)%nat →
            keeps (_crossover tape self parents) (λ _, True)) as Hall; [|by eapply Hall].
  clear parents. induction n as [|n IH]; intros [|p1 [|p2 rest]] Hlen; simpl in *;
    try (by apply keeps_ret); [lia|].
  eapply keeps_bind; [apply keeps_cross_pair|]. intros pair _.
  eapply keeps_bind; [apply IH; lia|]. intros. by apply keeps_ret.
Qed.

Lemma get_cell_water self x y :
  keeps (lift (NavigationGrid.get_cell (grid self) x y))
        (λ o, ∀ c, o = Some c → Cell.is_land c = false → water c).
Proof. apply keeps_lift. by intros. Qed.

Lemma keeps_mutate_waypoints self mutation_type wps :
  good wps → (2 < length wps)%nat →
  keeps (mutate_waypoints tape self mutation_type wps) good.
Proof.
  intros Hwps Hlen. unfold mutate_waypoints. destruct mutation_type.
  - eapply keeps_bind; [apply keeps_randint|]. intros idx Hidx. simpl in Hidx.
    eapply (keeps_bind _ _ (λ _, True)); [by apply keeps_lift|]. intros current _.
    eapply keeps_bind; [apply keeps_randint|]. intros jx _.
    eapply keeps_bind; [apply keeps_randint|]. intros jy _.
    eapply (keeps_bind _ _ (λ _, True)); [by apply keeps_lift|]. intros [c|] _;
      [|by apply keeps_ret].
    apply keeps_ret. destruct (Cell.is_land c) eqn:Hland; [done|].
    apply good_modify; [done|lia..|done].
  - case_bool_decide; [|by apply keeps_ret].
    eapply keeps_bind; [apply keeps_randint|]. intros idx Hidx. simpl in Hidx.
    eapply (keeps_bind _ _ (λ _, True)); [by apply keeps_lift|]. intros prev _.
    eapply (keeps_bind _ _ (λ _, True)); [by apply keeps_lift|]. intros next_wp _.
    eapply keeps_bind; [apply keeps_randint|]. intros jx _.
    eapply keeps_bind; [apply keeps_randint|]. intros jy _.
    eapply (keeps_bind _ _ (λ _, True)); [by apply keeps_lift|]. intros [c|] _;
      [|by apply keeps_ret].
    apply keeps_ret. destruct (Cell.is_land c) eqn:Hland; [done|].
    apply good_add; [done|lia..|done].
  - case_bool_decide; [|by apply keeps_ret].
    eapply keeps_bind; [apply keeps_randint|]. intros idx Hidx. simpl in Hidx.
    apply keeps_ret. apply good_remove; [done|lia..].
Qed.

Lemma keeps_mutate_route self route : keeps (mutate_route tape self route) (λ _, True).
Proof.
  unfold mutate_route. eapply keeps_bind; [apply keeps_random|]. intros u _.
  destruct (PrimFloat.ltb u _); [|by apply keeps_ret].
  eapply keeps_bind; [apply keeps_get|]. intros r Hr.
  case_bool_decide as Hlen; [|by apply keeps_ret].
  eapply keeps_bind; [apply keeps_choice|]. intros mutation_type _.
  eapply keeps_bind; [by apply keeps_mutate_waypoints|]. intros wps Hwps.
  eapply keeps_bind; [by apply keeps_put|]. intros _ _. apply keeps_evaluate_route.
Qed.

Lemma keeps_mutate self offspring :
  keeps (_mutate tape self offspring start goal) (λ _, True).
Proof.
  unfold _mutate. eapply keeps_bind; [apply keeps_for_; intros; apply keeps_mutate_route|].
  intros. by apply keeps_ret.
Qed.

Lemma keeps_assess w ev route : keeps (assess w ev route) (λ _, True).
Proof.
  unfold assess. eapply keeps_bind; [apply keeps_get|]. intros r Hr.
  eapply keeps_bind; [by apply keeps_put|]. intros _ _.
  destruct (PrimFloat.ltb _ _); by apply keeps_ret.
Qed.

Lemma keeps_assess_all w ev routes : keeps (assess_all w ev routes) (λ _, True).
Proof.
  revert ev. induction routes as [|r rs IH]; intros ev; simpl; [by apply keeps_ret|].
  eapply keeps_bind; [apply keeps_assess|]. intros ev' _. apply IH.
Qed.

Lemma keeps_generation_step self w ev generation :
  keeps (generation_step tape self start goal w ev generation) (λ _, True).
Proof.
  unfold generation_step.
  eapply keeps_bind; [apply keeps_assess_all|]. intros ev' _.
  eapply keeps_bind; [apply keeps_tournament_selection|]. intros parents _.
  eapply keeps_bind; [apply keeps_crossover|]. intros offspring _.
  eapply keeps_bind; [apply keeps_mutate|]. intros offspring' _.
  eapply keeps_bind.
  { apply keeps_collect. intros r. eapply keeps_bind; [apply keeps_get|].
    intros. by apply (keeps_ret _ (λ _, True)). }
  intros keyed _.
  eapply (keeps_bind _ _ (λ _, True)); [by apply keeps_lift|]. intros elite_size _.
  by apply keeps_ret.
Qed.

Lemma keeps_evolve self w ev gens :
  keeps (evolve tape self start goal w ev gens) (λ _, True).
Proof.
  revert ev. induction gens as [|g gens IH]; intros ev; simpl; [by apply keeps_ret|].
  eapply keeps_bind; [apply keeps_generation_step|]. intros ev' _. apply IH.
Qed.

Lemma keeps_optimize self w :
  keeps (optimize tape self start goal w)
        (λ res, ∀ r, res = Some r → good (Route.waypoints r)).
Proof.
  unfold optimize, run.
  eapply keeps_bind.
  { eapply keeps_bind; [apply keeps_initialize_population|]. intros population _.
    apply keeps_evolve. }
  intros ev _. destruct (best_route ev) as [route|]; [|by apply keeps_ret].
  eapply keeps_bind; [apply keeps_get|]. intros r Hr. apply keeps_ret.
  by intros r' [= <-].
Qed.

End route_invariant.

(** *** From the start to the goal *)

Definition ends (start goal : Cell.t) (wps : list Cell.t) : Prop :=
  head wps = Some start ∧ last wps = Some goal.

Lemma ends_splice start goal wps i j mid :
  ends start goal wps → (1 ≤ i)%nat → (j < length wps)%nat →
  ends start goal (take i wps ++ mid ++ drop j wps).
Proof.
  unfold ends. rewrite !head_lookup, !last_lookup. intros [Hh Hl] Hi Hj.
  apply lookup_lt_Some in Hh as Hlen. split.
  - rewrite lookup_app_l by (rewrite length_take; lia). by rewrite lookup_take_lt by lia.
  - rewrite !length_app, length_take, length_drop.
    rewrite lookup_app_r by (rewrite length_take; lia).
    rewrite lookup_app_r by (rewrite length_take; lia).
    rewrite lookup_drop. rewrite <- Hl. f_equal. rewrite length_take. lia.
Qed.

Lemma ends_initial start goal mids : ends start goal ([start] ++ mids ++ [goal]).
Proof. split; [done|]. by rewrite app_assoc, last_snoc. Qed.

Lemma ends_modify start goal wps (idx : nat) c :
  ends start goal wps → (1 ≤ idx)%nat → (idx + 2 ≤ length wps)%nat →
  ends start goal (<[idx := c]> wps).
Proof.
  unfold ends. rewrite !head_lookup, !last_lookup, length_insert. intros [Hh Hl] Hi Hj.
  by rewrite !list_lookup_insert_ne by lia.
Qed.

Lemma ends_cross start goal p1 p2 point :
  ends start goal p1 → ends start goal p2 → (1 ≤ point)%nat → (point < length p2)%nat →
  ends start goal (take point p1 ++ drop point p2).
Proof.
  unfold ends. rewrite !head_lookup, !last_lookup. intros [Hh1 _] [_ Hl2] Hi Hj.
  apply lookup_lt_Some in Hh1 as Hlen. split.
  - rewrite lookup_app_l by (rewrite length_take; lia). by rewrite lookup_take_lt by lia.
  - rewrite !length_app, length_take, length_drop.
    rewrite lookup_app_r by (rewrite length_take; lia).
    rewrite lookup_drop. rewrite <- Hl2. f_equal. rewrite length_take. lia.
Qed.

Section endpoints.
Import GeneticRouteOptimizer.
Context {libm : Libm}.
Variable tape : nat → Z.
Variables start goal : Cell.t.

(** Every route object allocated so far runs from [start] to [goal]. *)
Definition all_end (m : mem) : Prop := stored (ends start goal) m.

Lemma ends_initial_route mids :
  (length mids ≤ 15)%nat → Forall water mids → ends start goal ([start] ++ mids ++ [goal]).
Proof. intros. apply ends_initial. Qed.

Lemma ends_crossover p1 p2 point :
  ends start goal p1 → ends start goal p2 → (1 ≤ point)%nat → (point < length p1)%nat →
  (point < length p2)%nat → ends start goal (take point p1 ++ drop point p2).
Proof. intros. by apply ends_cross. Qed.

Lemma ends_modified wps idx c :
  ends start goal wps → (1 ≤ idx)%nat → (idx + 2 ≤ length wps)%nat → water c →
  ends start goal (<[idx := c]> wps).
Proof. intros. by apply ends_modify. Qed.

Lemma ends_added wps idx c :
  ends start goal wps → (length wps < 20)%nat → (1 ≤ idx)%nat → (idx < length wps)%nat →
  water c → ends start goal (take idx wps ++ c :: drop idx wps).
Proof. intros. apply (ends_splice start goal wps idx idx [c]); [done|lia..]. Qed.

Lemma ends_removed wps idx :
  ends start goal wps → (3 < length wps)%nat → (1 ≤ idx)%nat → (idx + 2 ≤ length wps)%nat →
  ends start goal (delete idx wps).
Proof.
  intros. rewrite delete_take_drop.
  apply (ends_splice start goal wps idx (S idx) []); [done|lia..].
Qed.

End endpoints.

(** *** Between 2 and 20 waypoints, none of them land *)

Section route_sizes.
Import GeneticRouteOptimizer.
Context {libm : Libm}.
Variable tape : nat → Z.
Variables start goal : Cell.t.

Definition sized (wps : list Cell.t) : Prop := (2 ≤ length wps ≤ 20)%nat.

Lemma sized_initial mids :
  (length mids ≤ 15)%nat → Forall water mids → sized ([start] ++ mids ++ [goal]).
Proof. unfold sized. rewrite !length_app. simpl. lia. Qed.

Lemma sized_crossover p1 p2 point :
  sized p1 → sized p2 → (1 ≤ point)%nat → (point < length p1)%nat →
  (point < length p2)%nat → sized (take point p1 ++ drop point p2).
Proof. unfold sized. rewrite length_app, length_take, length_drop. lia. Qed.

Lemma sized_modified wps idx (c : Cell.t) :
  sized wps → (1 ≤ idx)%nat → (idx + 2 ≤ length wps)%nat → water c →
  sized (<[idx := c]> wps).
Proof. unfold sized. by rewrite length_insert. Qed.

Lemma sized_added wps idx (c : Cell.t) :
  sized wps → (length wps < 20)%nat → (1 ≤ idx)%nat → (idx < length wps)%nat →
  water c → sized (take idx wps ++ c :: drop idx wps).
Proof. unfold sized. rewrite length_app, length_take. simpl. rewrite length_drop. lia. Qed.

Lemma sized_removed (wps : list Cell.t) idx :
  sized wps → (3 < length wps)%nat → (1 ≤ idx)%nat → (idx + 2 ≤ length wps)%nat →
  sized (delete idx wps).
Proof.
  unfold sized. intros. rewrite length_delete; [lia|]. apply lookup_lt_is_Some_2. lia.
Qed.


Hypothesis start_water : water start.
Hypothesis goal_water : water goal.

Lemma at_sea_initial mids :
  (length mids ≤ 15)%nat → Forall water mids → Forall water ([start] ++ mids ++ [goal]).
Proof.
  intros _ Hmids. apply Forall_app. split; [by apply Forall_singleton|].
  apply Forall_app. split; [done|]. by apply Forall_singleton.
Qed.

Lemma at_sea_crossover (p1 p2 : list Cell.t) point :
  Forall water p1 → Forall water p2 → (1 ≤ point)%nat → (point < length p1)%nat →
  (point < length p2)%nat → Forall water (take point p1 ++ drop point p2).
Proof.
  intros. apply Forall_app. split; [by apply Forall_take|by apply Forall_drop].
Qed.

Lemma at_sea_modified wps idx (c : Cell.t) :
  Forall water wps → (1 ≤ idx)%nat → (idx + 2 ≤ length wps)%nat → water c →
  Forall water (<[idx := c]> wps).
Proof. intros. by apply Forall_insert. Qed.

Lemma at_sea_added wps idx (c : Cell.t) :
  Forall water wps → (length wps < 20)%nat → (1 ≤ idx)%nat → (idx < length wps)%nat →
  water c → Forall water (take idx wps ++ c :: drop idx wps).
Proof.
  intros. apply Forall_app. split; [by apply Forall_take|].
  apply Forall_cons. split; [done|by apply Forall_drop].
Qed.

Lemma at_sea_removed (wps : list Cell.t) idx :
  Forall water wps → (3 < length wps)%nat → (1 ≤ idx)%nat → (idx + 2 ≤ length wps)%nat →
  Forall water (delete idx wps).
Proof. intros. by apply Forall_delete. Qed.


End route_sizes.

(** ** The population optimizer: the route that is returned *)

(** A run of the random source: the lowest value for the 66 draws of the
    initial population and the 30 draws of the first selection, no crossover
    (draws 96 to 98), a mutation of the first offspring that adds a waypoint
    (draws 99 to 103), and the highest value from there on (no other
    mutation, no crossover). *)
Definition adding_tape (n : nat) : Z :=
  let n := Z.of_nat n in
  if bool_decide (n < 96) then 0
  else if bool_decide (n = 100) then 1
  else if bool_decide (99 ≤ n ≤ 103) then 0
  else 2 ^ 53 - 1.




